(** * A shallow embedding of [script.js] (product picker and routine chat)

    The development follows the source file top-down: JavaScript strings
    and the few [String.prototype] / [RegExp] operations the script uses,
    the assistant-text formatter [parseAssistantTextToNodes], the product
    filter [applyFilters], the [selectedProducts] map and the two chat
    handlers.  Definitions come first, statements about them afterwards. *)

From Stdlib Require Import String Ascii Numbers.DecimalString.
From Stdlib Require Import List NArith Bool Arith Lia.
Import ListNotations.

Set Implicit Arguments.

(* ================================================================== *)
(** ** JavaScript strings *)

(** A JavaScript string is a finite sequence of UTF-16 code units.  The
    script tests for code units outside Latin-1 (the bullet U+2022, the
    Unicode spaces of [\s]), so a code unit is a number and not an
    [ascii]. *)
Module Js.

Definition char := N.
Bind Scope N_scope with char.
Definition jsstring := list char.

Definition LF : char := 10%N.
Definition CR : char := 13%N.
Definition SP : char := 32%N.

(** ASCII literals, for readable examples. *)
Definition js (s : string) : jsstring :=
  map N_of_ascii (list_ascii_of_string s).

(** [Boolean(s)] on a string: only the empty string is falsy. *)
Definition truthy (s : jsstring) : bool :=
  match s with [] => false | _ :: _ => true end.

(** WhiteSpace and LineTerminator code points of ECMAScript: what
    [String.prototype.trim] strips and what [\s] matches. *)
Definition isSpace (c : char) : bool :=
  ((9 <=? c) && (c <=? 13) || (c =? 32) || (c =? 160) || (c =? 5760)
   || (8192 <=? c) && (c <=? 8202) || (c =? 8232) || (c =? 8233)
   || (c =? 8239) || (c =? 8287) || (c =? 12288) || (c =? 65279))%N.

(** [\d] *)
Definition isDigit (c : char) : bool := ((48 <=? c) && (c <=? 57))%N.

Fixpoint trimStart (s : jsstring) : jsstring :=
  match s with
  | [] => []
  | c :: r => if isSpace c then trimStart r else s
  end.

Definition trimEnd (s : jsstring) : jsstring := rev (trimStart (rev s)).

(** [s.trim()] *)
Definition trim (s : jsstring) : jsstring := trimEnd (trimStart s).

(** [s.split(sep)] for a one-code-unit separator. *)
Fixpoint splitOn (sep : char) (s : jsstring) : list jsstring :=
  match s with
  | [] => [[]]
  | c :: r =>
      if (c =? sep)%N then [] :: splitOn sep r
      else match splitOn sep r with
           | p :: ps => (c :: p) :: ps
           | [] => [[c]]
           end
  end.

(** [a.join(sep)] *)
Fixpoint join (sep : jsstring) (a : list jsstring) : jsstring :=
  match a with
  | [] => []
  | x :: rest =>
      match rest with
      | [] => x
      | _ :: _ => x ++ sep ++ join sep rest
      end
  end.

(** [s.replace(/\r\n/g, "\n")] *)
Fixpoint replaceCRLF (s : jsstring) : jsstring :=
  match s with
  | [] => []
  | c :: r =>
      match r with
      | d :: r' =>
          if ((c =? CR) && (d =? LF))%N then LF :: replaceCRLF r'
          else c :: replaceCRLF r
      | [] => [c]
      end
  end.

(** [hay.includes(needle)] *)
Fixpoint startsWith (needle s : jsstring) : bool :=
  match needle, s with
  | [], _ => true
  | _ :: _, [] => false
  | a :: n', b :: s' => (a =? b)%N && startsWith n' s'
  end.

Fixpoint includes (hay needle : jsstring) : bool :=
  startsWith needle hay ||
  match hay with
  | [] => false
  | _ :: r => includes r needle
  end.

End Js.
Export Js.

(* ================================================================== *)
(** ** Regular expressions *)

(** The script's regular expressions are sequences of single-character
    classes, each taken once or under a greedy star, optionally anchored
    at the start ([^]) or the end ([$]) of the input.  [exec] is the
    backtracking matcher of ECMAScript restricted to that fragment: a
    star first tries to take one more character and only then lets the
    rest of the pattern run. *)
Module Regex.

Inductive item : Type :=
| Chr (p : char -> bool)      (* one character of the class *)
| Many (p : char -> bool)     (* greedy  p*  *)
| Eoi.                        (* $ (no multiline flag) *)

(** [p+] *)
Definition Some1 (p : char -> bool) : list item := [Chr p; Many p].

Fixpoint exec (re : list item) : jsstring -> option jsstring :=
  match re with
  | [] => fun s => Some s
  | Chr p :: re' =>
      fun s =>
        match s with
        | c :: r => if p c then exec re' r else None
        | [] => None
        end
  | Many p :: re' =>
      fix many (s : jsstring) : option jsstring :=
        match s with
        | c :: r =>
            if p c then
              match many r with
              | Some rest => Some rest
              | None => exec re' s
              end
            else exec re' s
        | [] => exec re' []
        end
  | Eoi :: re' =>
      fun s =>
        match s with
        | [] => exec re' []
        | _ :: _ => None
        end
  end.

(** Leftmost match: the text before it and the text after it. *)
Fixpoint search (re : list item) (s : jsstring)
  : option (jsstring * jsstring) :=
  match exec re s with
  | Some rest => Some ([], rest)
  | None =>
      match s with
      | [] => None
      | c :: r =>
          match search re r with
          | Some (pre, rest) => Some (c :: pre, rest)
          | None => None
          end
      end
  end.

(** A pattern with a leading [^] only matches at index 0. *)
Record regex : Type := { caret : bool; body : list item }.

Definition find (re : regex) (s : jsstring) : option (jsstring * jsstring) :=
  if caret re then
    match exec (body re) s with
    | Some rest => Some ([], rest)
    | None => None
    end
  else search (body re) s.

(** [re.test(s)] *)
Definition test (re : regex) (s : jsstring) : bool :=
  match find re s with Some _ => true | None => false end.

(** [s.replace(re, "")] *)
Definition strip (re : regex) (s : jsstring) : jsstring :=
  match find re s with
  | Some (pre, rest) => pre ++ rest
  | None => s
  end.

(** Character classes of the script. *)
Definition isChar (c0 : char) (c : char) : bool := (c =? c0)%N.

(** A letter under the [i] flag (no [u] flag): canonicalisation never
    maps a code unit above 127 to an ASCII one, so only the two ASCII
    cases of the letter match. *)
Definition letter (lower upper : char) (c : char) : bool :=
  ((c =? lower) || (c =? upper))%N.

(** [[\.\)]] *)
Definition isDotParen (c : char) : bool := ((c =? 46) || (c =? 41))%N.
(** [[:\.\)]] *)
Definition isColonDotParen (c : char) : bool :=
  ((c =? 58) || (c =? 46) || (c =? 41))%N.
(** [[-*•]] *)
Definition isBulletChar (c : char) : bool :=
  ((c =? 45) || (c =? 42) || (c =? 8226))%N.

(** [/\n\s*\n/] *)
Definition reBlank : list item := [Chr (isChar LF); Many isSpace; Chr (isChar LF)].

(** [/:\s*$/] *)
Definition reColonEnd : regex :=
  {| caret := false; body := [Chr (isChar 58%N); Many isSpace; Eoi] |}.

(** [/^\s*\d+[\.\)]\s+/] *)
Definition reNumbered : regex :=
  {| caret := true;
     body := Many isSpace :: Some1 isDigit ++ Chr isDotParen :: Some1 isSpace |}.

(** [/^\s*[-*•]\s+/] *)
Definition reBullet : regex :=
  {| caret := true;
     body := Many isSpace :: Chr isBulletChar :: Some1 isSpace |}.

(** [/^\s*Step\s*\d+[:\.\)]\s*/i] *)
Definition reStep : regex :=
  {| caret := true;
     body := [Many isSpace;
              Chr (letter 115 83); Chr (letter 116 84);
              Chr (letter 101 69); Chr (letter 112 80);
              Many isSpace]
             ++ Some1 isDigit ++ [Chr isColonDotParen; Many isSpace] |}.

(** [s.split(/\n\s*\n/)].  A separator is at least two code units long,
    so the empty-match rule of [split] never applies.  [skip] counts the
    code units of the separator that are still to be passed over. *)
Fixpoint splitGo (skip : nat) (s cur : jsstring) : list jsstring :=
  match s with
  | [] => [rev cur]
  | c :: r =>
      match skip with
      | S k => splitGo k r cur
      | O =>
          match exec reBlank s with
          | Some rest => rev cur :: splitGo (length r - length rest) r []
          | None => splitGo 0 r (c :: cur)
          end
      end
  end.

Definition splitBlank (s : jsstring) : list jsstring := splitGo 0 s [].

End Regex.
Export Regex.

(* ================================================================== *)
(** ** The assistant-text formatter *)

Module Formatter.

(** The nodes the formatter creates: [h4], [ol], [ul] and [p] elements.
    A list element is the sequence of the [textContent] of its [li]
    children. *)
Inductive Block : Type :=
| Heading (text : jsstring)
| OrderedList (items : list jsstring)
| UnorderedList (items : list jsstring)
| Paragraph (text : jsstring).

(** [const last = ol.lastElementChild;
     if (last) last.textContent += " " + line;] *)
Fixpoint appendToLast (items : list jsstring) (line : jsstring)
  : list jsstring :=
  match items with
  | [] => []
  | x :: rest =>
      match rest with
      | [] => [x ++ SP :: line]
      | _ :: _ => x :: appendToLast rest line
      end
  end.

(** One turn of the [lines.forEach] loops that fill a list element
    (lines 319-331, 338-348 and 359-369: the same loop for the three
    marker patterns). *)
Definition listStep (marker : regex) (items : list jsstring)
  (line : jsstring) : list jsstring :=
  if test marker line then items ++ [trim (strip marker line)]
  else appendToLast items line.

Definition listItems (marker : regex) (lines : list jsstring)
  : list jsstring :=
  fold_left (listStep marker) lines [].

(** [lines.filter((l) => re.test(l)).length] *)
Definition countMatches (re : regex) (lines : list jsstring) : nat :=
  length (filter (test re) lines).

(** [para.split("\n").map((l) => l.trim()).filter(Boolean)] *)
Definition linesOf (para : jsstring) : list jsstring :=
  filter truthy (map trim (splitOn LF para)).

(** The classification of a paragraph once the heading case is
    excluded, lines 312-377. *)
Definition plainNodes (lines : list jsstring) : list Block :=
  let isNumbered := 1 <=? countMatches reNumbered lines in
  let isBullet := 1 <=? countMatches reBullet lines in
  if isNumbered && negb isBullet then
    [OrderedList (listItems reNumbered lines)]
  else if isBullet && negb isNumbered then
    [UnorderedList (listItems reBullet lines)]
  else if 2 <=? countMatches reStep lines then
    [OrderedList (listItems reStep lines)]
  else [Paragraph (join [SP] lines)].

(** The body of [paragraphs.forEach], lines 292-378: the nodes one
    paragraph pushes.  [self] is the recursive call of line 307. *)
Definition paraNodes (self : jsstring -> option (list Block))
  (para : jsstring) : option (list Block) :=
  let lines := linesOf para in
  if (1 <? length lines) && test reColonEnd (hd [] lines) then
    match self (join [LF] (tl lines)) with
    | Some childNodes =>
        Some (Heading (strip reColonEnd (hd [] lines)) :: childNodes)
    | None => None
    end
  else Some (plainNodes lines).

Fixpoint forEachPara (f : jsstring -> option (list Block))
  (paragraphs : list jsstring) (nodes : list Block)
  : option (list Block) :=
  match paragraphs with
  | [] => Some nodes
  | para :: rest =>
      match f para with
      | Some pushed => forEachPara f rest (nodes ++ pushed)
      | None => None
      end
  end.

(** [normalized.split(/\n\s*\n/).map((p) => p.trim()).filter(Boolean)] *)
Definition paragraphsOf (text : jsstring) : list jsstring :=
  filter truthy (map trim (splitBlank (trim (replaceCRLF text)))).

(** [parseAssistantTextToNodes], lines 282-381.  The function calls
    itself on the lines below a heading (line 307), with no bound on the
    depth and no [try].  [fuel] is the number of nested calls of the
    function the host's call stack has room for, and [None] is the
    [RangeError] the host throws when a call finds no room: it ends the
    outermost call too.  (What one call takes of a stack depends on the
    host; that the room is finite does not.) *)
Fixpoint parse (fuel : nat) (text : jsstring) : option (list Block) :=
  match fuel with
  | O => None
  | S fuel' =>
      if negb (truthy text) then Some []
      else forEachPara (paraNodes (parse fuel')) (paragraphsOf text) []
  end.

(** The function on a stack with room for more nested calls than the
    text has code units, which is always enough ([parse_enough] below):
    what the function returns wherever the host lets it return. *)
Definition parseAssistantTextToNodes (text : jsstring)
  : option (list Block) :=
  parse (S (length text)) text.

(** The nodes a call returns. *)
Definition format (text : jsstring) : list Block :=
  match parseAssistantTextToNodes text with
  | Some nodes => nodes
  | None => []
  end.

(** The nodes the loop body pushes for one paragraph. *)
Definition unitNodes (para : jsstring) : list Block :=
  match paraNodes parseAssistantTextToNodes para with
  | Some nodes => nodes
  | None => []
  end.

End Formatter.
Export Formatter.

(* ================================================================== *)
(** ** The product filter *)

Module Filter.

(** An entry of [products.json].  [brand] and [description] may be
    missing (the script reads them through [|| ""]). *)
Record Product : Type := {
  name : jsstring;
  brand : option jsstring;
  category : jsstring;
  image : jsstring;
  description : option jsstring
}.

(** [x || ""] for [x] a string or [undefined]. *)
Definition orEmpty (x : option jsstring) : jsstring :=
  match x with Some s => s | None => [] end.

(** [a === b] on strings. *)
Fixpoint strictEq (a b : jsstring) : bool :=
  match a, b with
  | [], [] => true
  | x :: a', y :: b' => (x =? y)%N && strictEq a' b'
  | _, _ => false
  end.

(** [String.prototype.toLowerCase] on strings of ASCII code units, where
    it is this map.  Used to run the filter on concrete ASCII input;
    the filter itself takes the conversion as a parameter. *)
Definition toLowerCaseASCII (s : jsstring) : jsstring :=
  map (fun c => if ((65 <=? c) && (c <=? 90))%N then (c + 32)%N else c) s.

Section WithToLowerCase.

(** [String.prototype.toLowerCase], a built-in of the host. *)
Variable toLowerCase : jsstring -> jsstring.

(** The template literal of lines 57-59, lower-cased. *)
Definition hay (p : Product) : jsstring :=
  toLowerCase
    (name p ++ SP :: orEmpty (brand p) ++ SP :: orEmpty (description p)).

(** [applyFilters], lines 38-64.  [loadProducts] is what the awaited
    [loadProducts()] yields, [None] when it rejects; [categoryValue] is
    [categoryFilter.value] and [searchValue] is [productSearch?.value].
    The result is the new [allProducts] and the list handed to
    [displayProducts]. *)
Definition applyFilters (loadProducts : option (list Product))
  (allProducts : list Product) (categoryValue : jsstring)
  (searchValue : option jsstring)
  : option (list Product * list Product) :=
  let loaded :=
    match allProducts with
    | [] => loadProducts
    | _ :: _ => Some allProducts
    end in
  match loaded with
  | None => None
  | Some allProducts =>
      let category := categoryValue in
      let q := toLowerCase (trim (orEmpty searchValue)) in
      let filtered := allProducts in
      let filtered :=
        if truthy category
        then filter (fun p => strictEq (Filter.category p) category) filtered
        else filtered in
      let filtered :=
        if truthy q
        then filter (fun p => includes (hay p) q) filtered
        else filtered in
      Some (allProducts, filtered)
  end.

End WithToLowerCase.

End Filter.

(* ================================================================== *)
(** ** The selection map *)

Module Selection.

(** The value stored per key: [{ name, brand, image }]. *)
Record Summary : Type := {
  name : jsstring;
  brand : jsstring;
  image : jsstring
}.

(** A JavaScript [Map] iterates in insertion order: its entries are kept
    as a list, oldest first, with no key twice. *)
Definition SelMap := list (jsstring * Summary).

Definition keys (m : SelMap) : list jsstring := map fst m.

(** [Array.from(m.values())] *)
Definition values (m : SelMap) : list Summary := map snd m.

Definition has (key : jsstring) (m : SelMap) : bool :=
  existsb (fun e => Filter.strictEq (fst e) key) m.

Definition delete (key : jsstring) (m : SelMap) : SelMap :=
  filter (fun e => negb (Filter.strictEq (fst e) key)) m.

(** [m.set(key, v)]: an existing key keeps its place, a new one goes to
    the end. *)
Fixpoint set (key : jsstring) (v : Summary) (m : SelMap) : SelMap :=
  match m with
  | [] => [(key, v)]
  | (k, x) :: rest =>
      if Filter.strictEq k key then (k, v) :: rest
      else (k, x) :: set key v rest
  end.

(** The card branch of the click listener on [productsContainer], lines
    171-189, as far as [selectedProducts] is concerned.  The arguments
    are the card's [dataset] fields. *)
Definition toggle (key : jsstring) (v : Summary) (selectedProducts : SelMap)
  : SelMap :=
  if negb (truthy key) then selectedProducts
  else if has key selectedProducts then delete key selectedProducts
  else set key v selectedProducts.

(** Index of a key in the insertion-order snapshot. *)
Fixpoint position (key : jsstring) (ks : list jsstring) : option nat :=
  match ks with
  | [] => None
  | k :: rest =>
      if Filter.strictEq k key then Some 0
      else match position key rest with
           | Some i => Some (S i)
           | None => None
           end
  end.

End Selection.

(* ================================================================== *)
(** ** The chat handlers *)

Module Chat.

Import Filter.

Inductive Role : Type := system | user | assistant.

Record Message : Type := { role : Role; content : jsstring }.

(** Children of [chatWindow]: a [div.chat-user] with its text, or a
    [div.chat-assistant] with the nodes put into it. *)
Inductive ChatEl : Type :=
| ChatUser (text : jsstring)
| ChatAssistant (nodes : list Block).

Record State : Type := {
  conversationMessages : list Message;
  chatWindow : list ChatEl
}.

(** The body posted to the completion endpoint. *)
Record Request : Type := {
  model : jsstring;
  messages : list Message;
  max_tokens : N;
  temperature : jsstring
}.

(** An awaited promise either fulfils or makes [await] throw an error
    with a [message]. *)
Inductive Awaited (A : Type) : Type :=
| Fulfilled (a : A)
| Thrown (message : jsstring).
Arguments Thrown {A} message.

(** What the handlers read from the response: [resp.ok], [resp.status],
    [await resp.text()], and from [await resp.json()] the value at
    [data?.choices?.[0]?.message?.content] ([None] when the path is
    absent). *)
Record Response : Type := {
  ok : bool;
  status : N;
  text : Awaited jsstring;
  json : Awaited (option jsstring)
}.

(** The history the page starts with, lines 94-101, and an empty chat
    window. *)
Definition systemPrompt : jsstring :=
  js "You are a helpful skincare and beauty routine assistant. Answer only about skincare, haircare, makeup, fragrance, and routine-related follow-ups. "
  ++ js "If asked something unrelated, reply: 'I can only help with routines and beauty topics "
  ++ [8212%N]
  ++ js " please ask something related.' Keep answers concise and user friendly.".

Definition initialState : State :=
  {| conversationMessages := [{| role := system; content := systemPrompt |}];
     chatWindow := [] |}.

(** [`${n}`] for a natural number. *)
Definition decimal (n : N) : jsstring :=
  js (NilEmpty.string_of_uint (N.to_uint n)).

Definition pushMessage (r : Role) (c : jsstring) (st : State) : State :=
  {| conversationMessages := conversationMessages st ++ [{| role := r; content := c |}];
     chatWindow := chatWindow st |}.

Definition appendChild (el : ChatEl) (st : State) : State :=
  {| conversationMessages := conversationMessages st;
     chatWindow := chatWindow st ++ [el] |}.

(** [appendAssistantMessage(text)] for a string [text], lines 384-404. *)
Definition assistantNodes (text : jsstring) : list Block :=
  match format text with
  | [] => [Paragraph text]
  | n :: nodes => n :: nodes
  end.

Definition appendAssistantMessage (text : jsstring) (st : State) : State :=
  appendChild (ChatAssistant (assistantNodes text)) st.

Definition noKeyNotice : jsstring :=
  js "OpenAI API key not found. Add your key to secrets.js and reload the page.".
Definition noResponseNotice : jsstring :=
  js "No response from the API. Try again later.".
Definition noProductsNotice : jsstring :=
  js "Please select one or more products before generating a routine.".
Definition requestFailedNotice (message : jsstring) : jsstring :=
  js "Request failed: " ++ message.
Definition errorNotice (status : N) (errText : jsstring) : jsstring :=
  js "Error from OpenAI: " ++ decimal status ++ SP :: errText.

Definition request (st : State) (cap : N) : Request :=
  {| model := js "gpt-4o";
     messages := conversationMessages st;
     max_tokens := cap;
     temperature := js "0.8" |}.

(** The submit listener of [chatForm] up to its [await fetch(...)], lines
    211-253: the new state and the request, if one is sent. *)
Definition submitStart (inputValue : jsstring) (apiKey : option jsstring)
  (st : State) : State * option Request :=
  let text := trim inputValue in
  if negb (truthy text) then (st, None)
  else
    let st := appendChild (ChatUser text) st in
    let st := pushMessage user text st in
    if negb (truthy (orEmpty apiKey)) then
      (appendAssistantMessage noKeyNotice st, None)
    else
      let st := appendAssistantMessage (js "Thinking" ++ [8230%N]) st in
      (st, Some (request st 500)).

(** What both handlers do once [fetch] has settled, lines 255-275 and
    467-487 (the same text).  The handler does not touch the state
    between its awaits, so [st] is the state at its last resumption. *)
Definition afterFetch (settled : Awaited Response) (st : State) : State :=
  match settled with
  | Thrown message => appendAssistantMessage (requestFailedNotice message) st
  | Fulfilled resp =>
      if negb (ok resp) then
        match text resp with
        | Thrown message =>
            appendAssistantMessage (requestFailedNotice message) st
        | Fulfilled errText =>
            appendAssistantMessage (errorNotice (status resp) errText) st
        end
      else
        match json resp with
        | Thrown message =>
            appendAssistantMessage (requestFailedNotice message) st
        | Fulfilled assistantContent =>
            if truthy (orEmpty assistantContent) then
              pushMessage assistant (orEmpty assistantContent)
                (appendAssistantMessage (orEmpty assistantContent) st)
            else appendAssistantMessage noResponseNotice st
        end
  end.

(** [products.map((p, i) => `${i + 1}. ${p.name} — ${p.brand}`)] *)
Fixpoint productLines (i : N) (products : list Selection.Summary)
  : list jsstring :=
  match products with
  | [] => []
  | p :: rest =>
      (decimal (i + 1) ++ js ". " ++ Selection.name p
         ++ [SP; 8212%N; SP] ++ Selection.brand p)
      :: productLines (i + 1) rest
  end.

Definition userPrompt (products : list Selection.Summary) : jsstring :=
  js "I have the following selected products:" ++ [LF]
  ++ join [LF] (productLines 0 products) ++ [LF; LF]
  ++ js "Please create a personalized routine that uses these products where appropriate. "
  ++ js "Give step-by-step instructions (order, amount, frequency), and brief reasons for each step. "
  ++ js "If a product is not suitable for daily use, note that and suggest alternatives or frequency."
  ++ [LF; LF]
  ++ js "Return a clear, numbered routine that a user can follow.".

(** The click listener of [generateBtn] up to its [await fetch(...)],
    lines 410-465. *)
Definition generateStart (selectedProducts : Selection.SelMap)
  (apiKey : option jsstring) (st : State) : State * option Request :=
  let products := Selection.values selectedProducts in
  match products with
  | [] => (appendAssistantMessage noProductsNotice st, None)
  | _ :: _ =>
      let st :=
        appendChild (ChatUser (js "Generate routine for selected products.")) st in
      let st := pushMessage user (userPrompt products) st in
      if negb (truthy (orEmpty apiKey)) then
        (appendAssistantMessage noKeyNotice st, None)
      else
        let st :=
          appendAssistantMessage (js "Generating a personalized routine...") st in
        (st, Some (request st 700))
  end.

(** A handler run to its end with nothing else scheduled in between;
    [fetch] stands for the endpoint. *)
Definition run (start : State -> State * option Request)
  (fetch : Request -> Awaited Response) (st : State) : State :=
  match start st with
  | (st1, Some req) => afterFetch (fetch req) st1
  | (st1, None) => st1
  end.

Definition chatSubmit (inputValue : jsstring) (apiKey : option jsstring) :=
  run (submitStart inputValue apiKey).

Definition generateRoutine (selectedProducts : Selection.SelMap)
  (apiKey : option jsstring) :=
  run (generateStart selectedProducts apiKey).

End Chat.

(* ================================================================== *)
(** ** The product grid and the selected list *)

(** The handlers of lines 158-208 work on the elements that are in the
    page: the cards of [productsContainer] and the items of
    [selectedProductsListEl].  An element is modelled by what the
    handlers read and write of it. *)
Module Page.

Import Filter Selection.

(** A [div.product-card]: its [data-key], [data-name], [data-brand] and
    [data-image] as [dataset] gives them, whether it has a
    [.product-desc] child, the [aria-hidden] attribute of that child,
    and its classes [selected] and [expanded]. *)
Record Card : Type := {
  dataKey : jsstring;
  dataName : jsstring;
  dataBrand : jsstring;
  dataImage : jsstring;
  hasDesc : bool;
  ariaHidden : jsstring;
  isSelected : bool;
  isExpanded : bool
}.

(** A [div.selected-item]: its [data-key] and the product it shows. *)
Record Item : Type := {
  itemKey : jsstring;
  itemProduct : Summary
}.

(** [selectedProductsListEl] is [None] when the page has no such
    element; an empty list of items stands for the placeholder that
    [html || ...] puts there. *)
Record Page : Type := {
  selectedProducts : SelMap;
  cards : list Card;
  selectedProductsListEl : option (list Item)
}.

(** Where a click on the grid landed: [e.target.closest(".info-btn")]
    found a button or not, and the index of the card that
    [closest(".product-card")] finds, if any. *)
Record GridTarget : Type := {
  onInfoBtn : bool;
  cardAt : option nat
}.

(** Where a click on the selected list landed:
    [closest(".remove-btn")] and [closest(".selected-item")]. *)
Record ListTarget : Type := {
  onRemoveBtn : bool;
  itemAt : option nat
}.

(** [String(b)] *)
Definition stringOfBool (b : bool) : jsstring :=
  if b then js "true" else js "false".

Fixpoint setNth {A : Type} (i : nat) (x : A) (l : list A) : list A :=
  match l, i with
  | [], _ => []
  | _ :: r, O => x :: r
  | y :: r, S j => y :: setNth j x r
  end.

Definition setSelected (b : bool) (c : Card) : Card :=
  {| dataKey := dataKey c; dataName := dataName c; dataBrand := dataBrand c;
     dataImage := dataImage c; hasDesc := hasDesc c;
     ariaHidden := ariaHidden c; isSelected := b;
     isExpanded := isExpanded c |}.

(** [card.classList.toggle("expanded")] and, when the card has a
    description, [desc.setAttribute("aria-hidden", String(!expanded))]. *)
Definition toggleExpanded (c : Card) : Card :=
  let expanded := negb (isExpanded c) in
  {| dataKey := dataKey c; dataName := dataName c; dataBrand := dataBrand c;
     dataImage := dataImage c; hasDesc := hasDesc c;
     ariaHidden :=
       if hasDesc c then stringOfBool (negb expanded) else ariaHidden c;
     isSelected := isSelected c;
     isExpanded := expanded |}.

(** [productsContainer.querySelector(`.product-card[data-key="${key}"]`)]:
    the first card with that key. *)
Fixpoint querySelector (key : jsstring) (cs : list Card) : option nat :=
  match cs with
  | [] => None
  | c :: rest =>
      if strictEq (dataKey c) key then Some 0
      else match querySelector key rest with
           | Some i => Some (S i)
           | None => None
           end
  end.

(** The double quote, U+0022. *)
Definition QUOT : char := 34%N.

(** [s.replace(/\x22/g, "&quot;")] *)
Fixpoint replaceQuotes (s : jsstring) : jsstring :=
  match s with
  | [] => []
  | c :: r =>
      if (c =? QUOT)%N then js "&quot;" ++ replaceQuotes r
      else c :: replaceQuotes r
  end.

(** What [displayProducts] writes between the double quotes of the
    [data-description] attribute of a card, lines 117-120. *)
Definition descriptionAttribute (product : Product) : jsstring :=
  replaceQuotes (orEmpty (description product)).

Section WithEncode.

(** [encodeURIComponent], a built-in of the host. *)
Variable encodeURIComponent : jsstring -> jsstring.

Definition itemOf (p : Summary) : Item :=
  {| itemKey := encodeURIComponent (name p); itemProduct := p |}.

(** [updateSelectedProductsList], lines 139-156. *)
Definition updateSelectedProductsList (st : Page) : Page :=
  match selectedProductsListEl st with
  | None => st
  | Some _ =>
      {| selectedProducts := selectedProducts st;
         cards := cards st;
         selectedProductsListEl :=
           Some (map itemOf (values (selectedProducts st))) |}
  end.

(** The click listener of [productsContainer], lines 159-190. *)
Definition gridClick (e : GridTarget) (st : Page) : Page :=
  if onInfoBtn e then
    match cardAt e with
    | None => st
    | Some i =>
        match nth_error (cards st) i with
        | None => st
        | Some card =>
            {| selectedProducts := selectedProducts st;
               cards := setNth i (toggleExpanded card) (cards st);
               selectedProductsListEl := selectedProductsListEl st |}
        end
    end
  else
    match cardAt e with
    | None => st
    | Some i =>
        match nth_error (cards st) i with
        | None => st
        | Some card =>
            let key := dataKey card in
            let name := dataName card in
            let brand := dataBrand card in
            let image := dataImage card in
            if negb (truthy key) then st
            else if has key (selectedProducts st) then
              updateSelectedProductsList
                {| selectedProducts := delete key (selectedProducts st);
                   cards := setNth i (setSelected false card) (cards st);
                   selectedProductsListEl := selectedProductsListEl st |}
            else
              updateSelectedProductsList
                {| selectedProducts :=
                     set key {| Selection.name := name;
                                Selection.brand := brand;
                                Selection.image := image |}
                       (selectedProducts st);
                   cards := setNth i (setSelected true card) (cards st);
                   selectedProductsListEl := selectedProductsListEl st |}
        end
    end.

(** The click listener of [selectedProductsListEl], lines 194-207. *)
Definition listClick (e : ListTarget) (st : Page) : Page :=
  if negb (onRemoveBtn e) then st
  else
    match itemAt e, selectedProductsListEl st with
    | Some j, Some items =>
        match nth_error items j with
        | None => st
        | Some item =>
            let key := itemKey item in
            if negb (truthy key) then st
            else
              let st1 :=
                updateSelectedProductsList
                  {| selectedProducts := delete key (selectedProducts st);
                     cards := cards st;
                     selectedProductsListEl := selectedProductsListEl st |} in
              match querySelector key (cards st1) with
              | None => st1
              | Some i =>
                  match nth_error (cards st1) i with
                  | None => st1
                  | Some card =>
                      {| selectedProducts := selectedProducts st1;
                         cards := setNth i (setSelected false card) (cards st1);
                         selectedProductsListEl := selectedProductsListEl st1 |}
                  end
              end
        end
    | _, _ => st
    end.

End WithEncode.

(** [encodeURIComponent] on strings of unreserved characters (ASCII
    letters and digits and [- _ . ! ~ * ' ( )]), which it leaves as they
    are.  Used to run the handlers on concrete pages. *)
Definition encodeUnreserved (s : jsstring) : jsstring := s.

End Page.

(* ================================================================== *)
(** ** The debounce helper *)

(** [debounce], lines 74-80, with the timers of the host it relies on:
    [setTimeout] registers a callback under a fresh id, to be run once,
    at some moment not earlier than the delay asks for; [clearTimeout]
    drops the callback of an id, if it is still waiting.  Only the
    timers of the one debounced function are kept: ids are unique, so
    the other timers of the page do not touch them. *)
Module Debounce.

Section WithArgs.

(** What a call of the debounced function is given ([...args]). *)
Variable Args : Type.

(** A callback [() => fn(...args)] that waits: its timer id, the time
    from which the host may run it, the arguments it passes to [fn]. *)
Record Timer : Type := {
  timerId : nat;
  due : N;
  timerArgs : Args
}.

(** What has happened, with the time it happened at: the debounced
    function was called, or [fn] was. *)
Inductive Happened : Type :=
| Called (time : N) (args : Args)
| Invoked (time : N) (args : Args).

(** The host clock and timers, the variable [t] of the closure
    ([None] for [undefined]) and the trace, newest first. *)
Record World : Type := {
  now : N;
  waiting : list Timer;
  nextId : nat;
  t : option nat;
  trace : list Happened
}.

Definition start (time : N) : World :=
  {| now := time; waiting := []; nextId := 1; t := None; trace := [] |}.

(** [clearTimeout(t)] *)
Definition clearTimeout (id : option nat) (timers : list Timer)
  : list Timer :=
  match id with
  | None => timers
  | Some i => filter (fun tm => negb (timerId tm =? i)) timers
  end.

(** The default of the parameter [wait]. *)
Definition waitOf (wait : option N) : N :=
  match wait with Some w => w | None => 200%N end.

(** A call of the function [debounce(fn, wait)] returned:
    [clearTimeout(t); t = setTimeout(() => fn(...args), wait);] *)
Definition call (wait : option N) (args : Args) (w : World) : World :=
  let cleared := clearTimeout (t w) (waiting w) in
  let id := nextId w in
  {| now := now w;
     waiting := cleared ++ [{| timerId := id;
                               due := (now w + waitOf wait)%N;
                               timerArgs := args |}];
     nextId := S id;
     t := Some id;
     trace := Called (now w) args :: trace w |}.

(** The host runs the callback of timer [id]; nothing happens if no
    such timer waits or if it is not due yet. *)
Definition fire (id : nat) (w : World) : World :=
  match List.find (fun tm => timerId tm =? id) (waiting w) with
  | None => w
  | Some tm =>
      if (due tm <=? now w)%N then
        {| now := now w;
           waiting := filter (fun x => negb (timerId x =? id)) (waiting w);
           nextId := nextId w;
           t := t w;
           trace := Invoked (now w) (timerArgs tm) :: trace w |}
      else w
  end.

(** Time passes. *)
Definition pass (d : N) (w : World) : World :=
  {| now := (now w + d)%N; waiting := waiting w; nextId := nextId w;
     t := t w; trace := trace w |}.

Inductive Op : Type :=
| Call (args : Args)
| Fire (id : nat)
| Pass (d : N).

Definition step (wait : option N) (w : World) (op : Op) : World :=
  match op with
  | Call args => call wait args w
  | Fire id => fire id w
  | Pass d => pass d w
  end.

Definition run (wait : option N) (ops : list Op) (time : N) : World :=
  fold_left (step wait) ops (start time).

End WithArgs.

End Debounce.

(* ================================================================== *)
(** ** Vocabulary of the statements *)

Module Spec.

(** The summed length of the pieces, one more for each piece. *)
Fixpoint weight (l : list jsstring) : nat :=
  match l with
  | [] => 0
  | x :: r => S (length x) + weight r
  end.

(** A line as [linesOf] returns it: not empty, trimmed, without LF. *)
Definition clean (l : jsstring) : Prop :=
  l <> [] /\ trim l = l /\ ~ In LF l.

(** The non-empty trimmed lines of an input, after the replacement of
    CR LF by LF the function starts with. *)
Definition allLines (text : jsstring) : list jsstring :=
  linesOf (replaceCRLF text).

(** *** List items, line by line

    The text that the lines following a marker line add to its item:
    every line up to the next marker line, each after one space. *)
Fixpoint continuation (marker : regex) (lines : list jsstring) : jsstring :=
  match lines with
  | [] => []
  | l :: rest =>
      if test marker l then [] else SP :: l ++ continuation marker rest
  end.

(** One item per marker line: the line without its marker, then its
    continuation.  Lines before the first marker line give nothing. *)
Fixpoint itemsSpec (marker : regex) (lines : list jsstring)
  : list jsstring :=
  match lines with
  | [] => []
  | l :: rest =>
      if test marker l
      then (trim (strip marker l) ++ continuation marker rest)
           :: itemsSpec marker rest
      else itemsSpec marker rest
  end.

(** *** Blocks as a partition of the lines

    [itemsFrom marker g items]: the lines [g] are cut into runs, each a
    marker line followed by lines without marker, and every run is one
    item holding all of its lines. *)
Inductive itemsFrom (marker : regex)
  : list jsstring -> list jsstring -> Prop :=
| IF_nil : itemsFrom marker [] []
| IF_item m conts rest items :
    test marker m = true ->
    Forall (fun l => test marker l = false) conts ->
    itemsFrom marker rest items ->
    itemsFrom marker (m :: conts ++ rest)
      ((trim (strip marker m) ++ concat (map (cons SP) conts)) :: items).

(** The lines of a list unit that come before its first marker line.
    Without [dropping] there may be none. *)
Definition leading (dropping : bool) (marker : regex)
  (dropped : list jsstring) : Prop :=
  Forall (fun l => test marker l = false) dropped
  /\ (dropping = false -> dropped = []).

(** [blockFrom dropping g b]: block [b] is made of the lines [g], all of
    them, except that with [dropping] a list block may leave out the
    lines before its first marker line.  A list block has a first marker
    line [m]: its lines from [m] on are all in its items. *)
Inductive blockFrom (dropping : bool) : list jsstring -> Block -> Prop :=
| BF_heading l :
    test reColonEnd l = true ->
    blockFrom dropping [l] (Heading (strip reColonEnd l))
| BF_paragraph g :
    g <> [] -> blockFrom dropping g (Paragraph (join [SP] g))
| BF_ordered marker dropped m g items :
    marker = reNumbered \/ marker = reStep ->
    leading dropping marker dropped ->
    itemsFrom marker (m :: g) items ->
    blockFrom dropping (dropped ++ m :: g) (OrderedList items)
| BF_unordered dropped m g items :
    leading dropping reBullet dropped ->
    itemsFrom reBullet (m :: g) items ->
    blockFrom dropping (dropped ++ m :: g) (UnorderedList items).


(** *** The step pattern as the specification words it

    "optional whitespace, 'Step', whitespace, digits, one of ':', '.',
    ')', optional whitespace": whitespace is required after "Step". *)
Definition reStepWritten : regex :=
  {| caret := true;
     body := [Many isSpace;
              Chr (letter 115 83); Chr (letter 116 84);
              Chr (letter 101 69); Chr (letter 112 80)]
             ++ Some1 isSpace
             ++ Some1 isDigit ++ [Chr isColonDotParen; Many isSpace] |}.

(** The heading, numbered-list or bulleted-list rule takes the unit. *)
Definition earlierRule (lines : list jsstring) : bool :=
  let isNumbered := 1 <=? countMatches reNumbered lines in
  let isBullet := 1 <=? countMatches reBullet lines in
  (1 <? length lines) && test reColonEnd (hd [] lines)
  || isNumbered && negb isBullet
  || isBullet && negb isNumbered.

(** What the step rule promises for one unit, for a given reading of the
    step pattern. *)
Definition stepRule (pattern : regex) (para : jsstring) : Prop :=
  let lines := linesOf para in
  earlierRule lines = false ->
  (2 <= countMatches pattern lines ->
   unitNodes para = [OrderedList (itemsSpec pattern lines)])
  /\ (countMatches pattern lines < 2 ->
      unitNodes para = [Paragraph (join [SP] lines)]).

(** *** Plain text *)

Definition noMarker (l : jsstring) : bool :=
  negb (test reNumbered l) && negb (test reBullet l) && negb (test reStep l).

(** No blank-line separator, that is no match of [/\n\s*\n/] in the
    text the function splits (line 286: CR LF replaced and trimmed, so
    blank lines at the two ends of the input separate nothing), and no
    marker line. *)
Definition plainText (text : jsstring) : Prop :=
  search reBlank (trim (replaceCRLF text)) = None
  /\ forallb noMarker (allLines text) = true.

Definition oneParagraph (text : jsstring) : Prop :=
  parseAssistantTextToNodes text
  = Some [Paragraph (join [SP] (allLines text))].

(** "No blank-line separators and no marker lines give one paragraph of
    all the lines." *)
Definition plainTextClaim (text : jsstring) : Prop :=
  plainText text -> oneParagraph text.


(** The heading rule does not apply to the lines. *)
Definition noHeading (lines : list jsstring) : Prop :=
  (1 <? length lines) && test reColonEnd (hd [] lines) = false.

(** Every list block has an item. *)
Definition hasItem (b : Block) : Prop :=
  match b with
  | OrderedList items | UnorderedList items => items <> []
  | Heading _ | Paragraph _ => True
  end.

(** *** The filter *)

Section FilterWords.

Import Filter.

Variable toLowerCase : jsstring -> jsstring.

(** The catalog a call works on: the cache, or what loading yields when
    the cache is still empty. *)
Definition catalogOf (loadProducts : option (list Product))
  (allProducts : list Product) : option (list Product) :=
  match allProducts with
  | [] => loadProducts
  | _ :: _ => Some allProducts
  end.

(** A product passes: its category is the selected one, if one is
    selected, and the lower-cased trimmed query, if not empty, occurs in
    the lower-cased text made of name, brand and description with [sep]
    between them. *)
Definition passes (sep : jsstring) (category query : jsstring)
  (p : Product) : bool :=
  (negb (truthy category) || strictEq (Filter.category p) category)
  && (negb (truthy (trim query))
      || includes
           (toLowerCase
              (name p ++ sep ++ orEmpty (brand p)
               ++ sep ++ orEmpty (description p)))
           (toLowerCase (trim query))).

(** The filter shows exactly the products that pass, in catalog order. *)
Definition filterClaim (sep : jsstring)
  (loadProducts : option (list Product)) (allProducts : list Product)
  (category : jsstring) (query : option jsstring) : Prop :=
  applyFilters toLowerCase loadProducts allProducts category query
  = match catalogOf loadProducts allProducts with
    | Some catalog =>
        Some (catalog, filter (passes sep category (orEmpty query)) catalog)
    | None => None
    end.

End FilterWords.

(** *** The selection map *)

Definition toggleTwice (key : jsstring) (v : Selection.Summary)
  (m : Selection.SelMap) : Selection.SelMap :=
  Selection.toggle key v (Selection.toggle key v m).

(** "Two toggles restore presence, and a key that was present is at its
    old position." *)
Definition toggleTwiceClaim (key : jsstring) (v : Selection.Summary)
  (m : Selection.SelMap) : Prop :=
  NoDup (Selection.keys m) ->
  Selection.has key (toggleTwice key v m) = Selection.has key m
  /\ (Selection.has key m = true ->
      Selection.position key (Selection.keys (toggleTwice key v m))
      = Selection.position key (Selection.keys m)).

(** *** The chat handlers *)

Import Chat.

(** The two user-facing chat actions. *)
Inductive Action : Type :=
| Submit (inputValue : jsstring)
| Generate (selectedProducts : Selection.SelMap).

Definition startOf (a : Action) (apiKey : option jsstring)
  : State -> State * option Request :=
  match a with
  | Submit inputValue => submitStart inputValue apiKey
  | Generate selectedProducts => generateStart selectedProducts apiKey
  end.

(** The user message an action sends: none for a blank input and for an
    empty selection. *)
Definition userContent (a : Action) : option jsstring :=
  match a with
  | Submit inputValue =>
      if truthy (trim inputValue) then Some (trim inputValue) else None
  | Generate selectedProducts =>
      match Selection.values selectedProducts with
      | [] => None
      | p :: ps => Some (userPrompt (p :: ps))
      end
  end.

(** The reply of a settled request: the response is ok, its body parses
    and has a non-empty reply field.  [None] covers a thrown transport
    error, a non-success status, an unreadable body and an absent (or
    empty) reply field. *)
Definition replyOf (settled : Awaited Response) : option jsstring :=
  match settled with
  | Thrown _ => None
  | Fulfilled resp =>
      if ok resp then
        match json resp with
        | Fulfilled (Some c) => if truthy c then Some c else None
        | Fulfilled None => None
        | Thrown _ => None
        end
      else None
  end.

Definition turn (r : Role) (c : jsstring) : Message :=
  {| role := r; content := c |}.

(** The ways a request that was sent fails: [fetch] or the reading of
    the body threw an error with a message; the status is not a success
    and the body reads as [errText]; the body has no (or an empty) reply
    field. *)
Inductive Failure : Type :=
| TransportError (message : jsstring)
| BadStatus (status : N) (errText : jsstring)
| NoReplyField.

Definition failureOf (settled : Awaited Response) : option Failure :=
  match settled with
  | Thrown message => Some (TransportError message)
  | Fulfilled resp =>
      if ok resp then
        match json resp with
        | Fulfilled (Some c) => if truthy c then None else Some NoReplyField
        | Fulfilled None => Some NoReplyField
        | Thrown message => Some (TransportError message)
        end
      else
        match text resp with
        | Fulfilled errText => Some (BadStatus (status resp) errText)
        | Thrown message => Some (TransportError message)
        end
  end.

(** The notice of each failure, and of a missing API key. *)
Definition noticeOf (f : Failure) : jsstring :=
  match f with
  | TransportError message => js "Request failed: " ++ message
  | BadStatus status errText =>
      js "Error from OpenAI: " ++ decimal status ++ js " " ++ errText
  | NoReplyField => js "No response from the API. Try again later."
  end.

Definition missingKeyNotice : jsstring :=
  js "OpenAI API key not found. Add your key to secrets.js and reload the page.".

(** What the chat window shows for the user's part of an action, and
    while the request is under way. *)
Definition shownText (a : Action) (c : jsstring) : jsstring :=
  match a with
  | Submit _ => c
  | Generate _ => js "Generate routine for selected products."
  end.

Definition waitingText (a : Action) : jsstring :=
  match a with
  | Submit _ => js "Thinking" ++ [8230%N]
  | Generate _ => js "Generating a personalized routine..."
  end.

(** [st'] is [st] with the notice shown in one more assistant bubble,
    as the blocks the formatter makes of its text, of which there is at
    least one, and with the history as it was. *)
Definition noticeRendered (notice : jsstring) (st st' : State) : Prop :=
  conversationMessages st' = conversationMessages st
  /\ chatWindow st' = chatWindow st ++ [ChatAssistant (format notice)]
  /\ format notice <> [].

(** "Every action appends one user message." *)
Definition appendsUserMessage (a : Action) (apiKey : option jsstring)
  (st : State) : Prop :=
  exists c,
    conversationMessages (fst (startOf a apiKey st))
    = conversationMessages st ++ [turn user c].

End Spec.
Export Spec.

(* ================================================================== *)
(** ** Vocabulary of the further statements *)

Module More.

(** The markers as texts, what the three marker patterns match at the
    start of a trimmed line: digits, a dot or parenthesis, white space;
    a bullet character, white space; "Step" in any case, optional white
    space, digits, a colon, dot or parenthesis, optional white space. *)
Definition numeralMarker (mk : jsstring) : Prop :=
  exists ds p ws,
    mk = ds ++ p :: ws
    /\ ds <> [] /\ forallb isDigit ds = true
    /\ isDotParen p = true
    /\ ws <> [] /\ forallb isSpace ws = true.

Definition bulletMarker (mk : jsstring) : Prop :=
  exists b ws,
    mk = b :: ws
    /\ isBulletChar b = true
    /\ ws <> [] /\ forallb isSpace ws = true.

Definition stepMarker (mk : jsstring) : Prop :=
  exists s t e p ws1 ds c ws2,
    mk = s :: t :: e :: p :: ws1 ++ ds ++ c :: ws2
    /\ letter 115 83 s = true /\ letter 116 84 t = true
    /\ letter 101 69 e = true /\ letter 112 80 p = true
    /\ forallb isSpace ws1 = true
    /\ ds <> [] /\ forallb isDigit ds = true
    /\ isColonDotParen c = true
    /\ forallb isSpace ws2 = true.

(** The texts a block shows: the text of a heading or paragraph, the
    items of a list. *)
Definition blockTexts (b : Block) : list jsstring :=
  match b with
  | Heading text | Paragraph text => [text]
  | OrderedList items | UnorderedList items => items
  end.

(** *** The formatter on lines

    The algorithm without regular-expression splitting and without
    recursion on texts: the trimmed lines of the input are cut into
    runs of non-empty lines, and each run is classified. *)

(** A finished run, if it has a line. *)
Definition closeRun (cur : list jsstring) : list (list jsstring) :=
  match cur with [] => [] | _ :: _ => [cur] end.

(** The maximal runs of non-empty strings; [cur] is the run under
    way. *)
Fixpoint runsFrom (cur : list jsstring) (ls : list jsstring)
  : list (list jsstring) :=
  match ls with
  | [] => closeRun cur
  | l :: rest =>
      if truthy l then runsFrom (cur ++ [l]) rest
      else closeRun cur ++ runsFrom [] rest
  end.

Definition lineRuns (text : jsstring) : list (list jsstring) :=
  runsFrom [] (map trim (splitOn LF text)).

(** The blocks of one run of lines: headings for the leading lines that
    end with a colon and have a line below, then the classification of
    what is left. *)
Fixpoint linesNodes (lines : list jsstring) : list Block :=
  match lines with
  | l0 :: (_ :: _) as rest =>
      if test reColonEnd l0
      then Heading (strip reColonEnd l0) :: linesNodes rest
      else plainNodes lines
  | _ => plainNodes lines
  end.

(** *** The depth of the recursion

    The nested calls the lines of one unit cause: one for every leading
    line that ends with a colon and has a line below it. *)
Fixpoint headings (lines : list jsstring) : nat :=
  match lines with
  | l0 :: (_ :: _) as rest =>
      if test reColonEnd l0 then S (headings rest) else 0
  | _ => 0
  end.

(** The deepest nesting among the units of a text. *)
Definition nesting (text : jsstring) : nat :=
  list_max (map headings (lineRuns text)).

(** "The function never raises", on a host whose stack has room for
    [frames] nested calls of it. *)
Definition neverRaises (frames : nat) : Prop :=
  forall text, exists nodes, parse frames text = Some nodes.

(** [n] lines "a:" above a line "x". *)
Definition deep (n : nat) : jsstring :=
  join [LF] (repeat (js "a:") n ++ [js "x"]).

(** The strings of [ls] that are neither its first nor its last are not
    empty. *)
Definition innerFull (ls : list jsstring) : Prop :=
  forall pre m post, ls = pre ++ m :: post -> pre <> [] -> post <> [] ->
                     truthy m = true.

(** No match of [/\n\s*\n/] starts in [p] when [tail] follows it. *)
Definition noBlankIn (p tail : jsstring) : Prop :=
  forall a b, p = a ++ b -> b <> [] -> exec reBlank (b ++ tail) = None.

(** What a unit of one line becomes. *)
Definition oneLineNodes (l : jsstring) : list Block :=
  if test reNumbered l then [OrderedList [strip reNumbered l]]
  else if test reBullet l then [UnorderedList [strip reBullet l]]
  else [Paragraph l].

(** *** Clicks on the selection map

    What the two listeners do to [selectedProducts]: a click on a card
    (lines 171-187) and a click on a remove button (lines 199-201). *)
Inductive SelEvent : Type :=
| Clicked (key : jsstring) (v : Selection.Summary)
| Removed (key : jsstring).

Definition selStep (m : Selection.SelMap) (e : SelEvent) : Selection.SelMap :=
  match e with
  | Clicked key v => Selection.toggle key v m
  | Removed key => if negb (truthy key) then m else Selection.delete key m
  end.

(** The map after a sequence of clicks on a fresh page. *)
Definition selRun (events : list SelEvent) : Selection.SelMap :=
  fold_left selStep events [].

(** *** Chat sessions

    The handlers are asynchronous: between the start of an action and
    the moment its request settles, other actions may start and other
    requests may settle.  A session is the chat state with the number of
    requests in flight, and its events come in any order. *)
Record Session : Type := {
  state : Chat.State;
  inFlight : nat
}.

Inductive ChatEvent : Type :=
| Acted (a : Action) (apiKey : option jsstring)
| Settled (outcome : Chat.Awaited Chat.Response).

(** A request can only settle when one is in flight. *)
Definition chatStep (s : Session) (e : ChatEvent) : Session :=
  match e with
  | Acted a apiKey =>
      match startOf a apiKey (state s) with
      | (st, Some _) => {| state := st; inFlight := S (inFlight s) |}
      | (st, None) => {| state := st; inFlight := inFlight s |}
      end
  | Settled outcome =>
      match inFlight s with
      | O => s
      | S n => {| state := Chat.afterFetch outcome (state s); inFlight := n |}
      end
  end.

Definition chatRun (events : list ChatEvent) : Session :=
  fold_left chatStep events {| state := Chat.initialState; inFlight := 0 |}.

Definition hasRole (r : Chat.Role) (m : Chat.Message) : bool :=
  match Chat.role m, r with
  | Chat.system, Chat.system => true
  | Chat.user, Chat.user => true
  | Chat.assistant, Chat.assistant => true
  | _, _ => false
  end.

Definition countRole (r : Chat.Role) (msgs : list Chat.Message) : nat :=
  length (filter (hasRole r) msgs).

(** The history starts with the system prompt, the only system message,
    and has at least as many user messages as assistant messages and
    requests in flight together. *)
Definition sessionInv (s : Session) : Prop :=
  exists rest,
    Chat.conversationMessages (state s)
    = turn Chat.system Chat.systemPrompt :: rest
    /\ countRole Chat.system rest = 0
    /\ countRole Chat.assistant rest + inFlight s <= countRole Chat.user rest.

(** Actions run one after the other, each to its end before the next
    starts; every action comes with the key and the endpoint of its
    time. *)
Definition seqStep (st : Chat.State)
  (x : Action * option jsstring * (Chat.Request -> Chat.Awaited Chat.Response))
  : Chat.State :=
  match x with
  | (a, apiKey, fetch) => Chat.run (startOf a apiKey) fetch st
  end.

Definition seqRun
  (xs : list (Action * option jsstring
              * (Chat.Request -> Chat.Awaited Chat.Response)))
  : Chat.State :=
  fold_left seqStep xs Chat.initialState.

(** Every assistant message comes directly after a user message. *)
Fixpoint answersUser (previous : Chat.Role) (msgs : list Chat.Message)
  : bool :=
  match msgs with
  | [] => true
  | m :: rest =>
      match Chat.role m, previous with
      | Chat.assistant, Chat.user => answersUser (Chat.role m) rest
      | Chat.assistant, _ => false
      | _, _ => answersUser (Chat.role m) rest
      end
  end.

(** The role of the last message, [previous] when there is none. *)
Fixpoint lastRole (previous : Chat.Role) (msgs : list Chat.Message)
  : Chat.Role :=
  match msgs with
  | [] => previous
  | m :: rest => lastRole (Chat.role m) rest
  end.

(** *** Debounced traces

    In a trace, newest first, every invocation of [fn] comes right
    after a call, passes the arguments of that call, and happens at
    least [wait] later. *)
Fixpoint debounced {Args : Type} (wait : N)
  (trace : list (Debounce.Happened Args)) : Prop :=
  match trace with
  | [] => True
  | Debounce.Called _ _ :: older => debounced wait older
  | Debounce.Invoked time args :: older =>
      match older with
      | Debounce.Called called args' :: _ =>
          args' = args /\ (called + wait <= time)%N /\ debounced wait older
      | _ => False
      end
  end.

(** At most one callback waits: the one of the latest call, under the
    id that [t] holds, due [wait] after that call. *)
Definition oneTimer {Args : Type} (wait : N) (w : Debounce.World Args)
  : Prop :=
  Debounce.waiting w = []
  \/ exists id called args older,
      Debounce.waiting w
      = [{| Debounce.timerId := id; Debounce.due := (called + wait)%N;
            Debounce.timerArgs := args |}]
      /\ Debounce.t w = Some id
      /\ Debounce.trace w = Debounce.Called called args :: older
      /\ (called <= Debounce.now w)%N.

(** *** The page *)

Section PageWords.

Import Selection Page.

Variable encodeURIComponent : jsstring -> jsstring.

(** The cards have different keys, each the encoding of the card's
    name, as [displayProducts] writes them for products with different
    names. *)
Definition gridOk (st : Page) : Prop :=
  NoDup (map dataKey (cards st))
  /\ Forall (fun c => dataKey c = encodeURIComponent (dataName c)) (cards st).

(** No key twice in the map; every key is not empty and is the encoding
    of the name stored under it. *)
Definition entriesOk (st : Page) : Prop :=
  NoDup (keys (selectedProducts st))
  /\ Forall (fun e => fst e = encodeURIComponent (name (snd e))
                      /\ truthy (fst e) = true)
       (selectedProducts st).

(** A card has the class [selected] exactly when its key is in the
    map. *)
Definition marked (st : Page) : Prop :=
  Forall (fun c => isSelected c = has (dataKey c) (selectedProducts st))
    (cards st).

(** The selected list shows the values of the map, in order. *)
Definition synced (st : Page) : Prop :=
  forall items,
    selectedProductsListEl st = Some items ->
    items = map (itemOf encodeURIComponent) (values (selectedProducts st)).

Definition pageInv (st : Page) : Prop :=
  gridOk st /\ entriesOk st /\ marked st /\ synced st.

End PageWords.

End More.
Export More.

(* ================================================================== *)
(** * Properties *)

Unset Implicit Arguments.

(** ** Strings *)

Module JsFacts.

Lemma trimStart_split (s : jsstring) :
  exists w, s = w ++ trimStart s /\ forallb isSpace w = true.
Proof.
  induction s as [|c r [w [E W]]]; simpl.
  - exists []; auto.
  - destruct (isSpace c) eqn:C.
    + exists (c :: w). simpl. rewrite C, W. split; [now f_equal | reflexivity].
    + exists []. auto.
Qed.

Lemma trimEnd_split (s : jsstring) :
  exists w, s = trimEnd s ++ w /\ forallb isSpace w = true.
Proof.
  unfold trimEnd. destruct (trimStart_split (rev s)) as [w [E W]].
  exists (rev w). split.
  - rewrite <- (rev_involutive s) at 1. rewrite E at 1. apply rev_app_distr.
  - rewrite forallb_forall in *. intros x Hx. apply W. now apply in_rev.
Qed.

Lemma trim_split (s : jsstring) :
  exists a b, s = a ++ trim s ++ b
              /\ forallb isSpace a = true /\ forallb isSpace b = true.
Proof.
  destruct (trimStart_split s) as [a [Ea Wa]].
  destruct (trimEnd_split (trimStart s)) as [b [Eb Wb]].
  exists a, b. unfold trim. rewrite <- Eb. auto.
Qed.

Lemma trim_length (s : jsstring) : length (trim s) <= length s.
Proof.
  destruct (trim_split s) as [a [b [E _]]].
  rewrite E at 2. rewrite !length_app. lia.
Qed.

Lemma trimStart_head (s : jsstring) c r :
  trimStart s = c :: r -> isSpace c = false.
Proof.
  induction s as [|d s IH]; simpl; [discriminate|].
  destruct (isSpace d) eqn:D; auto. intros [= -> _]. exact D.
Qed.

Lemma trimStart_nospace c r : isSpace c = false -> trimStart (c :: r) = c :: r.
Proof. intros H. simpl. now rewrite H. Qed.

Lemma trimStart_allspace w :
  forallb isSpace w = true -> trimStart w = [].
Proof.
  induction w as [|c w IH]; simpl; auto.
  destruct (isSpace c); simpl; auto. discriminate.
Qed.

Lemma trimStart_app_space w s :
  forallb isSpace w = true -> trimStart (w ++ s) = trimStart s.
Proof.
  induction w as [|c w IH]; simpl; auto.
  destruct (isSpace c); simpl; auto. discriminate.
Qed.

Lemma trimStart_idem s : trimStart (trimStart s) = trimStart s.
Proof.
  destruct (trimStart s) as [|c r] eqn:E; auto.
  apply trimStart_nospace. eapply trimStart_head; eauto.
Qed.

Lemma trimEnd_app_space s w :
  forallb isSpace w = true -> trimEnd (s ++ w) = trimEnd s.
Proof.
  intros W. unfold trimEnd. rewrite rev_app_distr.
  rewrite trimStart_app_space; auto.
  rewrite forallb_forall in *. intros x Hx. apply W. now apply in_rev.
Qed.

(** A string with a non-space character keeps it under [trimStart]. *)
Lemma trimStart_app_keep s t :
  trimStart s <> [] -> trimStart (s ++ t) = trimStart s ++ t.
Proof.
  induction s as [|c s IH]; simpl; [congruence|].
  destruct (isSpace c); auto.
Qed.

Lemma trimStart_nil_allspace s :
  trimStart s = [] -> forallb isSpace s = true.
Proof.
  induction s as [|c s IH]; simpl; auto.
  destruct (isSpace c); simpl; auto. discriminate.
Qed.

Lemma trim_app_space s w :
  forallb isSpace w = true -> trim (s ++ w) = trim s.
Proof.
  intros W. unfold trim.
  destruct (trimStart s) as [|c r] eqn:E.
  - apply trimStart_nil_allspace in E.
    rewrite trimStart_allspace; auto.
    rewrite forallb_app, E, W. reflexivity.
  - rewrite trimStart_app_keep by congruence.
    rewrite E. now apply trimEnd_app_space.
Qed.

Lemma trim_space_app w s :
  forallb isSpace w = true -> trim (w ++ s) = trim s.
Proof. intros W. unfold trim. now rewrite trimStart_app_space. Qed.

Lemma trim_allspace w : forallb isSpace w = true -> trim w = [].
Proof.
  intros W. unfold trim. now rewrite trimStart_allspace.
Qed.

Lemma replaceCRLF_length (s : jsstring) :
  length (replaceCRLF s) <= length s.
Proof.
  assert (H : forall n s, length s <= n -> length (replaceCRLF s) <= length s).
  { induction n as [|n IH]; intros [|c [|d r]] L; simpl in *; try lia.
    destruct ((c =? CR)%N && (d =? LF)%N).
    - simpl. specialize (IH r). lia.
    - simpl. specialize (IH (d :: r)). simpl in IH. lia. }
  eauto.
Qed.


Lemma trim_idem s : trim (trim s) = trim s.
Proof.
  unfold trim. set (y := trimStart s).
  assert (Y : trimStart y = y) by apply trimStart_idem.
  assert (T : trimStart (trimEnd y) = trimEnd y).
  { destruct (trimEnd_split y) as [w [E _]].
    destruct (trimEnd y) as [|c r]; auto.
    apply trimStart_nospace. eapply trimStart_head. rewrite Y, E. reflexivity. }
  rewrite T. unfold trimEnd. rewrite rev_involutive, trimStart_idem. reflexivity.
Qed.

Lemma trim_notin c s : ~ In c s -> ~ In c (trim s).
Proof.
  intros H I. apply H. destruct (trim_split s) as [a [b [E _]]].
  rewrite E. apply in_or_app. right. apply in_or_app. now left.
Qed.

(** *** [split] on a character *)

Lemma splitOn_cons_sep sep s : splitOn sep (sep :: s) = [] :: splitOn sep s.
Proof. simpl. now rewrite N.eqb_refl. Qed.

Lemma splitOn_cons (sep c : char) s :
  c <> sep ->
  splitOn sep (c :: s) = (c :: hd [] (splitOn sep s)) :: tl (splitOn sep s).
Proof.
  intros H. simpl. apply N.eqb_neq in H. rewrite H.
  destruct (splitOn sep s) as [|p ps]; reflexivity.
Qed.

Lemma splitOn_not_nil sep s : splitOn sep s <> [].
Proof.
  destruct s as [|c s]; simpl; [discriminate|].
  destruct (c =? sep)%N; [discriminate|]. destruct (splitOn sep s); discriminate.
Qed.

Lemma splitOn_app_sep sep a b :
  splitOn sep (a ++ sep :: b) = splitOn sep a ++ splitOn sep b.
Proof.
  induction a as [|c a IH].
  - simpl. now rewrite N.eqb_refl.
  - change ((c :: a) ++ sep :: b) with (c :: (a ++ sep :: b)).
    destruct (N.eq_dec c sep) as [->|D].
    + rewrite !splitOn_cons_sep, IH. reflexivity.
    + rewrite !splitOn_cons, IH by assumption.
      pose proof (splitOn_not_nil sep a).
      destruct (splitOn sep a); [congruence|reflexivity].
Qed.

Lemma splitOn_nosep sep s : ~ In sep s -> splitOn sep s = [s].
Proof.
  induction s as [|c s IH]; intros H; auto.
  rewrite splitOn_cons, IH; simpl in *; intuition.
Qed.

Lemma splitOn_snoc (sep c : char) s :
  c <> sep ->
  exists ps q, splitOn sep s = ps ++ [q]
               /\ splitOn sep (s ++ [c]) = ps ++ [q ++ [c]].
Proof.
  intros D. induction s as [|d s (ps & q & E1 & E2)].
  - exists [], []. simpl. apply N.eqb_neq in D. now rewrite D.
  - change ((d :: s) ++ [c]) with (d :: (s ++ [c])).
    destruct (N.eq_dec d sep) as [->|D'].
    + exists ([] :: ps), q. rewrite !splitOn_cons_sep, E1, E2. auto.
    + rewrite !splitOn_cons, E1, E2 by assumption.
      destruct ps as [|p ps]; simpl.
      * exists [], (d :: q). auto.
      * exists ((d :: p) :: ps), q. auto.
Qed.

Lemma splitOn_pieces sep s : Forall (fun p => ~ In sep p) (splitOn sep s).
Proof.
  induction s as [|c s IH].
  - repeat constructor. auto.
  - destruct (N.eq_dec c sep) as [->|D].
    + rewrite splitOn_cons_sep. constructor; auto.
    + rewrite splitOn_cons by assumption.
      pose proof (splitOn_not_nil sep s).
      destruct (splitOn sep s) as [|p ps]; [congruence|]. simpl.
      inversion IH; subst. constructor; auto.
      simpl. intros [->|I]; auto.
Qed.

Lemma splitOn_allspace sep w :
  forallb isSpace w = true -> Forall (fun p => forallb isSpace p = true) (splitOn sep w).
Proof.
  induction w as [|c w IH]; simpl; intros W.
  - repeat constructor.
  - apply andb_prop in W. destruct W as [C W]. specialize (IH W).
    destruct (c =? sep)%N.
    + constructor; auto.
    + destruct (splitOn sep w) as [|p ps].
      * repeat constructor. simpl. now rewrite C.
      * inversion IH; subst. constructor; auto. simpl. now rewrite C.
Qed.

Lemma weight_splitOn sep s : weight (splitOn sep s) = S (length s).
Proof.
  induction s as [|c s IH]; simpl; auto.
  destruct (c =? sep)%N; simpl; [lia|].
  destruct (splitOn sep s); simpl in *; lia.
Qed.

Lemma weight_map_trim l : weight (map trim l) <= weight l.
Proof.
  induction l as [|x l IH]; simpl; auto.
  pose proof (trim_length x). lia.
Qed.

Lemma weight_filter f l : weight (filter f l) <= weight l.
Proof.
  induction l as [|x l IH]; simpl; auto.
  destruct (f x); simpl; lia.
Qed.

Lemma join1_weight c l : l <> [] -> S (length (join [c] l)) = weight l.
Proof.
  induction l as [|x r IH]; [congruence|]. intros _.
  destruct r as [|y r'].
  - simpl. lia.
  - change (join [c] (x :: y :: r')) with (x ++ [c] ++ join [c] (y :: r')).
    change (weight (x :: y :: r')) with (S (length x) + weight (y :: r')).
    rewrite <- IH by discriminate. rewrite !length_app. simpl. lia.
Qed.

Lemma join1_length c l : length (join [c] l) <= weight l.
Proof.
  destruct l as [|x r]; [simpl; lia|].
  pose proof (@join1_weight c (x :: r) ltac:(discriminate)). lia.
Qed.

End JsFacts.

(** ** Regular expressions *)

Module RegexFacts.

Import JsFacts.

Lemma exec_chr_cons p re c r :
  exec (Chr p :: re) (c :: r) = if p c then exec re r else None.
Proof. reflexivity. Qed.

Lemma exec_many_nil p re : exec (Many p :: re) [] = exec re [].
Proof. reflexivity. Qed.

Lemma exec_many_cons p re c r :
  exec (Many p :: re) (c :: r) =
  if p c then
    match exec (Many p :: re) r with
    | Some rest => Some rest
    | None => exec re (c :: r)
    end
  else exec re (c :: r).
Proof. reflexivity. Qed.

(** What a greedy star followed by [re] has matched when it succeeds. *)
Lemma exec_many p re s rest :
  exec (Many p :: re) s = Some rest ->
  exists w s', s = w ++ s' /\ forallb p w = true /\ exec re s' = Some rest.
Proof.
  induction s as [|c r IH].
  - intros H. exists [], []. auto.
  - rewrite exec_many_cons. destruct (p c) eqn:P.
    + destruct (exec (Many p :: re) r) as [x|] eqn:M.
      * intros [= ->]. destruct (IH eq_refl) as (w & s' & -> & W & E).
        exists (c :: w), s'. simpl. rewrite P, W. auto.
      * intros H. exists [], (c :: r). auto.
    + intros H. exists [], (c :: r). auto.
Qed.

Lemma exec_reBlank s rest :
  exec reBlank s = Some rest ->
  exists w, s = LF :: w ++ LF :: rest /\ forallb isSpace w = true.
Proof.
  destruct s as [|c r]; [discriminate|].
  unfold reBlank. rewrite exec_chr_cons. unfold isChar at 1.
  destruct (c =? LF)%N eqn:C; [|discriminate].
  apply N.eqb_eq in C. subst c. intros H.
  apply exec_many in H. destruct H as (w & s' & -> & W & E).
  destruct s' as [|d s']; [discriminate|]. rewrite exec_chr_cons in E.
  unfold isChar in E. destruct (d =? LF)%N eqn:D; [|discriminate].
  apply N.eqb_eq in D. injection E as ->. subst d. eauto.
Qed.

Lemma search_split re s pre rest :
  search re s = Some (pre, rest) ->
  exists m, s = pre ++ m /\ exec re m = Some rest.
Proof.
  revert pre. induction s as [|c r IH]; intros pre; simpl.
  - destruct (exec re []) eqn:E; [|discriminate].
    intros [= <- <-]. exists []. auto.
  - destruct (exec re (c :: r)) eqn:E.
    + intros [= <- <-]. exists (c :: r). auto.
    + destruct (search re r) as [[pre' rest']|]; [|discriminate].
      intros [= <- <-]. destruct (IH _ eq_refl) as (m & -> & M).
      exists m. auto.
Qed.

Lemma search_none_cons re c r :
  search re (c :: r) = None -> exec re (c :: r) = None /\ search re r = None.
Proof.
  simpl. destruct (exec re (c :: r)); [discriminate|].
  destruct (search re r) as [[? ?]|]; [discriminate|]. auto.
Qed.

(** A line that [/:\s*$/] matches ends with a colon and spaces, and
    [strip] removes exactly those. *)
Lemma reColonEnd_match l :
  test reColonEnd l = true ->
  exists w, l = strip reColonEnd l ++ 58%N :: w /\ forallb isSpace w = true.
Proof.
  unfold test, strip, find. cbn [caret body reColonEnd].
  destruct (search _ l) as [[pre rest]|] eqn:S; [|discriminate]. intros _.
  apply search_split in S. destruct S as (m & -> & M).
  destruct m as [|c m]; [discriminate|]. rewrite exec_chr_cons in M.
  unfold isChar at 1 in M.
  destruct (c =? 58)%N eqn:C; [|discriminate]. apply N.eqb_eq in C. subst c.
  apply exec_many in M. destruct M as (w & s' & -> & W & E).
  destruct s'; [|discriminate]. cbn in E. injection E as <-.
  exists w. rewrite !app_nil_r. auto.
Qed.

Lemma splitGo_skip w s cur :
  splitGo (length w) (w ++ s) cur = splitGo 0 s cur.
Proof. induction w as [|c w IH]; simpl; auto. Qed.

Lemma splitGo_found c r rest cur :
  exec reBlank (c :: r) = Some rest ->
  splitGo 0 (c :: r) cur = rev cur :: splitGo 0 rest [].
Proof.
  intros E. cbn [splitGo]. rewrite E.
  apply exec_reBlank in E. destruct E as (w & [= -> ->] & _).
  replace (length (w ++ LF :: rest) - length rest) with (length (w ++ [LF]))
    by (rewrite !length_app; simpl; lia).
  replace (w ++ LF :: rest) with ((w ++ [LF]) ++ rest)
    by (rewrite <- app_assoc; reflexivity).
  now rewrite splitGo_skip.
Qed.

Lemma splitGo_lengths s : forall skip cur,
  Forall (fun p => length p <= length cur + length s) (splitGo skip s cur).
Proof.
  induction s as [|c r IH]; intros skip cur; cbn [splitGo].
  - repeat constructor. rewrite length_rev. lia.
  - destruct skip as [|k].
    + destruct (exec reBlank (c :: r)).
      * constructor; [rewrite length_rev; lia|].
        eapply Forall_impl; [|apply IH]. simpl. intros; lia.
      * eapply Forall_impl; [|apply IH]. simpl. intros; lia.
    + eapply Forall_impl; [|apply IH]. simpl. intros; lia.
Qed.

Lemma splitBlank_none s :
  search reBlank s = None -> forall cur, splitGo 0 s cur = [rev cur ++ s].
Proof.
  induction s as [|c r IH]; intros N cur.
  - simpl. now rewrite app_nil_r.
  - apply search_none_cons in N. destruct N as [E N].
    cbn [splitGo]. rewrite E, IH by assumption. simpl.
    now rewrite <- app_assoc.
Qed.


Lemma exec_many_complete p re w : forall s rest,
  forallb p w = true -> exec re s = Some rest ->
  exists rest', exec (Many p :: re) (w ++ s) = Some rest'.
Proof.
  induction w as [|c w IH]; intros s rest W E.
  - change ([] ++ s) with s.
    destruct s as [|c s]; [rewrite exec_many_nil|rewrite exec_many_cons]; eauto.
    destruct (p c); eauto. destruct (exec (Many p :: re) s); eauto.
  - simpl in W. apply andb_prop in W. destruct W as [C W].
    simpl app. rewrite exec_many_cons, C.
    destruct (IH s rest W E) as [r ->]. eauto.
Qed.

Lemma exec_reBlank_complete w rest :
  forallb isSpace w = true ->
  exists rest', exec reBlank (LF :: w ++ LF :: rest) = Some rest'.
Proof.
  intros W. unfold reBlank. rewrite exec_chr_cons. unfold isChar at 1.
  rewrite N.eqb_refl. apply (exec_many_complete _ _ w _ rest W).
  rewrite exec_chr_cons. unfold isChar. now rewrite N.eqb_refl.
Qed.

Lemma search_found re m rest : exec re m = Some rest ->
  forall pre, search re (pre ++ m) <> None.
Proof.
  intros E pre. induction pre as [|c pre IH]; simpl.
  - destruct m; simpl; rewrite E; discriminate.
  - destruct (exec re (c :: pre ++ m)); [discriminate|].
    destruct (search re (pre ++ m)) as [[? ?]|]; [discriminate|congruence].
Qed.

(** A text without blank-line separator has none in its parts. *)
Lemma search_reBlank_infix a t b :
  search reBlank (a ++ t ++ b) = None -> search reBlank t = None.
Proof.
  intros N. destruct (search reBlank t) as [[pre rest]|] eqn:S; auto.
  exfalso. apply search_split in S. destruct S as (m & -> & M).
  apply exec_reBlank in M. destruct M as (w & -> & W).
  destruct (exec_reBlank_complete w (rest ++ b) W) as [r E].
  apply (search_found _ _ _ E (a ++ pre)).
  rewrite <- N. f_equal. rewrite <- !app_assoc. simpl.
  now rewrite <- !app_assoc.
Qed.

End RegexFacts.

(** ** The formatter: lines and paragraphs *)

Module LineFacts.

Import JsFacts RegexFacts.

Lemma linesOf_app_LF a b : linesOf (a ++ LF :: b) = linesOf a ++ linesOf b.
Proof.
  unfold linesOf. now rewrite splitOn_app_sep, map_app, filter_app.
Qed.

Lemma linesOf_allspace w : forallb isSpace w = true -> linesOf w = [].
Proof.
  intros W. unfold linesOf.
  induction (splitOn_allspace LF w W) as [|p ps P _ IH]; simpl; auto.
  now rewrite trim_allspace.
Qed.

Lemma linesOf_cons_space c s : isSpace c = true -> linesOf (c :: s) = linesOf s.
Proof.
  intros C. destruct (N.eq_dec c LF) as [->|D].
  - apply (linesOf_app_LF [] s).
  - unfold linesOf. rewrite splitOn_cons by assumption.
    pose proof (splitOn_not_nil LF s).
    destruct (splitOn LF s) as [|p ps]; [congruence|]. simpl.
    change (c :: p) with ([c] ++ p).
    rewrite trim_space_app; auto. simpl. now rewrite C.
Qed.

Lemma linesOf_space_app w s :
  forallb isSpace w = true -> linesOf (w ++ s) = linesOf s.
Proof.
  induction w as [|c w IH]; simpl; auto. intros W.
  apply andb_prop in W. destruct W as [C W].
  rewrite linesOf_cons_space; auto.
Qed.

Lemma linesOf_snoc_space s c : isSpace c = true -> linesOf (s ++ [c]) = linesOf s.
Proof.
  intros C. destruct (N.eq_dec c LF) as [->|D].
  - rewrite linesOf_app_LF. apply app_nil_r.
  - destruct (splitOn_snoc LF c s D) as (ps & q & E1 & E2).
    unfold linesOf. rewrite E1, E2, !map_app. simpl.
    rewrite trim_app_space; auto. simpl. now rewrite C.
Qed.

Lemma linesOf_app_space s w :
  forallb isSpace w = true -> linesOf (s ++ w) = linesOf s.
Proof.
  induction w as [|c w IH] using rev_ind; intros W.
  - now rewrite app_nil_r.
  - rewrite forallb_app in W. apply andb_prop in W. destruct W as [W C].
    simpl in C. rewrite andb_true_r in C.
    rewrite app_assoc, linesOf_snoc_space; auto.
Qed.

Lemma linesOf_trim s : linesOf (trim s) = linesOf s.
Proof.
  destruct (trim_split s) as (a & b & E & A & B).
  rewrite E at 2. rewrite linesOf_space_app, linesOf_app_space; auto.
Qed.

(** Turning CR LF into LF only removes a CR at the end of a line. *)
Lemma splitOn_replaceCRLF n : forall s, length s <= n ->
  exists p ps p' ps',
    splitOn LF s = p :: ps /\ splitOn LF (replaceCRLF s) = p' :: ps'
    /\ (p = p' \/ p = p' ++ [CR]) /\ map trim ps = map trim ps'.
Proof.
  induction n as [|n IH]; intros s L.
  - destruct s; [|simpl in L; lia]. exists [], [], [], []. simpl. auto.
  - destruct s as [|c r]. { exists [], [], [], []. simpl. auto. }
    assert (step : forall y, (exists p ps p' ps',
              splitOn LF r = p :: ps /\ splitOn LF y = p' :: ps'
              /\ (p = p' \/ p = p' ++ [CR]) /\ map trim ps = map trim ps') ->
            exists p ps p' ps',
              splitOn LF (c :: r) = p :: ps /\ splitOn LF (c :: y) = p' :: ps'
              /\ (p = p' \/ p = p' ++ [CR]) /\ map trim ps = map trim ps').
    { intros y (p & ps & p' & ps' & E1 & E2 & P & T).
      destruct (N.eq_dec c LF) as [->|D].
      - rewrite !splitOn_cons_sep, E1, E2. exists [], (p :: ps), [], (p' :: ps').
        repeat split; auto. simpl. f_equal; auto.
        destruct P as [->| ->]; auto. apply trim_app_space. reflexivity.
      - rewrite !splitOn_cons, E1, E2 by assumption. simpl.
        exists (c :: p), ps, (c :: p'), ps'. repeat split; auto.
        destruct P as [->| ->]; auto. }
    destruct r as [|d r'].
    { apply (step []). exists [], [], [], []. simpl. auto. }
    simpl replaceCRLF. destruct ((c =? CR)%N && (d =? LF)%N) eqn:B.
    + apply andb_prop in B. destruct B as [C D].
      apply N.eqb_eq in C, D. subst c d.
      destruct (IH r') as (p & ps & p' & ps' & E1 & E2 & P & T).
      { simpl in L. lia. }
      rewrite (@splitOn_cons LF CR (LF :: r')) by discriminate.
      rewrite !splitOn_cons_sep, E1, E2. simpl.
      exists [CR], (p :: ps), [], (p' :: ps'). repeat split; auto.
      simpl. f_equal; auto.
      destruct P as [->| ->]; auto. apply trim_app_space. reflexivity.
    + apply step. apply IH. simpl in L. simpl. lia.
Qed.

Lemma linesOf_replaceCRLF s : linesOf (replaceCRLF s) = linesOf s.
Proof.
  destruct (@splitOn_replaceCRLF (length s) s (le_n _))
    as (p & ps & p' & ps' & E1 & E2 & P & T).
  unfold linesOf. rewrite E1, E2. simpl. rewrite T.
  destruct P as [->| ->]; auto. rewrite trim_app_space; auto.
Qed.

Lemma linesOf_clean para : Forall clean (linesOf para).
Proof.
  unfold linesOf. apply Forall_forall. intros l I.
  apply filter_In in I. destruct I as [I T].
  apply in_map_iff in I. destruct I as (p & <- & I).
  repeat split.
  - destruct (trim p); [discriminate|congruence].
  - apply trim_idem.
  - apply trim_notin.
    exact (proj1 (Forall_forall _ _) (splitOn_pieces LF para) p I).
Qed.

Lemma linesOf_one l : clean l -> linesOf l = [l].
Proof.
  intros (N & T & L). unfold linesOf. rewrite splitOn_nosep by assumption.
  simpl. rewrite T. destruct l; [congruence|reflexivity].
Qed.

Lemma linesOf_join ls : Forall clean ls -> linesOf (join [LF] ls) = ls.
Proof.
  induction 1 as [|l ls C _ IH]; auto.
  destruct ls as [|l2 ls].
  - now apply linesOf_one.
  - change (join [LF] (l :: l2 :: ls)) with (l ++ LF :: join [LF] (l2 :: ls)).
    rewrite linesOf_app_LF, IH, linesOf_one; auto.
Qed.

(** The lines of the paragraphs, in order, are the lines of the text. *)
Lemma splitGo_lines n : forall s cur, length s <= n ->
  concat (map linesOf (splitGo 0 s cur)) = linesOf (rev cur ++ s).
Proof.
  induction n as [|n IH]; intros s cur L.
  - destruct s; [|simpl in L; lia]. simpl. now rewrite !app_nil_r.
  - destruct s as [|c r]. { simpl. now rewrite !app_nil_r. }
    destruct (exec reBlank (c :: r)) as [rest|] eqn:E.
    + rewrite (@splitGo_found c r rest cur E). simpl.
      apply exec_reBlank in E. destruct E as (w & E & W).
      rewrite E. rewrite IH.
      * simpl. rewrite linesOf_app_LF. f_equal.
        change (LF :: rest) with ([LF] ++ rest). rewrite app_assoc.
        rewrite <- (@linesOf_space_app (w ++ [LF]) rest); auto.
        rewrite forallb_app, W. reflexivity.
      * injection E as -> ->. simpl in L. rewrite length_app in L. simpl in L. lia.
    + cbn [splitGo]. rewrite E, IH by (simpl in L; lia).
      simpl. now rewrite <- app_assoc.
Qed.

Lemma concat_lines_filter ps :
  concat (map linesOf (filter truthy (map trim ps))) = concat (map linesOf ps).
Proof.
  induction ps as [|p ps IH]; simpl; auto.
  destruct (trim p) as [|c t] eqn:T; simpl.
  - rewrite IH. rewrite <- (linesOf_trim p), T. reflexivity.
  - rewrite IH, <- T, linesOf_trim. reflexivity.
Qed.

Lemma paragraphs_lines text :
  concat (map linesOf (paragraphsOf text)) = linesOf (replaceCRLF text).
Proof.
  unfold paragraphsOf, splitBlank. rewrite concat_lines_filter.
  rewrite (@splitGo_lines _ _ [] (le_n _)). simpl. apply linesOf_trim.
Qed.

End LineFacts.

(** ** The formatter: fuel *)

Module FuelFacts.

Import JsFacts RegexFacts LineFacts.

Lemma paragraph_length text para :
  In para (paragraphsOf text) -> length para <= length text.
Proof.
  unfold paragraphsOf, splitBlank. intros I.
  apply filter_In in I. destruct I as [I _].
  apply in_map_iff in I. destruct I as (p & <- & I).
  pose proof (splitGo_lengths (trim (replaceCRLF text)) 0 []) as F.
  rewrite Forall_forall in F. specialize (F p I). simpl in F.
  pose proof (trim_length p). pose proof (trim_length (replaceCRLF text)).
  pose proof (replaceCRLF_length text). lia.
Qed.

Lemma rest_length para l0 rest :
  linesOf para = l0 :: rest -> rest <> [] ->
  length (join [LF] rest) < length para.
Proof.
  intros E R.
  assert (W : weight (linesOf para) <= S (length para)).
  { unfold linesOf. rewrite <- (weight_splitOn LF para).
    etransitivity; [apply weight_filter|apply weight_map_trim]. }
  rewrite E in W. simpl in W.
  pose proof (@join1_weight LF rest R). lia.
Qed.

Lemma heading_rest para :
  (1 <? length (linesOf para)) = true ->
  length (join [LF] (tl (linesOf para))) < length para.
Proof.
  intros H. apply Nat.ltb_lt in H.
  destruct (linesOf para) as [|l0 rest] eqn:E; [simpl in H; lia|].
  apply (rest_length para l0 rest E). destruct rest; [simpl in H; lia|discriminate].
Qed.

Lemma forEachPara_some f ps : forall nodes,
  (forall para, In para ps -> exists ns, f para = Some ns) ->
  exists r, forEachPara f ps nodes = Some r.
Proof.
  induction ps as [|p ps IH]; intros nodes H; simpl; eauto.
  destruct (H p (or_introl eq_refl)) as [ns ->].
  apply IH. intros para I. apply H. now right.
Qed.

Lemma forEachPara_ext f g ps : forall nodes,
  (forall para, In para ps -> f para = g para) ->
  forEachPara f ps nodes = forEachPara g ps nodes.
Proof.
  induction ps as [|p ps IH]; intros nodes H; simpl; auto.
  rewrite <- (H p (or_introl eq_refl)).
  destruct (f p); auto. apply IH. intros para I. apply H. now right.
Qed.

Lemma forEachPara_concat f ps : forall nodes,
  (forall para, In para ps -> f para <> None) ->
  forEachPara f ps nodes =
  Some (nodes ++ concat (map (fun para =>
                                match f para with Some ns => ns | None => [] end)
                             ps)).
Proof.
  induction ps as [|p ps IH]; intros nodes H; simpl.
  - now rewrite app_nil_r.
  - pose proof (H p (or_introl eq_refl)).
    destruct (f p) as [ns|]; [|congruence].
    rewrite IH, app_assoc; auto. intros para I. apply H. now right.
Qed.

(** The fuel [parseAssistantTextToNodes] hands over is enough. *)
Lemma parse_enough n : forall text,
  length text < n -> exists nodes, parse n text = Some nodes.
Proof.
  induction n as [|n IH]; intros text L; [lia|]. simpl.
  destruct (truthy text); simpl; eauto.
  apply forEachPara_some. intros para I.
  apply paragraph_length in I. unfold paraNodes.
  destruct ((1 <? length (linesOf para)) && _) eqn:H; eauto.
  apply andb_prop in H. destruct H as [H _]. apply heading_rest in H.
  destruct (IH (join [LF] (tl (linesOf para)))) as [child ->]; [lia|]. eauto.
Qed.

Lemma parse_stable n : forall text nodes m,
  parse n text = Some nodes -> n <= m -> parse m text = Some nodes.
Proof.
  induction n as [|n IH]; intros text nodes m P L; [discriminate|].
  destruct m as [|m]; [lia|]. simpl in *.
  destruct (truthy text); simpl in *; auto.
  revert P. generalize (@nil Block).
  induction (paragraphsOf text) as [|p ps IHp]; intros acc; simpl; auto.
  unfold paraNodes at 1 3.
  destruct ((1 <? length (linesOf p)) && _).
  - destruct (parse n (join [LF] (tl (linesOf p)))) as [child|] eqn:C;
      [|discriminate].
    rewrite (IH _ _ m C) by lia. apply IHp.
  - apply IHp.
Qed.

Lemma parse_total text : parseAssistantTextToNodes text = Some (format text).
Proof.
  unfold format.
  destruct (@parse_enough (S (length text)) text (Nat.lt_succ_diag_r _)) as [nodes E].
  unfold parseAssistantTextToNodes. now rewrite E.
Qed.

Lemma paraNodes_fuel n para :
  length para <= n ->
  paraNodes (parse n) para = paraNodes parseAssistantTextToNodes para.
Proof.
  intros L. unfold paraNodes.
  destruct ((1 <? length (linesOf para)) && _) eqn:H; auto.
  apply andb_prop in H. destruct H as [H _]. apply heading_rest in H.
  rewrite parse_total.
  rewrite (@parse_stable _ _ _ n (parse_total _)) by lia. reflexivity.
Qed.

Lemma paraNodes_total para :
  paraNodes parseAssistantTextToNodes para = Some (unitNodes para).
Proof.
  unfold unitNodes, paraNodes.
  destruct ((1 <? length (linesOf para)) && _); auto.
  now rewrite parse_total.
Qed.

(** The function, unfolded once. *)
Lemma format_paragraphs text :
  format text = concat (map unitNodes (paragraphsOf text)).
Proof.
  unfold format, parseAssistantTextToNodes. cbn [parse].
  destruct (truthy text) eqn:T; cbn [negb].
  - rewrite (@forEachPara_ext _ (paraNodes parseAssistantTextToNodes)).
    + rewrite forEachPara_concat; [reflexivity|].
      intros para _. rewrite paraNodes_total. discriminate.
    + intros para I. apply paraNodes_fuel. now apply paragraph_length.
  - destruct text; [reflexivity|discriminate].
Qed.

Lemma unitNodes_heading para l0 l1 rest :
  linesOf para = l0 :: l1 :: rest -> test reColonEnd l0 = true ->
  unitNodes para =
  Heading (strip reColonEnd l0) :: format (join [LF] (l1 :: rest)).
Proof.
  intros E T. unfold unitNodes, paraNodes. rewrite E. simpl hd. simpl tl.
  rewrite T, parse_total. reflexivity.
Qed.

Lemma unitNodes_plain para :
  (1 <? length (linesOf para)) && test reColonEnd (hd [] (linesOf para)) = false ->
  unitNodes para = plainNodes (linesOf para).
Proof.
  intros H. unfold unitNodes, paraNodes. now rewrite H.
Qed.

End FuelFacts.

(** ** The formatter: list items *)

Module ItemFacts.

Lemma appendToLast_snoc acc x line :
  appendToLast (acc ++ [x]) line = acc ++ [x ++ SP :: line].
Proof.
  induction acc as [|a acc IH]; simpl; auto.
  rewrite IH. destruct (acc ++ [x]) eqn:E; auto.
  destruct acc; discriminate.
Qed.

Lemma listStep_fold marker lines : forall acc x,
  fold_left (listStep marker) lines (acc ++ [x])
  = acc ++ (x ++ continuation marker lines) :: itemsSpec marker lines.
Proof.
  induction lines as [|l lines IH]; intros acc x; simpl.
  - now rewrite app_nil_r.
  - unfold listStep at 2. destruct (test marker l).
    + rewrite IH, app_nil_r, <- app_assoc. reflexivity.
    + rewrite appendToLast_snoc, IH, <- app_assoc. reflexivity.
Qed.

(** The loop computes the items as [itemsSpec] describes them. *)
Lemma listItems_spec marker lines :
  listItems marker lines = itemsSpec marker lines.
Proof.
  unfold listItems. induction lines as [|l lines IH]; simpl; auto.
  unfold listStep at 2. destruct (test marker l); simpl; auto.
  apply (listStep_fold marker lines []).
Qed.

Lemma itemsSpec_not_nil marker lines :
  1 <= countMatches marker lines -> itemsSpec marker lines <> [].
Proof.
  unfold countMatches. induction lines as [|l lines IH]; simpl; [lia|].
  destruct (test marker l); [discriminate|auto].
Qed.

Lemma itemsSpec_length marker lines :
  length (itemsSpec marker lines) = countMatches marker lines.
Proof.
  unfold countMatches. induction lines as [|l lines IH]; simpl; auto.
  destruct (test marker l); simpl; auto.
Qed.


End ItemFacts.

(** ** The formatter: units *)

Module UnitFacts.

Import JsFacts RegexFacts LineFacts FuelFacts ItemFacts.

Lemma trim_nil s : trim s = [] -> forallb isSpace s = true.
Proof.
  intros T. destruct (trim_split s) as (a & b & E & A & B).
  rewrite E, T, !forallb_app, A, B. reflexivity.
Qed.

Lemma linesOf_nil s : linesOf s = [] -> forallb isSpace s = true.
Proof.
  induction s as [|c r IH]; auto. intros L.
  assert (C : isSpace c = true).
  { destruct (N.eq_dec c LF) as [->|D]; [reflexivity|].
    unfold linesOf in L. rewrite splitOn_cons in L by assumption.
    simpl in L. destruct (trim (c :: _)) eqn:T; [|discriminate].
    apply trim_nil in T. simpl in T. now apply andb_prop in T. }
  simpl. rewrite C. apply IH. now rewrite <- (linesOf_cons_space c r C).
Qed.

Lemma paragraph_lines text para :
  In para (paragraphsOf text) -> linesOf para <> [].
Proof.
  unfold paragraphsOf. intros I L.
  apply filter_In in I. destruct I as [I T].
  apply in_map_iff in I. destruct I as (p & <- & _).
  apply linesOf_nil, trim_allspace in L. rewrite trim_idem in L.
  now rewrite L in T.
Qed.

Lemma unitNodes_cases para :
  (exists l0 l1 rest,
      linesOf para = l0 :: l1 :: rest
      /\ test reColonEnd l0 = true
      /\ unitNodes para
         = Heading (strip reColonEnd l0) :: format (join [LF] (l1 :: rest))
      /\ length (join [LF] (l1 :: rest)) < length para)
  \/ (noHeading (linesOf para) /\ unitNodes para = plainNodes (linesOf para)).
Proof.
  unfold noHeading.
  destruct ((1 <? length (linesOf para)) && _) eqn:H.
  - left. apply andb_prop in H. destruct H as [L T].
    pose proof (heading_rest para L) as R.
    destruct (linesOf para) as [|l0 [|l1 rest]] eqn:E; try discriminate.
    exists l0, l1, rest. repeat split; auto.
    now apply unitNodes_heading.
  - right. split; auto. now apply unitNodes_plain.
Qed.

Lemma format_at text before para after :
  paragraphsOf text = before ++ para :: after ->
  format text
  = concat (map unitNodes before) ++ unitNodes para
    ++ concat (map unitNodes after).
Proof.
  intros E. rewrite format_paragraphs, E, map_app, concat_app. reflexivity.
Qed.

(** Induction on the length of the text, the measure of the recursion. *)
Lemma length_induction (P : jsstring -> Prop) :
  (forall text, (forall t, length t < length text -> P t) -> P text) ->
  forall text, P text.
Proof.
  intros H text.
  assert (G : forall n t, length t < n -> P t).
  { induction n as [|n IH]; intros t L; [lia|].
    apply H. intros t' L'. apply IH. lia. }
  apply (G (S (length text))). lia.
Qed.

Lemma countMatches_none re lines :
  forallb (fun l => negb (test re l)) lines = true -> countMatches re lines = 0.
Proof.
  unfold countMatches. induction lines as [|l lines IH]; simpl; auto.
  destruct (test re l); simpl; [discriminate|auto].
Qed.

(** A trimmed line that ends with a colon loses just the colon. *)
Lemma heading_text l :
  clean l -> test reColonEnd l = true -> l = strip reColonEnd l ++ [58%N].
Proof.
  intros (_ & T & _) M. destruct (reColonEnd_match l M) as (w & E & W).
  set (h := strip reColonEnd l) in *.
  assert (L : length l <= length (h ++ [58%N])).
  { rewrite <- T at 1. rewrite E.
    change (h ++ 58%N :: w) with (h ++ [58%N] ++ w).
    rewrite app_assoc, trim_app_space by assumption. apply trim_length. }
  rewrite E, !length_app in L. simpl in L.
  destruct w; [exact E|simpl in L; lia].
Qed.

(** The classification of a unit the heading rule leaves alone. *)
Lemma plainNodes_cases lines :
  let isNumbered := 1 <=? countMatches reNumbered lines in
  let isBullet := 1 <=? countMatches reBullet lines in
  (isNumbered && negb isBullet = true
   /\ plainNodes lines = [OrderedList (itemsSpec reNumbered lines)])
  \/ (isBullet && negb isNumbered = true
      /\ plainNodes lines = [UnorderedList (itemsSpec reBullet lines)])
  \/ (isNumbered && negb isBullet = false
      /\ isBullet && negb isNumbered = false
      /\ 2 <= countMatches reStep lines
      /\ plainNodes lines = [OrderedList (itemsSpec reStep lines)])
  \/ (isNumbered && negb isBullet = false
      /\ isBullet && negb isNumbered = false
      /\ countMatches reStep lines < 2
      /\ plainNodes lines = [Paragraph (join [SP] lines)]).
Proof.
  intros isNumbered isBullet. unfold plainNodes.
  fold isNumbered isBullet. rewrite !listItems_spec.
  destruct (isNumbered && negb isBullet); auto.
  destruct (isBullet && negb isNumbered); auto.
  destruct (2 <=? countMatches reStep lines) eqn:S.
  - apply Nat.leb_le in S. auto 10.
  - apply Nat.leb_gt in S. auto 10.
Qed.

Lemma unitNodes_not_nil para : unitNodes para <> [].
Proof.
  destruct (unitNodes_cases para) as [(l0 & l1 & rest & _ & _ & -> & _)|[_ ->]];
    [discriminate|].
  destruct (plainNodes_cases (linesOf para))
    as [[_ ->]|[[_ ->]|[(_ & _ & _ & ->)|(_ & _ & _ & ->)]]]; discriminate.
Qed.

Lemma format_nil text :
  parseAssistantTextToNodes text = Some [] <-> forallb isSpace text = true.
Proof.
  rewrite parse_total. split.
  - intros [= F]. rewrite format_paragraphs in F.
    pose proof (paragraphs_lines text) as L.
    destruct (paragraphsOf text) as [|p ps].
    + simpl in L. rewrite linesOf_replaceCRLF in L. symmetry in L.
      now apply linesOf_nil.
    + simpl in F. apply app_eq_nil in F. destruct F as [F _].
      now apply unitNodes_not_nil in F.
  - intros W. f_equal. rewrite format_paragraphs.
    pose proof (paragraphs_lines text) as L.
    rewrite linesOf_replaceCRLF, (linesOf_allspace text W) in L.
    destruct (paragraphsOf text) as [|p ps] eqn:E; [reflexivity|].
    exfalso. apply (paragraph_lines text p); [rewrite E; now left|].
    simpl in L. now apply app_eq_nil in L.
Qed.

End UnitFacts.

(** ** The formatter: statements *)

Module FormatterSpec.

Import JsFacts RegexFacts LineFacts FuelFacts ItemFacts UnitFacts.

(** The function on the sample texts of the specification. *)
Example format_bullets :
  parseAssistantTextToNodes
    (js "- Use sunscreen" ++ LF :: js "- Reapply every 2 hours")
  = Some [UnorderedList [js "Use sunscreen"; js "Reapply every 2 hours"]].
Proof. reflexivity. Qed.

Example format_steps :
  parseAssistantTextToNodes (js "Step 1: Cleanse" ++ LF :: js "Step 2: Tone")
  = Some [OrderedList [js "Cleanse"; js "Tone"]].
Proof. reflexivity. Qed.

Example format_continuation :
  parseAssistantTextToNodes (js "1. Apply serum" ++ LF :: js "wait 30 seconds")
  = Some [OrderedList [js "Apply serum wait 30 seconds"]].
Proof. reflexivity. Qed.

Example format_mixed_markers :
  parseAssistantTextToNodes (js "1. one" ++ CR :: LF :: js "- two")
  = Some [Paragraph (js "1. one - two")].
Proof. reflexivity. Qed.

Example format_lone_colon :
  parseAssistantTextToNodes (js "Summary:") = Some [Paragraph (js "Summary:")].
Proof. reflexivity. Qed.

Example format_nested_headings :
  parseAssistantTextToNodes
    (js "AM:" ++ LF :: js "Face:" ++ LF :: js "* wash" ++ LF :: LF
     :: SP :: LF :: js "PM:" ++ LF :: js "rest")
  = Some [Heading (js "AM"); Heading (js "Face"); UnorderedList [js "wash"];
          Heading (js "PM"); Paragraph (js "rest")].
Proof. reflexivity. Qed.

(** C10.  Every ordered and unordered list block of the output has at
    least one item. *)
Theorem lists_not_empty (text : jsstring) :
  exists nodes,
    parseAssistantTextToNodes text = Some nodes /\ Forall hasItem nodes.
Proof.
  exists (format text). split; [apply parse_total|].
  induction text as [text IH] using length_induction.
  rewrite format_paragraphs. apply Forall_concat, Forall_map, Forall_forall.
  intros para I. pose proof (paragraph_length text para I) as L.
  destruct (unitNodes_cases para)
    as [(l0 & l1 & rest & _ & _ & -> & R)|[_ ->]].
  - constructor; [exact Logic.I|]. apply IH. lia.
  - destruct (plainNodes_cases (linesOf para))
      as [[H ->]|[[H ->]|[(_ & _ & H & ->)|(_ & _ & _ & ->)]]];
      repeat constructor; simpl.
    + apply itemsSpec_not_nil. apply andb_prop in H.
      now apply Nat.leb_le.
    + apply itemsSpec_not_nil. apply andb_prop in H.
      now apply Nat.leb_le.
    + apply itemsSpec_not_nil. lia.
Qed.

(** C3.  A paragraph unit of more than one line whose first line ends
    with a colon (and optional white space) yields a Heading with the
    text of that line without the colon, directly followed by the blocks
    of the remaining lines joined with newlines, formatted by the
    function itself; "Steps:\n1. Cleanse\n2. Moisturize" gives
    [Heading "Steps"; OrderedList ["Cleanse"; "Moisturize"]]. *)
Theorem heading_rule :
  (forall text before para after l0 l1 rest,
      paragraphsOf text = before ++ para :: after ->
      linesOf para = l0 :: l1 :: rest ->
      test reColonEnd l0 = true ->
      parseAssistantTextToNodes text
      = Some (concat (map unitNodes before)
              ++ (Heading (strip reColonEnd l0)
                  :: format (join [LF] (l1 :: rest)))
              ++ concat (map unitNodes after))
      /\ parseAssistantTextToNodes (join [LF] (l1 :: rest))
         = Some (format (join [LF] (l1 :: rest)))
      /\ l0 = strip reColonEnd l0 ++ [58%N])
  /\ parseAssistantTextToNodes
       (js "Steps:" ++ LF :: js "1. Cleanse" ++ LF :: js "2. Moisturize")
     = Some [Heading (js "Steps");
             OrderedList [js "Cleanse"; js "Moisturize"]].
Proof.
  split; [|reflexivity].
  intros text before para after l0 l1 rest P L T. split; [|split].
  - rewrite parse_total, (format_at text before para after P).
    now rewrite (unitNodes_heading para l0 l1 rest L T).
  - apply parse_total.
  - apply heading_text; auto.
    pose proof (linesOf_clean para) as C. rewrite L in C. now inversion C.
Qed.

Lemma heading_rule_witness :
  let text := js "Intro" ++ LF :: LF :: js "Steps :" ++ LF :: js "1. Cleanse" in
  parseAssistantTextToNodes text
  = Some ([Paragraph (js "Intro")]
          ++ (Heading (js "Steps ") :: [OrderedList [js "Cleanse"]]) ++ []).
Proof.
  intros text.
  apply (proj1 heading_rule text [js "Intro"]
           (js "Steps :" ++ LF :: js "1. Cleanse") []
           (js "Steps :") (js "1. Cleanse") []);
    reflexivity.
Defined.


Lemma earlierRule_false lines :
  earlierRule lines = false ->
  noHeading lines
  /\ (1 <=? countMatches reNumbered lines)
     && negb (1 <=? countMatches reBullet lines) = false
  /\ (1 <=? countMatches reBullet lines)
     && negb (1 <=? countMatches reNumbered lines) = false.
Proof.
  unfold earlierRule, noHeading. intros H.
  apply orb_false_elim in H. destruct H as [H B].
  apply orb_false_elim in H. destruct H as [H N]. auto.
Qed.

(** C4, amended.  "Step" and the digits may touch: the pattern of the
    rule is "optional white space, 'Step', optional white space, digits,
    one of ':', '.', ')', optional white space", case-insensitively.  A
    unit that the heading, numbered-list and bulleted-list rules leave
    alone and that has at least 2 such lines yields one OrderedList: one
    item per matching line, without its marker, followed by the
    non-matching lines up to the next matching line, each after one
    space; non-matching lines before the first matching line are
    dropped.  With fewer than 2 such lines the unit is a Paragraph. *)
Theorem step_rule (text : jsstring) (before : list jsstring)
  (para : jsstring) (after : list jsstring) :
  paragraphsOf text = before ++ para :: after ->
  stepRule reStep para
  /\ parseAssistantTextToNodes text
     = Some (concat (map unitNodes before) ++ unitNodes para
             ++ concat (map unitNodes after)).
Proof.
  intros P. split.
  - unfold stepRule. intros E.
    apply earlierRule_false in E. destruct E as (H & N & B).
    rewrite (unitNodes_plain para H).
    destruct (plainNodes_cases (linesOf para))
      as [[X _]|[[X _]|[(_ & _ & C & ->)|(_ & _ & C & ->)]]];
      try congruence; split; intros; auto; lia.
  - rewrite parse_total. f_equal. now apply format_at.
Qed.

Lemma step_rule_witness :
  unitNodes (js "Step 1: Cleanse" ++ LF :: js "gently" ++ LF :: js "step2)Tone")
  = [OrderedList [js "Cleanse gently"; js "Tone"]].
Proof.
  set (para := js "Step 1: Cleanse" ++ LF :: js "gently" ++ LF :: js "step2)Tone").
  apply (proj1 (proj1 (step_rule para [] para [] eq_refl) eq_refl)).
  vm_compute. apply le_n.
Defined.

(** C4 as written fails: with white space required between "Step" and
    the digits, the unit "Step1: a / Step2: b" has no step line and
    would be a Paragraph, yet it is formatted as an ordered list. *)
Lemma step_rule_written_counterexample :
  paragraphsOf (js "Step1: a" ++ LF :: js "Step2: b")
  = [js "Step1: a" ++ LF :: js "Step2: b"]
  /\ ~ stepRule reStepWritten (js "Step1: a" ++ LF :: js "Step2: b").
Proof.
  split; [reflexivity|]. intros H.
  destruct (H eq_refl) as [_ H2].
  assert (C : countMatches reStepWritten
                (linesOf (js "Step1: a" ++ LF :: js "Step2: b")) < 2)
    by (vm_compute; lia).
  specialize (H2 C). vm_compute in H2. discriminate.
Qed.

(** C5, amended.  An input with no blank-line separator, no line with a
    numbered, bulleted or step marker, at least one non-blank line, and
    whose first line does not end with a colon when there are several
    lines, gives exactly one Paragraph: all its trimmed non-empty lines
    joined with single spaces. *)
Theorem plain_text_paragraph (text : jsstring) :
  plainText text ->
  allLines text <> [] ->
  noHeading (allLines text) ->
  oneParagraph text.
Proof.
  intros [B M] N H. unfold oneParagraph, allLines in *.
  set (s := trim (replaceCRLF text)).
  assert (L : linesOf s = linesOf (replaceCRLF text)) by apply linesOf_trim.
  assert (S : s <> []).
  { intros E. rewrite E in L. now rewrite <- L in N. }
  assert (P : paragraphsOf text = [s]).
  { unfold paragraphsOf, splitBlank. fold s.
    rewrite splitBlank_none.
    - simpl. unfold s at 1 2. rewrite trim_idem. fold s.
      destruct s; [congruence|reflexivity].
    - exact B. }
  rewrite parse_total, format_paragraphs, P. simpl. rewrite app_nil_r.
  rewrite <- L in *. rewrite (unitNodes_plain s H).
  unfold noMarker in M.
  assert (C : forall re, forallb (fun l => negb (test re l)) (linesOf s) = true ->
                         countMatches re (linesOf s) = 0)
    by (intros; now apply countMatches_none).
  unfold plainNodes.
  rewrite !C; [reflexivity| | |];
    apply forallb_forall; intros l I;
    rewrite forallb_forall in M; specialize (M l I);
    apply andb_prop in M; destruct M as [M M3];
    apply andb_prop in M; destruct M as [M1 M2]; assumption.
Qed.

Lemma plain_text_paragraph_witness :
  oneParagraph (LF :: LF :: js " Use it daily. " ++ CR :: LF
                :: js "Rinse well." ++ [LF; SP; LF]).
Proof.
  apply plain_text_paragraph; [split; reflexivity|discriminate|reflexivity].
Defined.

(** Blank lines at the ends of the input are no separators. *)
Example plain_text_margins :
  plainText (js "hello" ++ [LF; LF]) /\ plainText (LF :: LF :: js "hello")
  /\ parseAssistantTextToNodes (js "hello" ++ [LF; LF])
     = Some [Paragraph (js "hello")]
  /\ parseAssistantTextToNodes (LF :: LF :: js "hello")
     = Some [Paragraph (js "hello")].
Proof. repeat split. Qed.

(** C5 as written fails: "Title:\nbody" has neither a blank-line
    separator nor a marker line, and gives a Heading and a Paragraph. *)
Lemma plain_text_counterexample :
  ~ plainTextClaim (js "Title:" ++ LF :: js "body").
Proof.
  intros H. assert (P : plainText (js "Title:" ++ LF :: js "body"))
    by (split; reflexivity).
  specialize (H P). vm_compute in H. discriminate.
Qed.

(** A blank input has no separator and no marker line either, and
    gives no block at all. *)
Example plain_text_blank :
  plainText [SP; LF] /\ parseAssistantTextToNodes [SP; LF] = Some [].
Proof. repeat split. Qed.





(** A list block without item is made of no lines at all, dropped ones
    included. *)
Remark no_empty_list_block dropping g :
  ~ blockFrom dropping g (OrderedList [])
  /\ ~ blockFrom dropping g (UnorderedList []).
Proof.
  split; intros B; inversion B as [| |? ? ? ? ? ? ? I|? ? ? ? ? I]; subst;
    inversion I.
Qed.



End FormatterSpec.

(** ** The product filter *)

Module FilterSpec.

Import Filter.

Lemma filter_twice {A} (f g : A -> bool) l :
  filter g (filter f l) = filter (fun x => f x && g x) l.
Proof.
  induction l as [|x l IH]; simpl; auto.
  destruct (f x); simpl; [destruct (g x)|]; now rewrite IH.
Qed.

Lemma filter_all {A} (l : list A) : filter (fun _ => true) l = l.
Proof. induction l as [|x l IH]; simpl; now rewrite ?IH. Qed.

(** C6, amended.  The filter returns the products of the catalog, in
    catalog order, that have exactly the selected category (when one is
    selected) and (when the trimmed query is not empty) contain the
    lower-cased trimmed query in the lower-cased text "name brand
    description", the three fields being joined with single spaces and a
    missing brand or description counting as empty. *)
Theorem filter_spec (toLowerCase : jsstring -> jsstring)
  (lower_truthy : forall s, truthy (toLowerCase s) = truthy s)
  (loadProducts : option (list Product)) (allProducts : list Product)
  (category : jsstring) (query : option jsstring) :
  filterClaim toLowerCase [SP] loadProducts allProducts category query.
Proof.
  unfold filterClaim, applyFilters.
  replace (match allProducts with [] => loadProducts | _ :: _ => Some allProducts end)
    with (catalogOf loadProducts allProducts) by reflexivity.
  destruct (catalogOf loadProducts allProducts) as [catalog|]; [|reflexivity].
  f_equal. f_equal. rewrite lower_truthy. unfold passes, hay.
  destruct (truthy category), (truthy (trim (orEmpty query))); simpl.
  - apply filter_twice.
  - apply filter_ext. intros p. now rewrite andb_true_r.
  - reflexivity.
  - symmetry. apply filter_all.
Qed.

Lemma toLowerCaseASCII_truthy s : truthy (toLowerCaseASCII s) = truthy s.
Proof. destruct s; reflexivity. Qed.

Lemma filter_spec_witness :
  applyFilters toLowerCaseASCII None
    [ {| name := js "Foaming Cleanser"; brand := Some (js "CeraVe");
         category := js "cleanser"; image := js "a.png";
         description := None |};
      {| name := js "Night Cream"; brand := None;
         category := js "moisturizer"; image := js "b.png";
         description := Some (js "Rich cream") |} ]
    [] (Some (js " CREAM "))
  = Some
      ([ {| name := js "Foaming Cleanser"; brand := Some (js "CeraVe");
            category := js "cleanser"; image := js "a.png";
            description := None |};
         {| name := js "Night Cream"; brand := None;
            category := js "moisturizer"; image := js "b.png";
            description := Some (js "Rich cream") |} ],
       [ {| name := js "Night Cream"; brand := None;
            category := js "moisturizer"; image := js "b.png";
            description := Some (js "Rich cream") |} ]).
Proof.
  exact (filter_spec toLowerCaseASCII toLowerCaseASCII_truthy None _ [] _).
Defined.

(** C6 as written fails: with name "a" and brand "b" the plain
    concatenation contains the query "ab", the text the script searches,
    "a b ", does not. *)
Lemma filter_concatenation_counterexample :
  ~ filterClaim toLowerCaseASCII [] None
      [ {| name := js "a"; brand := Some (js "b"); category := js "c";
           image := []; description := None |} ]
      [] (Some (js "ab")).
Proof. intros H. vm_compute in H. discriminate. Qed.

End FilterSpec.

(** ** The selection map *)

Module SelectionSpec.

Import Filter Selection.

Lemma strictEq_eq a : forall b, strictEq a b = true <-> a = b.
Proof.
  induction a as [|x a IH]; intros [|y b]; simpl; split;
    try discriminate; auto.
  - intros H. apply andb_prop in H. destruct H as [X H].
    apply N.eqb_eq in X. apply IH in H. congruence.
  - intros [= -> ->]. rewrite N.eqb_refl. now apply IH.
Qed.

Lemma strictEq_refl a : strictEq a a = true.
Proof. now apply strictEq_eq. Qed.

Lemma delete_absent key m : has key m = false -> delete key m = m.
Proof.
  unfold has, delete. induction m as [|e m IH]; simpl; auto.
  destruct (strictEq (fst e) key); simpl; [discriminate|].
  intros H. now rewrite IH.
Qed.

Lemma has_delete key m : has key (delete key m) = false.
Proof.
  unfold has, delete. induction m as [|e m IH]; simpl; auto.
  destruct (strictEq (fst e) key) eqn:E; simpl; auto. now rewrite E.
Qed.

Lemma set_absent key v m : has key m = false -> set key v m = m ++ [(key, v)].
Proof.
  unfold has. induction m as [|[k x] m IH]; simpl; auto.
  destruct (strictEq k key); simpl; [discriminate|].
  intros H. now rewrite IH.
Qed.

Lemma has_snoc key v m : has key (m ++ [(key, v)]) = true.
Proof.
  unfold has. rewrite existsb_app. simpl.
  now rewrite strictEq_refl, orb_true_r.
Qed.

Lemma delete_snoc key v m : delete key (m ++ [(key, v)]) = delete key m.
Proof.
  unfold delete. rewrite filter_app. simpl.
  rewrite strictEq_refl. simpl. apply app_nil_r.
Qed.

Lemma position_snoc key ks :
  existsb (fun k => strictEq k key) ks = false ->
  position key (ks ++ [key]) = Some (length ks).
Proof.
  induction ks as [|k ks IH]; simpl.
  - now rewrite strictEq_refl.
  - destruct (strictEq k key); simpl; [discriminate|].
    intros H. now rewrite IH.
Qed.

Lemma has_keys key m :
  has key m = existsb (fun k => strictEq k key) (keys m).
Proof. unfold has, keys. induction m; simpl; congruence. Qed.

Lemma has_in key m : has key m = true <-> In key (keys m).
Proof.
  rewrite has_keys, existsb_exists. split.
  - intros (k & I & E). apply strictEq_eq in E. now subst.
  - intros I. exists key. split; auto. apply strictEq_refl.
Qed.

(** With no key twice, deleting a present key removes one entry. *)
Lemma delete_length key m :
  NoDup (keys m) -> has key m = true -> S (length (delete key m)) = length m.
Proof.
  induction m as [|[k x] m IH]; simpl; [discriminate|].
  intros D H. inversion D as [|? ? N D']; subst.
  unfold has in H. simpl in H. unfold delete. simpl.
  destruct (strictEq k key) eqn:E; simpl.
  - apply strictEq_eq in E. subst k. f_equal.
    fold (delete key m). rewrite delete_absent; auto.
    destruct (has key m) eqn:H'; auto. apply has_in in H'. contradiction.
  - f_equal. apply IH; auto.
Qed.

(** C7, amended.  Two toggles of the same key restore its presence or
    absence.  If the key was absent, the selection map is exactly as
    before, entries and order.  If it was present, it is deleted and
    inserted again, so it ends as the last entry of the insertion-order
    snapshot, with the summary of the clicked card, the other entries
    keeping their order: it is at its old position only when it was the
    last entry.  The empty key is ignored. *)
Theorem toggle_twice (key : jsstring) (v : Summary) (m : SelMap) :
  NoDup (keys m) ->
  has key (toggleTwice key v m) = has key m
  /\ (has key m = false -> toggleTwice key v m = m)
  /\ (has key m = true -> truthy key = true ->
      toggleTwice key v m = delete key m ++ [(key, v)]
      /\ position key (keys (toggleTwice key v m)) = Some (length m - 1))
  /\ (truthy key = false -> toggleTwice key v m = m).
Proof.
  intros D. unfold toggleTwice, toggle.
  destruct (truthy key) eqn:K; simpl.
  2: { repeat split; auto; discriminate. }
  destruct (has key m) eqn:H.
  - rewrite has_delete, (set_absent key v _ (has_delete key m)), has_snoc.
    repeat split; auto; try discriminate.
    unfold keys. rewrite map_app. simpl. fold (keys (delete key m)).
    rewrite position_snoc.
    + unfold keys. rewrite length_map.
      pose proof (delete_length key m D H). f_equal. lia.
    + rewrite <- has_keys. apply has_delete.
  - rewrite (set_absent key v m H), has_snoc, delete_snoc, (delete_absent key m H).
    repeat split; auto; discriminate.
Qed.

Lemma toggle_twice_witness :
  let a := {| name := js "A"; brand := js "x"; image := js "a.png" |} in
  let b := {| name := js "B"; brand := js "y"; image := js "b.png" |} in
  toggleTwice (js "A") a [(js "A", a); (js "B", b)]
  = [(js "B", b)] ++ [(js "A", a)]
  /\ position (js "A") (keys (toggleTwice (js "A") a [(js "A", a); (js "B", b)]))
     = Some 1.
Proof.
  intros a b.
  refine (proj1 (proj2 (proj2
            (toggle_twice (js "A") a [(js "A", a); (js "B", b)] _))) _ _).
  - repeat constructor; simpl; intuition discriminate.
  - reflexivity.
  - reflexivity.
Defined.

(** C7 as written fails: toggling the first of two entries twice moves
    it behind the other one. *)
Lemma toggle_position_counterexample :
  ~ toggleTwiceClaim (js "A")
      {| name := js "A"; brand := js "x"; image := js "a.png" |}
      [ (js "A", {| name := js "A"; brand := js "x"; image := js "a.png" |});
        (js "B", {| name := js "B"; brand := js "y"; image := js "b.png" |}) ].
Proof.
  intros H. destruct H as [_ H].
  - repeat constructor; simpl; intuition discriminate.
  - specialize (H eq_refl). vm_compute in H. discriminate.
Qed.

End SelectionSpec.

(** ** The chat handlers *)

Module ChatSpec.

Import FuelFacts UnitFacts.
Import Filter Chat.

Lemma assistantNodes_not_nil text : assistantNodes text <> [].
Proof. unfold assistantNodes. destruct (format text); discriminate. Qed.

(** A text that is not blank is shown as the formatter's blocks. *)
Lemma assistantNodes_format text :
  forallb isSpace text = false ->
  assistantNodes text = format text /\ format text <> [].
Proof.
  intros B. assert (N : format text <> []).
  { intros E. pose proof (parse_total text) as P. rewrite E in P.
    apply format_nil in P. congruence. }
  split; [|exact N]. unfold assistantNodes.
  destruct (format text); [congruence|reflexivity].
Qed.

Lemma appendAssistantMessage_notice notice st :
  forallb isSpace notice = false ->
  noticeRendered notice st (appendAssistantMessage notice st).
Proof.
  intros B. destruct (assistantNodes_format notice B) as [E N].
  unfold noticeRendered, appendAssistantMessage. simpl. now rewrite E.
Qed.

Lemma notice_not_blank f : forallb isSpace (noticeOf f) = false.
Proof. destruct f; reflexivity. Qed.

(** The failures are the settled requests without reply. *)
Lemma failure_cases settled :
  replyOf settled = None <-> exists f, failureOf settled = Some f.
Proof.
  unfold replyOf, failureOf. destruct settled as [resp|message].
  - destruct (ok resp).
    + destruct (json resp) as [[c|]|message].
      * destruct (truthy c); split; eauto; try discriminate.
        intros [f F]. discriminate.
      * split; eauto.
      * split; eauto.
    + destruct (text resp); split; eauto.
  - split; eauto.
Qed.

Lemma afterFetch_notice settled f st :
  failureOf settled = Some f ->
  afterFetch settled st = appendAssistantMessage (noticeOf f) st.
Proof.
  unfold failureOf, afterFetch.
  destruct settled as [resp|message].
  - destruct (ok resp); simpl.
    + destruct (json resp) as [[c|]|message]; simpl.
      * destruct (truthy c); [discriminate|]. now intros [= <-].
      * now intros [= <-].
      * now intros [= <-].
    + destruct (text resp); now intros [= <-].
  - now intros [= <-].
Qed.

(** After a request that brought no reply, a notice and nothing else. *)
Lemma afterFetch_failure settled st :
  replyOf settled = None ->
  exists notice, noticeRendered notice st (afterFetch settled st).
Proof.
  intros R. apply failure_cases in R. destruct R as [f F].
  exists (noticeOf f). rewrite (afterFetch_notice settled f st F).
  apply appendAssistantMessage_notice, notice_not_blank.
Qed.

Lemma afterFetch_success settled reply st :
  replyOf settled = Some reply ->
  afterFetch settled st
  = pushMessage assistant reply (appendAssistantMessage reply st)
  /\ exists resp, settled = Fulfilled resp /\ json resp = Fulfilled (Some reply).
Proof.
  unfold replyOf, afterFetch.
  destruct settled as [resp|message]; [|discriminate].
  destruct (ok resp); [|discriminate]. simpl.
  destruct (json resp) as [[c|]|message] eqn:J; try discriminate.
  simpl. destruct (truthy c); [|discriminate]. intros [= ->]. eauto.
Qed.

(** The synchronous part of an action that sends a user message. *)
Lemma start_sends a apiKey st c :
  userContent a = Some c ->
  exists shown,
    let st1 := {| conversationMessages := conversationMessages st ++ [turn user c];
                  chatWindow := chatWindow st ++ [ChatUser shown] |} in
    startOf a apiKey st
    = if truthy (orEmpty apiKey)
      then (appendAssistantMessage
              (match a with
               | Submit _ => js "Thinking" ++ [8230%N]
               | Generate _ => js "Generating a personalized routine..."
               end) st1,
            Some (request st1 (match a with Submit _ => 500 | Generate _ => 700 end)%N))
      else (appendAssistantMessage noKeyNotice st1, None).
Proof.
  destruct a as [inputValue|selected]; simpl.
  - unfold submitStart. destruct (truthy (trim inputValue)); [|discriminate].
    intros [= <-]. exists (trim inputValue). simpl.
    destruct (truthy (orEmpty apiKey)); reflexivity.
  - unfold generateStart.
    destruct (Selection.values selected) as [|p ps]; [discriminate|].
    intros [= <-]. exists (js "Generate routine for selected products."). simpl.
    destruct (truthy (orEmpty apiKey)); reflexivity.
Qed.

(** The same, with what the chat window shows. *)
Lemma start_shown a apiKey st c :
  userContent a = Some c ->
  let st1 := {| conversationMessages := conversationMessages st ++ [turn user c];
                chatWindow := chatWindow st ++ [ChatUser (shownText a c)] |} in
  startOf a apiKey st
  = if truthy (orEmpty apiKey)
    then (appendAssistantMessage (waitingText a) st1,
          Some (request st1 (match a with Submit _ => 500 | Generate _ => 700 end)%N))
    else (appendAssistantMessage noKeyNotice st1, None).
Proof.
  destruct a as [inputValue|selected]; simpl.
  - unfold submitStart. destruct (truthy (trim inputValue)); [|discriminate].
    intros [= <-]. simpl.
    destruct (truthy (orEmpty apiKey)); reflexivity.
  - unfold generateStart.
    destruct (Selection.values selected) as [|p ps]; [discriminate|].
    intros [= <-]. simpl.
    destruct (truthy (orEmpty apiKey)); reflexivity.
Qed.

Lemma start_silent a apiKey st :
  userContent a = None ->
  conversationMessages (fst (startOf a apiKey st)) = conversationMessages st
  /\ snd (startOf a apiKey st) = None.
Proof.
  destruct a as [inputValue|selected]; simpl.
  - unfold submitStart. destruct (truthy (trim inputValue)); [discriminate|].
    auto.
  - unfold generateStart.
    destruct (Selection.values selected); [auto|discriminate].
Qed.

(** C8.  Every chat request that fails renders its notice and leaves
    the history as it is.  A request that was sent fails exactly when
    its outcome is one of: an error thrown by [fetch] or by the reading
    of the body, a non-success status, a body without reply field.  The
    chat window then gets one more assistant bubble, which shows, as
    the formatter's blocks (at least one), "Request failed: " and the
    error's message, "Error from OpenAI: ", the status and the body, or
    "No response from the API. Try again later."; without an API key no
    request is sent and the bubble is the one paragraph "OpenAI API key
    not found. ...".  In each case the history is the history before the
    action followed by the user message of the action: no assistant
    message is pushed, nothing is removed or edited. *)
Theorem failure_keeps_history :
  (forall settled,
      replyOf settled = None <-> exists f, failureOf settled = Some f)
  /\ (forall settled f st,
         failureOf settled = Some f ->
         noticeRendered (noticeOf f) st (afterFetch settled st))
  /\ (forall a apiKey st c,
         userContent a = Some c ->
         truthy (orEmpty apiKey) = false ->
         startOf a apiKey st
         = ({| conversationMessages :=
                 conversationMessages st ++ [turn user c];
               chatWindow :=
                 chatWindow st
                 ++ [ChatUser (shownText a c);
                     ChatAssistant [Paragraph missingKeyNotice]] |},
            None))
  /\ (forall a apiKey fetch st c req f,
         userContent a = Some c ->
         snd (startOf a apiKey st) = Some req ->
         failureOf (fetch req) = Some f ->
         run (startOf a apiKey) fetch st
         = {| conversationMessages :=
                conversationMessages st ++ [turn user c];
              chatWindow :=
                chatWindow st
                ++ [ChatUser (shownText a c);
                    ChatAssistant [Paragraph (waitingText a)];
                    ChatAssistant (format (noticeOf f))] |}
         /\ format (noticeOf f) <> []).
Proof.
  split; [exact failure_cases|]. split; [|split].
  - intros settled f st F. rewrite (afterFetch_notice settled f st F).
    apply appendAssistantMessage_notice, notice_not_blank.
  - intros a apiKey st c U K.
    pose proof (start_shown a apiKey st c U) as E.
    cbv zeta in E. rewrite K in E. rewrite E.
    unfold appendAssistantMessage, appendChild. simpl.
    rewrite <- app_assoc. reflexivity.
  - intros a apiKey fetch st c req f U Q F.
    destruct (assistantNodes_format _ (notice_not_blank f)) as [A N].
    split; [|exact N].
    pose proof (start_shown a apiKey st c U) as E. cbv zeta in E.
    unfold run. rewrite E in *.
    destruct (truthy (orEmpty apiKey)); [|discriminate].
    simpl in Q. injection Q as <-.
    rewrite (afterFetch_notice _ f _ F).
    unfold appendAssistantMessage, appendChild. rewrite A. simpl.
    rewrite <- !app_assoc. simpl.
    destruct a; reflexivity.
Qed.

Lemma failure_keeps_history_witness :
  chatSubmit (js " Is it safe? ") (Some (js "sk-test"))
    (fun _ => Fulfilled {| ok := false; status := 429;
                           text := Fulfilled (js "rate limited");
                           json := Thrown (js "Unexpected token") |})
    initialState
  = {| conversationMessages :=
         conversationMessages initialState ++ [turn user (js "Is it safe?")];
       chatWindow :=
         [ChatUser (js "Is it safe?");
          ChatAssistant [Paragraph (js "Thinking" ++ [8230%N])];
          ChatAssistant
            [Paragraph (js "Error from OpenAI: 429 rate limited")]] |}.
Proof.
  exact (proj1 (proj2 (proj2 (proj2 failure_keeps_history))
                  (Submit (js " Is it safe? ")) (Some (js "sk-test"))
                  (fun _ => Fulfilled {| ok := false; status := 429;
                                         text := Fulfilled (js "rate limited");
                                         json := Thrown (js "Unexpected token") |})
                  initialState (js "Is it safe?") _
                  (BadStatus 429 (js "rate limited"))
                  eq_refl eq_refl eq_refl)).
Defined.

(** C9, amended.  A typed follow-up whose trimmed text is not empty and
    a "generate routine" click with at least one selected product push
    exactly one user message before the request is built, and the
    request carries the history with that message last; a blank
    follow-up and a click with nothing selected push nothing and send
    nothing.  On success exactly one assistant message is pushed, whose
    content is the reply field of the response as received. *)
Theorem action_appends :
  (forall a apiKey st,
      match userContent a with
      | Some c =>
          conversationMessages (fst (startOf a apiKey st))
          = conversationMessages st ++ [turn user c]
          /\ (forall req, snd (startOf a apiKey st) = Some req ->
                          messages req
                          = conversationMessages st ++ [turn user c])
          /\ (truthy (orEmpty apiKey) = true ->
              exists req, snd (startOf a apiKey st) = Some req)
      | None =>
          conversationMessages (fst (startOf a apiKey st))
          = conversationMessages st
          /\ snd (startOf a apiKey st) = None
      end)
  /\ (forall settled reply st,
         replyOf settled = Some reply ->
         conversationMessages (afterFetch settled st)
         = conversationMessages st ++ [turn assistant reply]
         /\ exists resp, settled = Fulfilled resp
                         /\ json resp = Fulfilled (Some reply))
  /\ (forall a apiKey fetch st c req reply,
         userContent a = Some c ->
         snd (startOf a apiKey st) = Some req ->
         replyOf (fetch req) = Some reply ->
         conversationMessages (run (startOf a apiKey) fetch st)
         = conversationMessages st ++ [turn user c; turn assistant reply]).
Proof.
  split; [|split].
  - intros a apiKey st. destruct (userContent a) as [c|] eqn:U.
    + destruct (start_sends a apiKey st c U) as [shown E].
      cbv zeta in E. rewrite E.
      destruct (truthy (orEmpty apiKey)); simpl;
        (split; [reflexivity|split]).
      * now intros req [= <-].
      * eauto.
      * discriminate.
      * discriminate.
    + now apply start_silent.
  - intros settled reply st R.
    destruct (afterFetch_success settled reply st R) as [-> X]. auto.
  - intros a apiKey fetch st c req reply U Q R.
    destruct (start_sends a apiKey st c U) as [shown E].
    cbv zeta in E. unfold run. rewrite E in *.
    destruct (truthy (orEmpty apiKey)); [|discriminate].
    simpl in Q. injection Q as <-.
    destruct (afterFetch_success _ reply
                (appendAssistantMessage
                   (match a with
                    | Submit _ => js "Thinking" ++ [8230%N]
                    | Generate _ => js "Generating a personalized routine..."
                    end)
                   {| conversationMessages :=
                        conversationMessages st ++ [turn user c];
                      chatWindow := chatWindow st ++ [ChatUser shown] |}) R)
      as [-> _].
    simpl. now rewrite <- app_assoc.
Qed.

Lemma action_appends_witness :
  conversationMessages
    (generateRoutine
       [(js "Serum", {| Selection.name := js "Serum";
                        Selection.brand := js "Vichy";
                        Selection.image := js "s.png" |})]
       (Some (js "sk-test"))
       (fun _ => Fulfilled {| ok := true; status := 200;
                              text := Fulfilled [];
                              json := Fulfilled (Some (js "1. Apply serum")) |})
       initialState)
  = conversationMessages initialState
    ++ [turn user
          (userPrompt [{| Selection.name := js "Serum";
                          Selection.brand := js "Vichy";
                          Selection.image := js "s.png" |}]);
        turn assistant (js "1. Apply serum")].
Proof.
  refine (proj2 (proj2 action_appends)
            (Generate [(js "Serum", {| Selection.name := js "Serum";
                                       Selection.brand := js "Vichy";
                                       Selection.image := js "s.png" |})])
            (Some (js "sk-test"))
            (fun _ => Fulfilled {| ok := true; status := 200;
                                   text := Fulfilled [];
                                   json := Fulfilled (Some (js "1. Apply serum")) |})
            initialState _ _ (js "1. Apply serum") eq_refl eq_refl eq_refl).
Defined.

(** C9 as written fails: a "generate routine" click with nothing
    selected is an action, and it pushes no message (nor does a
    follow-up of blanks). *)
Lemma empty_selection_counterexample :
  ~ appendsUserMessage (Generate []) (Some (js "sk-test")) initialState.
Proof.
  intros [c H]. vm_compute in H. discriminate.
Qed.

Example blank_submit :
  submitStart (js "   ") (Some (js "sk-test")) initialState
  = (initialState, None).
Proof. reflexivity. Qed.

End ChatSpec.

(* ================================================================== *)
(** * Further properties *)

(** ** Regular expressions: what a match consumes *)

Module RegexMore.

Import JsFacts RegexFacts.

(** A match at the start of [s] takes a prefix of [s]. *)
Lemma exec_prefix re : forall s rest,
  exec re s = Some rest -> exists m, s = m ++ rest.
Proof.
  induction re as [|[p|p|] re IH]; intros s rest E.
  - injection E as ->. now exists [].
  - destruct s as [|c r]; [discriminate|]. rewrite exec_chr_cons in E.
    destruct (p c); [|discriminate].
    destruct (IH r rest E) as [m ->]. now exists (c :: m).
  - revert rest E. induction s as [|c r IHs]; intros rest E.
    + rewrite exec_many_nil in E. now apply IH.
    + rewrite exec_many_cons in E. destruct (p c); [|now apply IH].
      destruct (exec (Many p :: re) r) as [x|] eqn:M; [|now apply IH].
      injection E as ->. destruct (IHs rest eq_refl) as [m ->].
      now exists (c :: m).
  - destruct s; [|discriminate]. now apply IH.
Qed.

(** After a pattern that ends with a greedy star, no character of the
    starred class follows. *)
Lemma exec_last_many p re : forall s rest,
  exec (re ++ [Many p]) s = Some rest ->
  match rest with [] => True | c :: _ => p c = false end.
Proof.
  induction re as [|[q|q|] re IH]; intros s rest; simpl app.
  - revert rest. induction s as [|c r IHs]; intros rest E.
    + rewrite exec_many_nil in E. injection E as <-. exact I.
    + rewrite exec_many_cons in E. destruct (p c) eqn:P.
      * destruct (exec [Many p] r) as [x|] eqn:M.
        -- injection E as ->. now apply IHs.
        -- destruct (exec_many_complete p [] [] r r eq_refl eq_refl) as [x X].
           change ([] ++ r) with r in X. rewrite M in X. discriminate.
      * injection E as <-. exact P.
  - destruct s as [|c r]; [discriminate|]. rewrite exec_chr_cons.
    destruct (q c); [apply IH|discriminate].
  - revert rest. induction s as [|c r IHs]; intros rest E.
    + rewrite exec_many_nil in E. now apply (IH []).
    + rewrite exec_many_cons in E. destruct (q c); [|now apply (IH (c :: r))].
      destruct (exec (Many q :: re ++ [Many p]) r) as [x|] eqn:M;
        [|now apply (IH (c :: r))].
      injection E as ->. now apply IHs.
  - destruct s; [|discriminate]. intros E. now apply (IH []).
Qed.

(** After a pattern that ends with [p+], the character just before the
    rest is of class [p]. *)
Lemma exec_last_plus p re : forall s rest,
  exec (re ++ Some1 p) s = Some rest ->
  exists m c, s = m ++ c :: rest /\ p c = true.
Proof.
  induction re as [|[q|q|] re IH]; intros s rest; simpl app.
  - unfold Some1. destruct s as [|c r]; [discriminate|].
    rewrite exec_chr_cons. destruct (p c) eqn:P; [|discriminate].
    intros E. apply exec_many in E. destruct E as (w & s' & -> & W & E).
    injection E as ->.
    destruct w as [|d w] using rev_ind.
    + exists [], c. auto.
    + exists (c :: w), d. rewrite <- app_assoc. split; auto.
      rewrite forallb_app in W. apply andb_prop in W. destruct W as [_ D].
      simpl in D. now rewrite andb_true_r in D.
  - destruct s as [|c r]; [discriminate|]. rewrite exec_chr_cons.
    destruct (q c); [|discriminate]. intros E.
    destruct (IH r rest E) as (m & d & -> & D). now exists (c :: m), d.
  - revert rest. induction s as [|c r IHs]; intros rest E.
    + rewrite exec_many_nil in E. now apply (IH []).
    + rewrite exec_many_cons in E. destruct (q c); [|now apply (IH (c :: r))].
      destruct (exec (Many q :: re ++ Some1 p) r) as [x|] eqn:M;
        [|now apply (IH (c :: r))].
      injection E as ->. destruct (IHs rest eq_refl) as (m & d & -> & D).
      now exists (c :: m), d.
  - destruct s; [|discriminate]. intros E. now apply (IH []).
Qed.

(** A pattern [\s*] then one character of a class without spaces: the
    character is the first non-space character of the input. *)
Lemma exec_first p re s rest :
  (forall c, p c = true -> isSpace c = false) ->
  exec (Many isSpace :: Chr p :: re) s = Some rest ->
  exists c t, trimStart s = c :: t /\ p c = true.
Proof.
  intros N E. apply exec_many in E. destruct E as (w & s' & -> & W & E).
  destruct s' as [|c t]; [discriminate|]. rewrite exec_chr_cons in E.
  destruct (p c) eqn:P; [|discriminate].
  exists c, t. rewrite trimStart_app_space by assumption.
  split; [apply trimStart_nospace; auto|exact P].
Qed.

End RegexMore.

(** ** The formatter: more on lines, markers and blocks *)

Module FormatterMore.

Import JsFacts RegexFacts LineFacts FuelFacts ItemFacts UnitFacts RegexMore.

(** Comparisons of code units that hypotheses decide. *)
Ltac decide_cmp :=
  repeat match goal with
    | |- context [(?a =? ?b)%N] =>
        first [ rewrite (proj2 (N.eqb_eq a b)) by lia
              | rewrite (proj2 (N.eqb_neq a b)) by lia ]
    | |- context [(?a <=? ?b)%N] =>
        first [ rewrite (proj2 (N.leb_le a b)) by lia
              | rewrite (proj2 (N.leb_gt a b)) by lia ]
    end.

Lemma digit_range c : isDigit c = true -> (48 <= c <= 57)%N.
Proof.
  unfold isDigit. intros H. apply andb_prop in H. destruct H as [A B].
  apply N.leb_le in A, B. lia.
Qed.

Lemma bullet_cases c : isBulletChar c = true -> c = 45%N \/ c = 42%N \/ c = 8226%N.
Proof.
  unfold isBulletChar. intros H.
  apply orb_prop in H. destruct H as [H|H]; [apply orb_prop in H; destruct H as [H|H]|];
    apply N.eqb_eq in H; auto.
Qed.

Lemma letter_cases a b c : letter a b c = true -> c = a \/ c = b.
Proof.
  unfold letter. intros H. apply orb_prop in H.
  destruct H as [H|H]; apply N.eqb_eq in H; auto.
Qed.

Lemma digit_nospace c : isDigit c = true -> isSpace c = false.
Proof.
  intros H. apply digit_range in H. unfold isSpace. decide_cmp. reflexivity.
Qed.

Lemma bullet_nospace c : isBulletChar c = true -> isSpace c = false.
Proof.
  intros H. apply bullet_cases in H. destruct H as [-> | [-> | ->]]; reflexivity.
Qed.

Lemma stepS_nospace c : letter 115 83 c = true -> isSpace c = false.
Proof.
  intros H. apply letter_cases in H. destruct H as [-> | ->]; reflexivity.
Qed.

(** The first non-space character of a marker line. *)
Lemma numbered_first l : test reNumbered l = true ->
  exists c t, trimStart l = c :: t /\ isDigit c = true.
Proof.
  unfold test, find. cbn [caret body reNumbered Some1 app].
  destruct (exec _ l) as [rest|] eqn:E; [|discriminate]. intros _.
  exact (exec_first isDigit _ l rest digit_nospace E).
Qed.

Lemma bullet_first l : test reBullet l = true ->
  exists c t, trimStart l = c :: t /\ isBulletChar c = true.
Proof.
  unfold test, find. cbn [caret body reBullet].
  destruct (exec _ l) as [rest|] eqn:E; [|discriminate]. intros _.
  exact (exec_first isBulletChar _ l rest bullet_nospace E).
Qed.

Lemma step_first l : test reStep l = true ->
  exists c t, trimStart l = c :: t /\ letter 115 83 c = true.
Proof.
  unfold test, find. cbn [caret body reStep app].
  destruct (exec _ l) as [rest|] eqn:E; [|discriminate]. intros _.
  exact (exec_first (letter 115 83) _ l rest stepS_nospace E).
Qed.

Lemma exclusive_numbered_bullet l :
  test reNumbered l = true -> test reBullet l = false.
Proof.
  intros N. destruct (test reBullet l) eqn:B; auto. exfalso.
  destruct (numbered_first l N) as (c & t & E & D).
  destruct (bullet_first l B) as (c' & t' & E' & D').
  rewrite E in E'. injection E' as <- _.
  apply digit_range in D. apply bullet_cases in D'. lia.
Qed.

Lemma exclusive_numbered_step l :
  test reNumbered l = true -> test reStep l = false.
Proof.
  intros N. destruct (test reStep l) eqn:B; auto. exfalso.
  destruct (numbered_first l N) as (c & t & E & D).
  destruct (step_first l B) as (c' & t' & E' & D').
  rewrite E in E'. injection E' as <- _.
  apply digit_range in D. apply letter_cases in D'. lia.
Qed.

Lemma exclusive_bullet_step l :
  test reBullet l = true -> test reStep l = false.
Proof.
  intros N. destruct (test reStep l) eqn:B; auto. exfalso.
  destruct (bullet_first l N) as (c & t & E & D).
  destruct (step_first l B) as (c' & t' & E' & D').
  rewrite E in E'. injection E' as <- _.
  apply bullet_cases in D. apply letter_cases in D'. lia.
Qed.

(** *** What stripping a marker leaves *)

Lemma trimStart_length s : length (trimStart s) <= length s.
Proof.
  destruct (trimStart_split s) as (w & E & _).
  rewrite E at 2. rewrite length_app. lia.
Qed.

Lemma trimEnd_idem s : trimEnd (trimEnd s) = trimEnd s.
Proof. unfold trimEnd. now rewrite rev_involutive, trimStart_idem. Qed.

Lemma trim_fixed_end l : trim l = l -> trimEnd l = l.
Proof. intros T. rewrite <- T at 1. unfold trim. rewrite trimEnd_idem. exact T. Qed.

Lemma trim_fixed_last x c : trim (x ++ [c]) = x ++ [c] -> isSpace c = false.
Proof.
  intros T. destruct (isSpace c) eqn:C; auto. exfalso.
  rewrite trim_app_space in T by (simpl; now rewrite C).
  pose proof (trim_length x) as L. rewrite T, length_app in L. simpl in L. lia.
Qed.

(** A tail of a trimmed line that does not start with a space is
    trimmed. *)
Lemma trim_tail l m rest :
  trim l = l -> l = m ++ rest ->
  match rest with [] => True | c :: _ => isSpace c = false end ->
  trim rest = rest.
Proof.
  intros T E H. destruct rest as [|c r]; [reflexivity|].
  unfold trim. rewrite (trimStart_nospace c r H).
  destruct (exists_last (l:=c :: r)) as (x & d & R); [discriminate|].
  rewrite R. assert (D : isSpace d = false).
  { apply (trim_fixed_last (m ++ x)). rewrite <- app_assoc, <- R, <- E. exact T. }
  unfold trimEnd. rewrite rev_app_distr. simpl.
  rewrite D. simpl. now rewrite rev_involutive.
Qed.

Lemma marker_consumes p re s rest :
  exec (Many isSpace :: Chr p :: re) s = Some rest ->
  exists mk, mk <> [] /\ s = mk ++ rest.
Proof.
  intros E. apply exec_many in E. destruct E as (w & s' & -> & _ & E).
  destruct s' as [|c t]; [discriminate|]. rewrite exec_chr_cons in E.
  destruct (p c); [|discriminate].
  apply exec_prefix in E. destruct E as [m ->].
  exists (w ++ c :: m). split.
  - destruct w; discriminate.
  - now rewrite <- app_assoc.
Qed.

Lemma rest_after_star pre l rest :
  trim l = l -> exec (pre ++ [Many isSpace]) l = Some rest ->
  trim rest = rest.
Proof.
  intros T E. destruct (exec_prefix _ _ _ E) as [m L].
  exact (trim_tail l m rest T L (exec_last_many _ _ _ _ E)).
Qed.

Lemma rest_after_plus pre l rest :
  trim l = l -> exec (pre ++ Some1 isSpace) l = Some rest ->
  trim rest = rest /\ rest <> [].
Proof.
  intros T E. split.
  - apply (rest_after_star (pre ++ [Chr isSpace]) l); auto.
    now rewrite <- app_assoc.
  - destruct (exec_last_plus _ _ _ _ E) as (m & c & L & S).
    intros ->. rewrite L in T. apply trim_fixed_last in T. congruence.
Qed.

(** The remainder of a marker line: the line without a non-empty
    prefix, already trimmed; not empty after a numeral or a bullet. *)
Lemma numbered_rest l :
  clean l -> test reNumbered l = true ->
  (exists mk, mk <> [] /\ l = mk ++ strip reNumbered l)
  /\ trim (strip reNumbered l) = strip reNumbered l
  /\ strip reNumbered l <> [].
Proof.
  intros (_ & T & _). unfold test, strip, find. cbn [caret body reNumbered].
  destruct (exec _ l) as [rest|] eqn:E; [|discriminate]. intros _. simpl app.
  split; [exact (marker_consumes _ _ _ _ E)|].
  apply (rest_after_plus [Many isSpace; Chr isDigit; Many isDigit; Chr isDotParen] l);
    auto.
Qed.

Lemma bullet_rest l :
  clean l -> test reBullet l = true ->
  (exists mk, mk <> [] /\ l = mk ++ strip reBullet l)
  /\ trim (strip reBullet l) = strip reBullet l
  /\ strip reBullet l <> [].
Proof.
  intros (_ & T & _). unfold test, strip, find. cbn [caret body reBullet].
  destruct (exec _ l) as [rest|] eqn:E; [|discriminate]. intros _. simpl app.
  split; [exact (marker_consumes _ _ _ _ E)|].
  apply (rest_after_plus [Many isSpace; Chr isBulletChar] l); auto.
Qed.

Lemma step_rest l :
  clean l -> test reStep l = true ->
  (exists mk, mk <> [] /\ l = mk ++ strip reStep l)
  /\ trim (strip reStep l) = strip reStep l.
Proof.
  intros (_ & T & _). unfold test, strip, find. cbn [caret body reStep].
  destruct (exec _ l) as [rest|] eqn:E; [|discriminate]. intros _. simpl app.
  split; [exact (marker_consumes _ _ _ _ E)|].
  apply (rest_after_star
           [Many isSpace; Chr (letter 115 83); Chr (letter 116 84);
            Chr (letter 101 69); Chr (letter 112 80); Many isSpace;
            Chr isDigit; Many isDigit; Chr isColonDotParen] l); auto.
Qed.

Lemma strip_caret_notin re l c :
  caret re = true -> ~ In c l -> ~ In c (strip re l).
Proof.
  intros C N. unfold strip, find. rewrite C.
  destruct (exec (body re) l) as [rest|] eqn:E; auto.
  apply exec_prefix in E. destruct E as [m ->]. simpl.
  intros I. apply N, in_or_app. now right.
Qed.

Lemma strip_search_notin re l c :
  caret re = false -> ~ In c l -> ~ In c (strip re l).
Proof.
  intros C N. unfold strip, find. rewrite C.
  destruct (search (body re) l) as [[pre rest]|] eqn:E; auto.
  apply search_split in E. destruct E as (m & -> & E).
  apply exec_prefix in E. destruct E as [x ->].
  intros I. apply N. apply in_app_or in I.
  apply in_or_app. destruct I as [I|I]; auto.
  right. apply in_or_app. now right.
Qed.

Lemma continuation_notin marker lines c :
  c <> SP -> Forall (fun l => ~ In c l) lines ->
  ~ In c (continuation marker lines).
Proof.
  intros D F. induction F as [|l lines L _ IH]; simpl; auto.
  destruct (test marker l); simpl; auto.
  intros [E|I]; [congruence|]. apply in_app_or in I. tauto.
Qed.

Lemma itemsSpec_notin marker lines c :
  caret marker = true -> c <> SP -> Forall (fun l => ~ In c l) lines ->
  Forall (fun t => ~ In c t) (itemsSpec marker lines).
Proof.
  intros C D F. induction F as [|l lines L F IH]; simpl; auto.
  destruct (test marker l); auto. constructor; auto.
  intros I. apply in_app_or in I. destruct I as [I|I].
  - revert I. now apply trim_notin, strip_caret_notin.
  - revert I. now apply continuation_notin.
Qed.

Lemma join_notin sep lines c :
  ~ In c sep -> Forall (fun l => ~ In c l) lines -> ~ In c (join sep lines).
Proof.
  intros S F. induction F as [|l lines L F IH]; simpl; auto.
  destruct lines; auto.
  intros I. apply in_app_or in I. destruct I as [I|I]; auto.
  apply in_app_or in I. tauto.
Qed.

Lemma lines_noLF para : Forall (fun l => ~ In LF l) (linesOf para).
Proof.
  eapply Forall_impl; [|apply linesOf_clean]. now intros l (_ & _ & N).
Qed.

Lemma countMatches_one re l :
  countMatches re [l] = if test re l then 1 else 0.
Proof. unfold countMatches. simpl. now destruct (test re l). Qed.

(** X1.  The function returns no block exactly for the inputs made of
    white space only (the empty string included): every other input
    gives at least one block. *)
Theorem format_empty_iff (text : jsstring) :
  parseAssistantTextToNodes text = Some [] <-> forallb isSpace text = true.
Proof. apply format_nil. Qed.

(** X2.  No text of an output block - heading text, list item,
    paragraph text - contains a line feed: line breaks of the input only
    separate blocks, items and words. *)
Theorem block_texts_one_line (text : jsstring) :
  exists nodes,
    parseAssistantTextToNodes text = Some nodes
    /\ Forall (fun b => Forall (fun t => ~ In LF t) (blockTexts b)) nodes.
Proof.
  exists (format text). split; [apply parse_total|].
  induction text as [text IH] using length_induction.
  rewrite format_paragraphs. apply Forall_concat, Forall_map, Forall_forall.
  intros para I. pose proof (paragraph_length text para I) as L.
  pose proof (lines_noLF para) as N.
  destruct (unitNodes_cases para)
    as [(l0 & l1 & rest & E & _ & -> & R)|[_ ->]].
  - constructor; [|apply IH; lia]. simpl. constructor; auto.
    apply strip_search_notin; [reflexivity|].
    rewrite E in N. now inversion N.
  - destruct (plainNodes_cases (linesOf para))
      as [[_ ->]|[[_ ->]|[(_ & _ & _ & ->)|(_ & _ & _ & ->)]]];
      repeat constructor; simpl.
    + apply itemsSpec_notin; auto; discriminate.
    + apply itemsSpec_notin; auto; discriminate.
    + apply itemsSpec_notin; auto; discriminate.
    + apply join_notin; auto. intros [X|[]]. discriminate.
Qed.

Lemma exec_chr p re s rest :
  exec (Chr p :: re) s = Some rest ->
  exists c s', s = c :: s' /\ p c = true /\ exec re s' = Some rest.
Proof.
  destruct s as [|c r]; [discriminate|]. rewrite exec_chr_cons.
  destruct (p c) eqn:P; [|discriminate]. eauto.
Qed.

Lemma trim_first c r : trim (c :: r) = c :: r -> isSpace c = false.
Proof.
  intros T. destruct (isSpace c) eqn:C; [exfalso|reflexivity].
  assert (E : trim (c :: r) = trim r) by (unfold trim; simpl; now rewrite C).
  pose proof (trim_length r) as L. rewrite <- E, T in L. simpl in L. lia.
Qed.

(** A trimmed line has no white space for the [\s*] a marker pattern
    starts with. *)
Lemma no_indent w s :
  trim (w ++ s) = w ++ s -> forallb isSpace w = true -> w = [].
Proof.
  intros T W. destruct w as [|c w]; [reflexivity|].
  apply trim_first in T. simpl in W. rewrite T in W. discriminate.
Qed.

Ltac invert_exec E :=
  repeat match type of E with
    | exec (Many _ :: _) _ = Some _ =>
        let w := fresh "w" in
        let s := fresh "s" in
        let W := fresh "W" in
        apply exec_many in E; destruct E as (w & s & -> & W & E)
    | exec (Chr _ :: _) _ = Some _ =>
        let c := fresh "c" in
        let s := fresh "s" in
        let C := fresh "C" in
        apply exec_chr in E; destruct E as (c & s & -> & C & E)
    | exec [] _ = Some _ => simpl in E; injection E as ->
    end.

Lemma numbered_marker l :
  clean l -> test reNumbered l = true ->
  exists mk, numeralMarker mk /\ l = mk ++ strip reNumbered l.
Proof.
  intros (_ & T & _). unfold test, strip, find. cbn [caret body reNumbered].
  destruct (exec _ l) as [rest|] eqn:E; [|discriminate]. intros _.
  unfold Some1 in E. cbn [app] in E. invert_exec E.
  rewrite (no_indent _ _ T W) in *. clear W.
  exists ((c :: w0) ++ c0 :: c1 :: w1). split.
  - exists (c :: w0), c0, (c1 :: w1). simpl. rewrite C, C1, W0, W1.
    repeat split; auto; discriminate.
  - simpl. rewrite <- app_assoc. reflexivity.
Qed.

Lemma bullet_marker l :
  clean l -> test reBullet l = true ->
  exists mk, bulletMarker mk /\ l = mk ++ strip reBullet l.
Proof.
  intros (_ & T & _). unfold test, strip, find. cbn [caret body reBullet].
  destruct (exec _ l) as [rest|] eqn:E; [|discriminate]. intros _.
  unfold Some1 in E. invert_exec E.
  rewrite (no_indent _ _ T W) in *. clear W.
  exists (c :: c0 :: w0). split.
  - exists c, (c0 :: w0). simpl. rewrite C0, W0.
    repeat split; auto; discriminate.
  - reflexivity.
Qed.

Lemma step_marker l :
  clean l -> test reStep l = true ->
  exists mk, stepMarker mk /\ l = mk ++ strip reStep l.
Proof.
  intros (_ & T & _). unfold test, strip, find. cbn [caret body reStep].
  destruct (exec _ l) as [rest|] eqn:E; [|discriminate]. intros _.
  unfold Some1 in E. cbn [app] in E. invert_exec E.
  rewrite (no_indent _ _ T W) in *. clear W.
  exists (c :: c0 :: c1 :: c2 :: w0 ++ (c3 :: w1) ++ c4 :: w2). split.
  - exists c, c0, c1, c2, w0, (c3 :: w1), c4, w2. simpl. rewrite C3, W1.
    repeat split; auto; discriminate.
  - simpl. rewrite <- !app_assoc. simpl. rewrite <- !app_assoc. reflexivity.
Qed.

(** X3.  The text a marker line gives its list item is the line without
    its marker, and the [trim()] applied to it changes nothing: what
    the pattern leaves is already trimmed.  The marker is digits, a dot
    or closing parenthesis and white space; or a bullet character and
    white space; or "Step", optional white space, digits, one of colon,
    dot and parenthesis, and optional white space.  After a numeral or
    a bullet the item text is never empty; after a step marker it may
    be, as for the line "Step 1)". *)
Theorem marker_item_text :
  (forall para l,
      In l (linesOf para) ->
      (test reNumbered l = true ->
       trim (strip reNumbered l) = strip reNumbered l
       /\ strip reNumbered l <> []
       /\ exists mk, numeralMarker mk /\ l = mk ++ strip reNumbered l)
      /\ (test reBullet l = true ->
          trim (strip reBullet l) = strip reBullet l
          /\ strip reBullet l <> []
          /\ exists mk, bulletMarker mk /\ l = mk ++ strip reBullet l)
      /\ (test reStep l = true ->
          trim (strip reStep l) = strip reStep l
          /\ exists mk, stepMarker mk /\ l = mk ++ strip reStep l))
  /\ (exists para l,
         In l (linesOf para) /\ test reStep l = true
         /\ trim (strip reStep l) = []).
Proof.
  split.
  - intros para l I.
    assert (C : clean l).
    { exact (proj1 (Forall_forall _ _) (linesOf_clean para) l I). }
    split; [|split]; intros T.
    + destruct (numbered_rest l C T) as (_ & R & N).
      repeat split; auto. now apply numbered_marker.
    + destruct (bullet_rest l C T) as (_ & R & N).
      repeat split; auto. now apply bullet_marker.
    + destruct (step_rest l C T) as (_ & R).
      split; auto. now apply step_marker.
  - exists (js "Step 1)"), (js "Step 1)"). repeat split. now left.
Qed.

Lemma marker_item_text_witness :
  trim (strip reNumbered (js "12)  Rinse")) = strip reNumbered (js "12)  Rinse")
  /\ strip reNumbered (js "12)  Rinse") <> []
  /\ exists mk, numeralMarker mk
                /\ js "12)  Rinse" = mk ++ strip reNumbered (js "12)  Rinse").
Proof.
  apply (proj1 (proj1 marker_item_text (js "  12)  Rinse ") (js "12)  Rinse")
                  (or_introl eq_refl))).
  reflexivity.
Defined.

(** An empty item after a step marker. *)
Example step_item_empty :
  parseAssistantTextToNodes (js "Step 1)" ++ LF :: js "Step 2) Tone")
  = Some [OrderedList [[]; js "Tone"]].
Proof. reflexivity. Qed.

(** X4.  A line matches at most one of the three marker patterns
    (numbered, bulleted, step). *)
Theorem markers_exclusive (l : jsstring) :
  Nat.b2n (test reNumbered l) + Nat.b2n (test reBullet l)
  + Nat.b2n (test reStep l) <= 1.
Proof.
  destruct (test reNumbered l) eqn:N.
  - rewrite (exclusive_numbered_bullet l N), (exclusive_numbered_step l N).
    simpl. lia.
  - destruct (test reBullet l) eqn:B.
    + rewrite (exclusive_bullet_step l B). simpl. lia.
    + destruct (test reStep l); simpl; lia.
Qed.

(** X5.  A unit of a single line is never a heading and never a step
    list: it is a one-item ordered list if the line has a numeral
    marker, a one-item unordered list if it has a bullet, and otherwise
    a paragraph holding the line as it is. *)
Theorem single_line_unit (para l : jsstring) :
  linesOf para = [l] -> unitNodes para = oneLineNodes l.
Proof.
  intros E. pose proof (linesOf_clean para) as C. rewrite E in C.
  inversion C as [|? ? Cl _]; subst.
  rewrite unitNodes_plain by (rewrite E; reflexivity). rewrite E.
  unfold plainNodes, oneLineNodes. rewrite !countMatches_one, !listItems_spec.
  simpl itemsSpec.
  destruct (test reNumbered l) eqn:N.
  - rewrite (exclusive_numbered_bullet l N). simpl.
    destruct (numbered_rest l Cl N) as (_ & -> & _). now rewrite app_nil_r.
  - destruct (test reBullet l) eqn:B; simpl.
    + destruct (bullet_rest l Cl B) as (_ & -> & _). now rewrite app_nil_r.
    + destruct (test reStep l); reflexivity.
Qed.

Lemma single_line_unit_witness :
  unitNodes (js "  Step 1: Cleanse:  ") = [Paragraph (js "Step 1: Cleanse:")].
Proof. exact (single_line_unit (js "  Step 1: Cleanse:  ") _ eq_refl). Defined.

(** X6.  The output never has more blocks than the input has non-empty
    lines. *)
Theorem blocks_at_most_lines (text : jsstring) :
  exists nodes,
    parseAssistantTextToNodes text = Some nodes
    /\ length nodes <= length (linesOf (replaceCRLF text)).
Proof.
  exists (format text). split; [apply parse_total|].
  induction text as [text IH] using length_induction.
  rewrite format_paragraphs, <- paragraphs_lines.
  assert (P : forall para, In para (paragraphsOf text) ->
                           length (unitNodes para) <= length (linesOf para)).
  { intros para I. pose proof (paragraph_length text para I) as L.
    destruct (unitNodes_cases para)
      as [(l0 & l1 & rest & E & _ & -> & R)|[_ ->]].
    - specialize (IH (join [LF] (l1 :: rest))).
      rewrite linesOf_replaceCRLF, linesOf_join in IH.
      + rewrite E. simpl in *. lia.
      + pose proof (linesOf_clean para) as K. rewrite E in K. now inversion K.
    - pose proof (paragraph_lines text para I).
      destruct (plainNodes_cases (linesOf para))
        as [[_ ->]|[[_ ->]|[(_ & _ & _ & ->)|(_ & _ & _ & ->)]]];
        destruct (linesOf para); simpl; try congruence; lia. }
  induction (paragraphsOf text) as [|p ps IHp]; simpl; auto.
  rewrite !length_app.
  pose proof (P p (or_introl eq_refl)).
  assert (length (concat (map unitNodes ps)) <= length (concat (map linesOf ps))).
  { apply IHp. intros para I. apply P. now right. }
  lia.
Qed.

(** X7.  The numbered and the bulleted rule: a unit the heading rule
    leaves alone, with at least one numbered line and no bulleted line,
    is one OrderedList, and with at least one bulleted line and no
    numbered line one UnorderedList; its items are one per marker line,
    each followed by its continuation lines after single spaces.  A unit
    with both kinds of marker lines is neither: with fewer than two step
    lines it is a Paragraph of all its lines. *)
Theorem numbered_bullet_rules (para : jsstring) :
  noHeading (linesOf para) ->
  let lines := linesOf para in
  let numbered := countMatches reNumbered lines in
  let bullets := countMatches reBullet lines in
  (1 <= numbered -> bullets = 0 ->
   unitNodes para = [OrderedList (itemsSpec reNumbered lines)]
   /\ length (itemsSpec reNumbered lines) = numbered)
  /\ (1 <= bullets -> numbered = 0 ->
      unitNodes para = [UnorderedList (itemsSpec reBullet lines)]
      /\ length (itemsSpec reBullet lines) = bullets)
  /\ (1 <= numbered -> 1 <= bullets -> countMatches reStep lines < 2 ->
      unitNodes para = [Paragraph (join [SP] lines)]).
Proof.
  intros H lines numbered bullets. rewrite (unitNodes_plain para H).
  fold lines. unfold plainNodes. fold numbered bullets.
  rewrite !listItems_spec, !itemsSpec_length.
  split; [|split].
  - intros N B. split; [|reflexivity]. rewrite B.
    destruct numbered; [lia|reflexivity].
  - intros B N. split; [|reflexivity]. rewrite N.
    destruct bullets; [lia|reflexivity].
  - intros N B St. destruct numbered; [lia|]. destruct bullets; [lia|].
    apply Nat.leb_gt in St. rewrite St. reflexivity.
Qed.

Lemma numbered_bullet_rules_witness :
  unitNodes (js "* Cleanser" ++ LF :: js "  foaming" ++ LF :: js "- Toner")
  = [UnorderedList [js "Cleanser foaming"; js "Toner"]].
Proof.
  apply (proj1 (proj2 (numbered_bullet_rules
                         (js "* Cleanser" ++ LF :: js "  foaming" ++ LF :: js "- Toner")
                         eq_refl)));
    [vm_compute; repeat constructor|reflexivity].
Defined.

End FormatterMore.

(** ** The formatter on lines *)

Module LinesMore.

Import JsFacts RegexFacts LineFacts FuelFacts ItemFacts UnitFacts.

(** *** Runs of non-empty lines *)

Lemma runsFrom_truthy mid : Forall (fun l => truthy l = true) mid ->
  forall cur rest, runsFrom cur (mid ++ rest) = runsFrom (cur ++ mid) rest.
Proof.
  induction 1 as [|l mid T _ IH]; intros cur rest.
  - now rewrite app_nil_r.
  - simpl. rewrite T, IH, <- app_assoc. reflexivity.
Qed.

Lemma runsFrom_blank a : forall cur b,
  runsFrom cur (a ++ [] :: b) = runsFrom cur a ++ runsFrom [] b.
Proof.
  induction a as [|l a IH]; intros cur b; simpl.
  - reflexivity.
  - destruct (truthy l).
    + apply IH.
    + now rewrite IH, app_assoc.
Qed.

Lemma runsFrom_blanks bs : Forall (fun l => l = []) bs ->
  forall b, runsFrom [] (bs ++ b) = runsFrom [] b.
Proof.
  induction 1 as [|l bs E _ IH]; intros b; simpl; auto.
  subst l. simpl. apply IH.
Qed.

Lemma filter_truthy_all mid :
  Forall (fun l => truthy l = true) mid -> filter truthy mid = mid.
Proof.
  induction 1 as [|l mid T _ IH]; simpl; auto. now rewrite T, IH.
Qed.

Lemma runsFrom_last mid t cur : Forall (fun l => truthy l = true) mid ->
  runsFrom cur (mid ++ [t]) = closeRun (cur ++ filter truthy (mid ++ [t])).
Proof.
  intros M. rewrite runsFrom_truthy by assumption.
  rewrite filter_app, filter_truthy_all by assumption. simpl.
  destruct (truthy t); simpl.
  - now rewrite app_assoc.
  - now rewrite !app_nil_r.
Qed.

(** A list with gaps at its two ends only holds one run at most. *)
Lemma one_run ls : innerFull ls -> runsFrom [] ls = closeRun (filter truthy ls).
Proof.
  intros F. destruct ls as [|t0 ls]; [reflexivity|].
  assert (E : ls = [] \/ exists mid tk, ls = mid ++ [tk])
    by (induction ls using rev_ind; eauto).
  destruct E as [->|(mid & tk & ->)].
  - simpl. destruct (truthy t0); reflexivity.
  - assert (M : Forall (fun l => truthy l = true) mid).
    { apply Forall_forall. intros m I.
      apply in_split in I. destruct I as (m1 & m2 & ->).
      apply (F (t0 :: m1) m (m2 ++ [tk])).
      - simpl. now rewrite <- app_assoc.
      - discriminate.
      - destruct m2; discriminate. }
    simpl. destruct (truthy t0).
    + now rewrite runsFrom_last.
    + now rewrite runsFrom_last.
Qed.

(** *** Lines and [join] *)

Lemma join_splitOn c p : join [c] (splitOn c p) = p.
Proof.
  induction p as [|d r IH]; [reflexivity|].
  pose proof (splitOn_not_nil c r) as N.
  destruct (N.eq_dec d c) as [->|D].
  - rewrite splitOn_cons_sep.
    destruct (splitOn c r) as [|x xs]; [congruence|].
    change (join [c] ([] :: x :: xs)) with (c :: join [c] (x :: xs)).
    now rewrite IH.
  - rewrite splitOn_cons by assumption.
    destruct (splitOn c r) as [|x xs]; [congruence|]. simpl hd. simpl tl.
    destruct xs as [|y xs].
    + simpl in *. now rewrite IH.
    + change (join [c] ((d :: x) :: y :: xs))
        with (d :: join [c] (x :: y :: xs)).
      now rewrite IH.
Qed.

Lemma join_app c a b : a <> [] -> b <> [] ->
  join [c] (a ++ b) = join [c] a ++ c :: join [c] b.
Proof.
  intros A B. induction a as [|x a IH]; [congruence|].
  destruct a as [|y a].
  - destruct b as [|z b]; [congruence|]. reflexivity.
  - change (join [c] ((x :: y :: a) ++ b))
      with (x ++ c :: join [c] ((y :: a) ++ b)).
    rewrite IH by discriminate.
    change (join [c] (x :: y :: a)) with (x ++ c :: join [c] (y :: a)).
    now rewrite <- app_assoc.
Qed.

Lemma splitOn_join ls : Forall (fun l => ~ In LF l) ls -> ls <> [] ->
  splitOn LF (join [LF] ls) = ls.
Proof.
  induction 1 as [|l ls L _ IH]; [congruence|]. intros _.
  destruct ls as [|l2 ls].
  - now apply splitOn_nosep.
  - change (join [LF] (l :: l2 :: ls)) with (l ++ LF :: join [LF] (l2 :: ls)).
    rewrite splitOn_app_sep, IH, splitOn_nosep by (auto; discriminate).
    reflexivity.
Qed.

(** *** One part of the split *)

Lemma noBlankIn_inner p tail a w b :
  noBlankIn p tail -> p = a ++ LF :: w ++ LF :: b ->
  forallb isSpace w = true -> False.
Proof.
  intros N E W.
  destruct (exec_reBlank_complete w (b ++ tail) W) as [r R].
  specialize (N a (LF :: w ++ LF :: b) E ltac:(discriminate)).
  replace ((LF :: w ++ LF :: b) ++ tail) with (LF :: w ++ LF :: b ++ tail) in N
    by (simpl; now rewrite <- app_assoc).
  congruence.
Qed.

Lemma part_innerFull p tail :
  noBlankIn p tail -> innerFull (map trim (splitOn LF p)).
Proof.
  intros N pre m post E Pre Post.
  apply map_eq_app in E. destruct E as (l1 & l2 & E & E1 & E2).
  apply map_eq_cons in E2. destruct E2 as (x & l3 & -> & T & E3).
  destruct m as [|c m]; [exfalso|reflexivity].
  assert (J : p = join [LF] l1 ++ LF :: x ++ LF :: join [LF] l3).
  { assert (L1 : l1 <> []) by (intros ->; apply Pre; now subst pre).
    assert (L3 : l3 <> []) by (intros ->; apply Post; now subst post).
    rewrite <- (join_splitOn LF p), E.
    rewrite join_app by (auto; discriminate).
    f_equal. f_equal.
    apply (join_app LF [x] l3); [discriminate|assumption]. }
  apply (noBlankIn_inner _ _ _ _ _ N J). now apply trim_nil.
Qed.

Lemma part_runs p tail :
  noBlankIn p tail ->
  runsFrom [] (map trim (splitOn LF p)) = closeRun (linesOf p).
Proof. intros N. apply one_run. now apply (part_innerFull p tail). Qed.

Lemma blank_lines w : forallb isSpace w = true ->
  exists bs, map trim (splitOn LF w) = [] :: bs
             /\ Forall (fun l => l = []) bs.
Proof.
  intros W. pose proof (splitOn_allspace LF w W) as F.
  assert (G : Forall (fun l => l = []) (map trim (splitOn LF w))).
  { induction F as [|x xs X _ IH]; simpl; constructor; auto.
    now apply trim_allspace. }
  pose proof (splitOn_not_nil LF w) as N.
  destruct (splitOn LF w) as [|x xs]; [congruence|].
  simpl in *. inversion G as [|? ? G1 G2]; subst.
  rewrite G1. eauto.
Qed.

Lemma lines_of_parts ps :
  map linesOf (filter truthy (map trim ps))
  = concat (map (fun p => closeRun (linesOf p)) ps).
Proof.
  induction ps as [|p ps IH]; simpl; auto.
  destruct (trim p) as [|c t] eqn:T; simpl.
  - rewrite <- (linesOf_trim p), T. simpl. exact IH.
  - rewrite <- T, linesOf_trim, IH.
    destruct (linesOf p) eqn:L; [|reflexivity].
    apply linesOf_nil, trim_allspace in L. congruence.
Qed.

(** The scan of [split]: the parts are the runs of lines. *)
Lemma splitGo_runs n : forall s cur, length s <= n ->
  noBlankIn (rev cur) s ->
  concat (map (fun p => closeRun (linesOf p)) (splitGo 0 s cur))
  = runsFrom [] (map trim (splitOn LF (rev cur ++ s))).
Proof.
  induction n as [|n IH]; intros s cur L N.
  - destruct s; [|simpl in L; lia]. simpl. rewrite !app_nil_r.
    symmetry. now apply (part_runs _ []).
  - destruct s as [|c r].
    { simpl. rewrite !app_nil_r. symmetry. now apply (part_runs _ []). }
    destruct (exec reBlank (c :: r)) as [rest|] eqn:E.
    + rewrite (splitGo_found c r rest cur E). simpl.
      pose proof (part_runs _ _ N) as P.
      apply exec_reBlank in E. destruct E as (w & E & W).
      rewrite E. rewrite IH.
      * simpl. rewrite !splitOn_app_sep, !map_app.
        destruct (blank_lines w W) as (bs & -> & B).
        simpl. rewrite runsFrom_blank, runsFrom_blanks by assumption.
        now rewrite P.
      * injection E as -> ->. simpl in L. rewrite length_app in L.
        simpl in L. lia.
      * intros a b A B. destruct a; destruct b; simpl in A; congruence.
    + cbn [splitGo]. rewrite E, IH.
      * simpl. now rewrite <- app_assoc.
      * simpl in L. lia.
      * intros a b A B.
        assert (X : b = [] \/ exists b' d, b = b' ++ [d])
          by (induction b using rev_ind; eauto).
        destruct X as [->|(b' & d & ->)]; [congruence|].
        simpl in A. rewrite app_assoc in A.
        apply app_inj_tail in A. destruct A as [A <-].
        rewrite <- app_assoc. simpl.
        destruct b' as [|d b']; [exact E|].
        apply (N a (d :: b') A). discriminate.
Qed.

(** *** What the normalization leaves of the lines *)

Lemma lineRuns_cons_space c s :
  isSpace c = true -> lineRuns (c :: s) = lineRuns s.
Proof.
  intros C. unfold lineRuns. destruct (N.eq_dec c LF) as [->|D].
  - rewrite splitOn_cons_sep. reflexivity.
  - rewrite splitOn_cons by assumption.
    pose proof (splitOn_not_nil LF s).
    destruct (splitOn LF s) as [|p ps]; [congruence|]. simpl hd. simpl tl.
    cbn [map]. change (c :: p) with ([c] ++ p).
    rewrite trim_space_app; auto. simpl. now rewrite C.
Qed.

Lemma lineRuns_snoc_space s c :
  isSpace c = true -> lineRuns (s ++ [c]) = lineRuns s.
Proof.
  intros C. unfold lineRuns. destruct (N.eq_dec c LF) as [->|D].
  - rewrite splitOn_app_sep, map_app. cbn [splitOn map].
    change (trim []) with (@nil char).
    rewrite runsFrom_blank. apply app_nil_r.
  - destruct (splitOn_snoc LF c s D) as (ps & q & E1 & E2).
    rewrite E1, E2, !map_app. simpl.
    rewrite trim_app_space; auto. simpl. now rewrite C.
Qed.

Lemma lineRuns_trim s : lineRuns (trim s) = lineRuns s.
Proof.
  destruct (trim_split s) as (a & b & E & A & B).
  rewrite E at 2. clear E.
  induction a as [|c a IH]; simpl.
  - induction b as [|c b IH] using rev_ind.
    + now rewrite app_nil_r.
    + rewrite forallb_app in B. apply andb_prop in B. destruct B as [B C].
      simpl in C. rewrite andb_true_r in C.
      rewrite app_assoc, lineRuns_snoc_space; auto.
  - simpl in A. apply andb_prop in A. destruct A as [C A].
    rewrite lineRuns_cons_space; auto.
Qed.

Lemma lines_replaceCRLF s :
  map trim (splitOn LF (replaceCRLF s)) = map trim (splitOn LF s).
Proof.
  destruct (splitOn_replaceCRLF (length s) s (le_n _))
    as (p & ps & p' & ps' & E1 & E2 & P & T).
  rewrite E1, E2. simpl. rewrite T.
  destruct P as [->| ->]; auto. rewrite trim_app_space; auto.
Qed.

Lemma paragraph_runs text : map linesOf (paragraphsOf text) = lineRuns text.
Proof.
  unfold paragraphsOf, splitBlank. rewrite lines_of_parts.
  rewrite (splitGo_runs _ _ [] (le_n _)).
  - change (rev [] ++ ?s) with s.
    change (runsFrom [] (map trim (splitOn LF ?s))) with (lineRuns s).
    rewrite lineRuns_trim. unfold lineRuns. now rewrite lines_replaceCRLF.
  - intros a b A B. destruct a; destruct b; simpl in A; congruence.
Qed.

Lemma lineRuns_join ls : Forall clean ls -> ls <> [] ->
  lineRuns (join [LF] ls) = [ls].
Proof.
  intros C N. unfold lineRuns. rewrite splitOn_join; auto.
  - assert (T : map trim ls = ls).
    { clear N. induction C as [|l ls (_ & T & _) _ IH]; simpl; auto.
      now rewrite T, IH. }
    rewrite T. rewrite <- (app_nil_r ls) at 1.
    rewrite runsFrom_truthy.
    + simpl. destruct ls; [congruence|reflexivity].
    + eapply Forall_impl; [|exact C]. intros l (Nl & _).
      destruct l; [congruence|reflexivity].
  - eapply Forall_impl; [|exact C]. intros l (_ & _ & L). exact L.
Qed.

Lemma linesNodes_plain lines :
  noHeading lines -> linesNodes lines = plainNodes lines.
Proof.
  unfold noHeading. destruct lines as [|l0 [|l1 rest]]; auto.
  simpl. now intros ->.
Qed.

Lemma linesNodes_heading l0 l1 rest :
  test reColonEnd l0 = true ->
  linesNodes (l0 :: l1 :: rest)
  = Heading (strip reColonEnd l0) :: linesNodes (l1 :: rest).
Proof. intros T. simpl. now rewrite T. Qed.

(** A unit's blocks depend on its lines only. *)
Lemma unit_lines : forall para, unitNodes para = linesNodes (linesOf para).
Proof.
  apply (length_induction (fun para => unitNodes para = linesNodes (linesOf para))).
  intros para IH.
  destruct (unitNodes_cases para)
    as [(l0 & l1 & rest & E & T & U & L)|[H U]].
  - rewrite U, E, linesNodes_heading by assumption. f_equal.
    pose proof (linesOf_clean para) as C. rewrite E in C.
    inversion C as [|? ? _ C']; subst.
    pose proof (paragraph_runs (join [LF] (l1 :: rest))) as R.
    rewrite lineRuns_join in R by (auto; discriminate).
    rewrite format_paragraphs.
    destruct (paragraphsOf (join [LF] (l1 :: rest))) as [|p [|p2 ps]] eqn:P;
      try discriminate.
    simpl in R. injection R as R. cbn [map concat].
    rewrite app_nil_r, <- R.
    apply IH.
    assert (I : In p (paragraphsOf (join [LF] (l1 :: rest))))
      by (rewrite P; now left).
    apply paragraph_length in I. lia.
  - rewrite U. symmetry. now apply linesNodes_plain.
Qed.

Lemma format_lines text :
  format text = concat (map linesNodes (lineRuns text)).
Proof.
  rewrite format_paragraphs, <- paragraph_runs, map_map.
  f_equal. apply map_ext. exact unit_lines.
Qed.

(** *** Statements *)

Example line_runs :
  lineRuns (js "Morning:" ++ LF :: js "  1. Wash" ++ CR :: LF :: js " " ++ LF
            :: LF :: js "Done")
  = [[js "Morning:"; js "1. Wash"]; [js "Done"]].
Proof. reflexivity. Qed.

(** X24.  The paragraphs that [split(/\n\s*\n/)], [trim] and
    [filter(Boolean)] produce are the maximal runs of non-blank lines of
    the text: the lines of the paragraphs, paragraph by paragraph, are
    the runs of non-empty strings among the trimmed lines of the input.
    Any number of blank or whitespace-only lines separates two units,
    and none at the start or the end of the text makes a unit. *)
Theorem paragraphs_are_runs (text : jsstring) :
  map linesOf (paragraphsOf text) = lineRuns text.
Proof. exact (paragraph_runs text). Qed.

(** X25.  [parseAssistantTextToNodes] computes, without its recursion on
    texts: cut the trimmed lines of the input into runs of non-empty
    lines; in each run turn every leading line that ends with a colon and
    has a line below it into a heading; classify the lines that remain
    as a numbered list, a bullet list, a list of steps or a paragraph. *)
Theorem format_by_lines (text : jsstring) :
  parseAssistantTextToNodes text
  = Some (concat (map linesNodes (lineRuns text))).
Proof. rewrite parse_total, format_lines. reflexivity. Qed.

(** X26.  Two texts with the same lines up to the whitespace around each
    line give the same blocks: indentation, trailing spaces and a CR
    before a line break are invisible. *)
Theorem same_lines_same_blocks (a b : jsstring) :
  map trim (splitOn LF a) = map trim (splitOn LF b) ->
  parseAssistantTextToNodes a = parseAssistantTextToNodes b.
Proof.
  intros E. rewrite !parse_total, !format_lines. unfold lineRuns.
  now rewrite E.
Qed.

Lemma same_lines_same_blocks_witness :
  parseAssistantTextToNodes
    (js "  Tips:" ++ CR :: LF :: js "- one  " ++ LF :: js "two")
  = parseAssistantTextToNodes
      (js "Tips:" ++ LF :: 9%N :: js "- one" ++ LF :: js "   two").
Proof. apply same_lines_same_blocks. reflexivity. Defined.

(** X27.  The function gives the same blocks for a text, for the text
    with CR LF replaced by LF and for the trimmed text; so the
    replacement and the trimming it starts with could be applied any
    number of times, and a text with CR LF line ends reads as the same
    text with LF line ends. *)
Theorem normalization_invisible (text : jsstring) :
  parseAssistantTextToNodes (replaceCRLF text) = parseAssistantTextToNodes text
  /\ parseAssistantTextToNodes (trim text) = parseAssistantTextToNodes text.
Proof.
  rewrite !parse_total, !format_lines, lineRuns_trim. unfold lineRuns.
  now rewrite lines_replaceCRLF.
Qed.

End LinesMore.

(** ** The formatter and the call stack *)

Module FormatterStack.

Import JsFacts RegexFacts LineFacts FuelFacts ItemFacts UnitFacts LinesMore.

Lemma parse_some_format n text nodes :
  parse n text = Some nodes -> nodes = format text.
Proof.
  intros P. pose proof (parse_total text) as Q.
  unfold parseAssistantTextToNodes in Q.
  apply (parse_stable _ _ _ (n + S (length text))) in P; [|lia].
  apply (parse_stable _ _ _ (n + S (length text))) in Q; [|lia].
  congruence.
Qed.

Lemma forEachPara_none f ps para :
  In para ps -> f para = None -> forall nodes, forEachPara f ps nodes = None.
Proof.
  intros I F. induction ps as [|p ps IH]; intros nodes; [easy|]. simpl.
  destruct I as [->|I]; [now rewrite F|].
  destruct (f p); auto.
Qed.

Lemma headings_step lines :
  headings lines
  = if (1 <? length lines) && test reColonEnd (hd [] lines)
    then S (headings (tl lines)) else 0.
Proof.
  destruct lines as [|l0 [|l1 rest]]; simpl; auto.
Qed.

Lemma nesting_join lines :
  Forall clean lines -> lines <> [] -> nesting (join [LF] lines) = headings lines.
Proof.
  intros C N. unfold nesting. rewrite lineRuns_join by assumption.
  simpl. apply Nat.max_0_r.
Qed.

Lemma nesting_para text para :
  In para (paragraphsOf text) -> headings (linesOf para) <= nesting text.
Proof.
  intros I. unfold nesting. rewrite <- paragraph_runs, map_map.
  assert (F : Forall (fun k => k <= list_max (map (fun p => headings (linesOf p))
                                                  (paragraphsOf text)))
                     (map (fun p => headings (linesOf p)) (paragraphsOf text)))
    by now apply list_max_le.
  rewrite Forall_forall in F. apply F.
  apply in_map_iff. eauto.
Qed.

Lemma list_max_reached l : 0 < list_max l -> In (list_max l) l.
Proof.
  induction l as [|x l IH]; simpl; [lia|]. intros P.
  destruct (Nat.max_spec x (list_max l)) as [[L ->]|[L ->]]; auto.
  right. apply IH. lia.
Qed.

Lemma nesting_reached text :
  0 < nesting text ->
  exists para, In para (paragraphsOf text)
               /\ headings (linesOf para) = nesting text.
Proof.
  unfold nesting. rewrite <- paragraph_runs, map_map. intros P.
  apply list_max_reached in P. apply in_map_iff in P.
  destruct P as (para & E & I). eauto.
Qed.

(** The lines below a heading line, as a text. *)
Lemma rest_nesting para :
  (1 <? length (linesOf para)) = true ->
  nesting (join [LF] (tl (linesOf para))) = headings (tl (linesOf para)).
Proof.
  intros H. apply Nat.ltb_lt in H.
  pose proof (linesOf_clean para) as C.
  destruct (linesOf para) as [|l0 [|l1 rest]]; simpl in H; try lia.
  inversion C; subst. now apply nesting_join.
Qed.

(** Room for more calls than the nesting: the function returns. *)
Lemma parse_room frames : forall text,
  nesting text < frames -> exists nodes, parse frames text = Some nodes.
Proof.
  induction frames as [|f IH]; intros text L; [lia|]. simpl.
  destruct (truthy text); simpl; eauto.
  apply forEachPara_some. intros para I.
  apply nesting_para in I. rewrite headings_step in I. unfold paraNodes.
  destruct ((1 <? length (linesOf para)) && _) eqn:H; eauto.
  apply andb_prop in H. destruct H as [H _].
  destruct (IH (join [LF] (tl (linesOf para)))) as [child ->]; eauto.
  rewrite rest_nesting by assumption. lia.
Qed.

(** No more room than the nesting: the host throws. *)
Lemma parse_overflow frames : forall text,
  frames <= nesting text -> parse frames text = None.
Proof.
  induction frames as [|f IH]; intros text L; [reflexivity|]. simpl.
  destruct text as [|c text]; [vm_compute in L; lia|]. simpl.
  destruct (nesting_reached (c :: text)) as (para & I & E); [lia|].
  apply (forEachPara_none _ _ para I).
  rewrite headings_step in E. unfold paraNodes.
  destruct ((1 <? length (linesOf para)) && _) eqn:H; [|lia].
  apply andb_prop in H. destruct H as [H _].
  rewrite IH; [reflexivity|]. rewrite rest_nesting by assumption. lia.
Qed.

Lemma parse_frames frames text :
  parse frames text
  = if nesting text <? frames then Some (format text) else None.
Proof.
  destruct (nesting text <? frames) eqn:L.
  - apply Nat.ltb_lt in L. destruct (parse_room frames text L) as [nodes P].
    rewrite P. f_equal. now apply parse_some_format in P.
  - apply Nat.ltb_ge in L. now apply parse_overflow.
Qed.

Lemma nesting_length text : nesting text <= length text.
Proof.
  pose proof (parse_frames (S (length text)) text) as P.
  fold (parseAssistantTextToNodes text) in P. rewrite parse_total in P.
  destruct (nesting text <? S (length text)) eqn:L; [|discriminate].
  apply Nat.ltb_lt in L. lia.
Qed.

Lemma nesting_blank text : forallb isSpace text = true -> nesting text = 0.
Proof.
  intros W. unfold nesting. rewrite <- paragraph_runs.
  apply format_nil in W. rewrite parse_total in W. injection W as F.
  rewrite format_paragraphs in F.
  destruct (paragraphsOf text) as [|p ps]; [reflexivity|].
  simpl in F. apply app_eq_nil in F. destruct F as [F _].
  now apply unitNodes_not_nil in F.
Qed.

Lemma clean_a : clean (js "a:").
Proof.
  repeat split; [discriminate|].
  simpl. intuition discriminate.
Qed.

Lemma clean_x : clean (js "x").
Proof.
  repeat split; [discriminate|].
  simpl. intuition discriminate.
Qed.

Lemma nesting_deep n : nesting (deep n) = n.
Proof.
  unfold deep. rewrite nesting_join.
  - induction n as [|n IH]; [reflexivity|].
    rewrite headings_step. cbn [repeat app hd tl length].
    rewrite length_app, IH. simpl.
    replace (1 <? S (length (repeat (js "a:") n) + 1)) with true
      by (symmetry; apply Nat.ltb_lt; lia).
    reflexivity.
  - apply Forall_app. split.
    + apply Forall_forall. intros l I. apply repeat_spec in I. subst l.
      exact clean_a.
    + repeat constructor; apply clean_x.
  - destruct (repeat (js "a:") n); discriminate.
Qed.

(** Three headings need room for four calls. *)
Example deep_three :
  deep 3 = js "a:" ++ LF :: js "a:" ++ LF :: js "a:" ++ LF :: js "x"
  /\ parse 3 (deep 3) = None
  /\ parse 4 (deep 3)
     = Some [Heading (js "a"); Heading (js "a"); Heading (js "a");
             Paragraph (js "x")].
Proof. repeat split. Qed.

(** C1, amended.  For every input and every stack the call ends: it
    returns the sequence of blocks when the stack has room for more
    nested calls than the input has leading colon-ended lines above
    another line in one of its paragraph units, and otherwise the host
    throws its stack-overflow error, which the function does not catch.
    Room for more calls than the input has code units is always enough.
    For the empty string, and for every string of white space and blank
    lines only, the function returns the empty sequence, whatever room
    it has. *)
Theorem format_within_stack (frames : nat) (text : jsstring) :
  parse frames text
  = (if nesting text <? frames then Some (format text) else None)
  /\ nesting text <= length text
  /\ parse (S frames) [] = Some []
  /\ (forallb isSpace text = true -> parse (S frames) text = Some []).
Proof.
  split; [apply parse_frames|]. split; [apply nesting_length|].
  split; [reflexivity|].
  intros W. rewrite parse_frames, (nesting_blank text W). simpl.
  apply format_nil in W. rewrite parse_total in W. exact W.
Qed.

Lemma format_within_stack_witness :
  forallb isSpace (js "  " ++ [LF; LF; SP]) = true
  /\ parse 1 (js "  " ++ [LF; LF; SP]) = Some [].
Proof.
  split; [reflexivity|].
  apply (proj2 (proj2 (proj2 (format_within_stack 0 (js "  " ++ [LF; LF; SP]))))).
  reflexivity.
Defined.

(** C1 as written fails: whatever room the stack has, the text of that
    many lines "a:" above a line "x" needs one call more. *)
Lemma stack_overflow_counterexample : ~ exists frames, neverRaises frames.
Proof.
  intros [frames H]. destruct (H (deep frames)) as [nodes P].
  rewrite parse_overflow in P; [discriminate|].
  rewrite nesting_deep. lia.
Qed.

End FormatterStack.

(** ** The product filter: more *)

Module FilterMore.

Import Filter.

Lemma startsWith_iff needle : forall s,
  startsWith needle s = true <-> exists post, s = needle ++ post.
Proof.
  induction needle as [|a n IH]; intros s; simpl.
  - split; eauto.
  - destruct s as [|b s].
    + split; [discriminate|]. intros [post E]. discriminate.
    + rewrite andb_true_iff, N.eqb_eq, IH. split.
      * intros [-> [post ->]]. eauto.
      * intros [post [= -> ->]]. eauto.
Qed.

(** [includes] is the search for a contiguous occurrence. *)
Lemma includes_iff hay needle :
  includes hay needle = true <-> exists pre post, hay = pre ++ needle ++ post.
Proof.
  induction hay as [|c hay IH]; simpl.
  - rewrite orb_false_r, startsWith_iff. split.
    + intros [post E]. now exists [], post.
    + intros (pre & post & E). destruct pre; [eauto|discriminate].
  - rewrite orb_true_iff, startsWith_iff, IH. split.
    + intros [[post E]|(pre & post & ->)].
      * now exists [], post.
      * now exists (c :: pre), post.
    + intros (pre & post & E). destruct pre as [|d pre].
      * left. eauto.
      * right. injection E as -> ->. eauto.
Qed.

(** X8.  A product is shown exactly when it is in the catalog, no
    category is selected or its category is the selected one, and the
    lower-cased trimmed query is empty or occurs as a contiguous part of
    the product's lower-cased "name brand description" text. *)
Theorem shown_iff (toLowerCase : jsstring -> jsstring)
  (loadProducts : option (list Product)) (allProducts : list Product)
  (category : jsstring) (query : option jsstring)
  (catalog shown : list Product) (p : Product) :
  applyFilters toLowerCase loadProducts allProducts category query
  = Some (catalog, shown) ->
  let q := toLowerCase (trim (orEmpty query)) in
  In p shown <->
  In p catalog
  /\ (category = [] \/ Filter.category p = category)
  /\ (q = [] \/ exists pre post, hay toLowerCase p = pre ++ q ++ post).
Proof.
  intros H q. revert H. unfold applyFilters.
  destruct (match allProducts with [] => loadProducts | _ :: _ => Some allProducts end)
    as [cat|]; [|discriminate].
  fold q. intros [= <- <-].
  assert (C : forall l, In p (if truthy category
                              then filter (fun x => strictEq (Filter.category x) category) l
                              else l)
                        <-> In p l /\ (category = [] \/ Filter.category p = category)).
  { intros l. destruct category as [|c cs]; simpl; [tauto|].
    rewrite filter_In, SelectionSpec.strictEq_eq. intuition discriminate. }
  destruct q as [|c cs] eqn:Q; simpl.
  - rewrite C. tauto.
  - rewrite filter_In, C, includes_iff. intuition discriminate.
Qed.

Lemma shown_iff_witness :
  let p := {| name := js "Night Cream"; brand := None;
              category := js "moisturizer"; image := js "b.png";
              description := Some (js "Rich cream") |} in
  In p [p] <->
  In p [p]
  /\ (js "moisturizer" = [] \/ Filter.category p = js "moisturizer")
  /\ (js "cream  rich" = []
      \/ exists pre post,
          hay toLowerCaseASCII p = pre ++ js "cream  rich" ++ post).
Proof.
  intros p.
  exact (shown_iff toLowerCaseASCII None [p] (js "moisturizer")
           (Some (js " Cream  RICH ")) [p] [p] p eq_refl).
Defined.

Lemma applyFilters_shown toLowerCase load allProducts category query :
  toLowerCase [] = [] ->
  forallb isSpace (orEmpty query) = true ->
  applyFilters toLowerCase load allProducts category query
  = applyFilters toLowerCase load allProducts category None.
Proof.
  intros L W. unfold applyFilters.
  now rewrite (JsFacts.trim_allspace _ W).
Qed.

(** X9.  A missing, empty or blank query filters nothing: the view is
    the one of the category alone, and with no category selected either
    it is the whole catalog, unchanged. *)
Theorem blank_query_ignored (toLowerCase : jsstring -> jsstring)
  (loadProducts : option (list Product)) (allProducts : list Product)
  (category : jsstring) (query : option jsstring) :
  toLowerCase [] = [] ->
  forallb isSpace (orEmpty query) = true ->
  applyFilters toLowerCase loadProducts allProducts category query
  = applyFilters toLowerCase loadProducts allProducts category None
  /\ applyFilters toLowerCase loadProducts allProducts [] query
     = match catalogOf loadProducts allProducts with
       | Some catalog => Some (catalog, catalog)
       | None => None
       end.
Proof.
  intros L W. split; [now apply applyFilters_shown|].
  rewrite applyFilters_shown by assumption.
  unfold applyFilters, catalogOf.
  destruct allProducts, loadProducts; simpl;
    change (trim []) with (@nil char); rewrite ?L; reflexivity.
Qed.

Lemma blank_query_ignored_witness :
  applyFilters toLowerCaseASCII None
    [ {| name := js "Serum"; brand := None; category := js "serum";
         image := js "s.png"; description := None |} ]
    [] (Some [SP; 9%N; SP])
  = Some ([ {| name := js "Serum"; brand := None; category := js "serum";
               image := js "s.png"; description := None |} ],
          [ {| name := js "Serum"; brand := None; category := js "serum";
               image := js "s.png"; description := None |} ]).
Proof.
  exact (proj2 (blank_query_ignored toLowerCaseASCII None
                  [ {| name := js "Serum"; brand := None; category := js "serum";
                       image := js "s.png"; description := None |} ]
                  [] (Some [SP; 9%N; SP]) eq_refl eq_refl)).
Defined.

(** X10.  The two filters compose in either order: the view for a
    category and a query is the category's view narrowed by the query,
    and also the query's view narrowed by the category. *)
Theorem filters_commute (toLowerCase : jsstring -> jsstring)
  (loadProducts : option (list Product)) (allProducts : list Product)
  (category : jsstring) (query : option jsstring)
  (catalog byCategory byQuery : list Product) :
  toLowerCase [] = [] ->
  applyFilters toLowerCase loadProducts allProducts category None
  = Some (catalog, byCategory) ->
  applyFilters toLowerCase loadProducts allProducts [] query
  = Some (catalog, byQuery) ->
  let q := toLowerCase (trim (orEmpty query)) in
  exists shown,
    applyFilters toLowerCase loadProducts allProducts category query
    = Some (catalog, shown)
    /\ shown
       = (if truthy q
          then filter (fun p => includes (hay toLowerCase p) q) byCategory
          else byCategory)
    /\ shown
       = (if truthy category
          then filter (fun p => strictEq (Filter.category p) category) byQuery
          else byQuery).
Proof.
  intros L H1 H2 q. revert H1 H2. unfold applyFilters.
  destruct (match allProducts with [] => loadProducts | _ :: _ => Some allProducts end)
    as [cat|]; [|discriminate].
  simpl orEmpty. change (trim []) with (@nil char). rewrite L. simpl truthy.
  cbv iota. fold q. intros [= <- <-] [= <-].
  eexists. split; [reflexivity|]. split; [reflexivity|].
  destruct (truthy category), (truthy q); auto.
  rewrite !FilterSpec.filter_twice. apply filter_ext.
  intros p. apply andb_comm.
Qed.

Lemma filters_commute_witness :
  let a := {| name := js "Day Cream"; brand := None; category := js "cream";
              image := []; description := None |} in
  let b := {| name := js "Day Serum"; brand := None; category := js "serum";
              image := []; description := None |} in
  exists shown,
    applyFilters toLowerCaseASCII None [a; b] (js "serum") (Some (js "day"))
    = Some ([a; b], shown)
    /\ shown = filter (fun p => includes (hay toLowerCaseASCII p) (js "day")) [b]
    /\ shown = filter (fun p => strictEq (Filter.category p) (js "serum")) [a; b].
Proof.
  intros a b.
  exact (filters_commute toLowerCaseASCII None [a; b] (js "serum")
           (Some (js "day")) [a; b] [b] [a; b] eq_refl eq_refl eq_refl).
Defined.

End FilterMore.

(** ** The selection map: more *)

Module SelectionMore.

Import Filter Selection SelectionSpec.

Lemma strictEq_neq a b : a <> b -> strictEq a b = false.
Proof.
  intros N. destruct (strictEq a b) eqn:E; auto.
  apply strictEq_eq in E. contradiction.
Qed.

Lemma has_delete_other key k m : k <> key -> has k (delete key m) = has k m.
Proof.
  intros N. unfold has, delete. induction m as [|[k0 x] m IH]; simpl; auto.
  destruct (strictEq k0 key) eqn:E; simpl.
  - apply strictEq_eq in E. subst k0.
    rewrite (strictEq_neq key k) by congruence. exact IH.
  - now rewrite IH.
Qed.

Lemma has_set key v m : has key (set key v m) = true.
Proof.
  unfold has. induction m as [|[k0 x] m IH]; simpl.
  - now rewrite strictEq_refl.
  - destruct (strictEq k0 key) eqn:E; simpl; rewrite E; auto.
Qed.

Lemma has_set_other key k v m : k <> key -> has k (set key v m) = has k m.
Proof.
  intros N. unfold has. induction m as [|[k0 x] m IH]; simpl.
  - rewrite (strictEq_neq key k) by congruence. reflexivity.
  - destruct (strictEq k0 key) eqn:E; simpl; [reflexivity|now rewrite IH].
Qed.

Lemma keys_delete key m :
  keys (delete key m) = filter (fun k => negb (strictEq k key)) (keys m).
Proof.
  unfold keys, delete. induction m as [|[k0 x] m IH]; simpl; auto.
  destruct (strictEq k0 key); simpl; now rewrite IH.
Qed.

Lemma NoDup_filter {A} (f : A -> bool) l : NoDup l -> NoDup (filter f l).
Proof.
  induction 1 as [|x l N D IH]; simpl; [constructor|].
  destruct (f x); auto. constructor; auto.
  intros I. apply filter_In in I. tauto.
Qed.

Lemma NoDup_delete key m : NoDup (keys m) -> NoDup (keys (delete key m)).
Proof. intros D. rewrite keys_delete. now apply NoDup_filter. Qed.

Lemma NoDup_snoc {A} (l : list A) x : NoDup l -> ~ In x l -> NoDup (l ++ [x]).
Proof.
  intros D N. induction D as [|y l M D IH]; simpl.
  - repeat constructor. auto.
  - constructor.
    + intros I. apply in_app_or in I. simpl in *. intuition congruence.
    + apply IH. simpl in N. tauto.
Qed.

Lemma NoDup_set_absent key v m :
  NoDup (keys m) -> has key m = false -> NoDup (keys (set key v m)).
Proof.
  intros D H. rewrite (set_absent key v m H).
  unfold keys. rewrite map_app. simpl. apply NoDup_snoc; auto.
  intros I. apply has_in in I. congruence.
Qed.

(** X11.  A click on a card with a non-empty key flips the presence of
    that key and of no other; the other entries keep their values and
    their order, and a newly selected product goes to the end of the
    list of values. *)
Theorem toggle_flips (key : jsstring) (v : Summary) (m : SelMap) :
  truthy key = true ->
  has key (toggle key v m) = negb (has key m)
  /\ (forall k, k <> key -> has k (toggle key v m) = has k m)
  /\ delete key (toggle key v m) = delete key m
  /\ (has key m = false -> values (toggle key v m) = values m ++ [v]).
Proof.
  intros K. unfold toggle. rewrite K. simpl.
  destruct (has key m) eqn:H.
  - repeat split.
    + apply has_delete.
    + intros k N. now apply has_delete_other.
    + unfold delete. rewrite FilterSpec.filter_twice. apply filter_ext.
      intros e. apply andb_diag.
    + discriminate.
  - rewrite (set_absent key v m H). repeat split.
    + apply has_snoc.
    + intros k N. rewrite <- (set_absent key v m H). now apply has_set_other.
    + apply delete_snoc.
    + intros _. unfold values. now rewrite map_app.
Qed.

Lemma toggle_flips_witness :
  let a := {| name := js "A"; brand := js "x"; image := js "a.png" |} in
  let b := {| name := js "B"; brand := js "y"; image := js "b.png" |} in
  values (toggle (js "B") b [(js "A", a)]) = values [(js "A", a)] ++ [b].
Proof.
  intros a b.
  exact (proj2 (proj2 (proj2 (toggle_flips (js "B") b [(js "A", a)] eq_refl)))
           eq_refl).
Defined.

Lemma toggle_keeps_keys key v m :
  NoDup (keys m) -> Forall (fun k => truthy k = true) (keys m) ->
  NoDup (keys (toggle key v m))
  /\ Forall (fun k => truthy k = true) (keys (toggle key v m)).
Proof.
  intros D T. unfold toggle.
  destruct (truthy key) eqn:K; simpl; auto.
  destruct (has key m) eqn:H.
  - split; [now apply NoDup_delete|].
    rewrite keys_delete, Forall_forall in *. intros k I.
    apply filter_In in I. now apply T.
  - split; [now apply NoDup_set_absent|].
    rewrite (set_absent key v m H). unfold keys in *. rewrite map_app.
    apply Forall_app. split; auto. simpl. now constructor.
Qed.

Lemma selStep_keeps_keys m e :
  NoDup (keys m) /\ Forall (fun k => truthy k = true) (keys m) ->
  NoDup (keys (selStep m e))
  /\ Forall (fun k => truthy k = true) (keys (selStep m e)).
Proof.
  intros [D T]. destruct e as [key v|key]; simpl.
  - now apply toggle_keeps_keys.
  - destruct (truthy key); simpl; auto.
    split; [now apply NoDup_delete|].
    rewrite keys_delete, Forall_forall in *. intros k I.
    apply filter_In in I. now apply T.
Qed.

(** X12.  Whatever cards and remove buttons are clicked, in whatever
    order, the map never holds a key twice and never holds the empty
    key. *)
Theorem selection_keys_invariant (events : list SelEvent) :
  NoDup (keys (selRun events))
  /\ Forall (fun k => truthy k = true) (keys (selRun events)).
Proof.
  unfold selRun.
  assert (G : forall m,
             NoDup (keys m) /\ Forall (fun k => truthy k = true) (keys m) ->
             NoDup (keys (fold_left selStep events m))
             /\ Forall (fun k => truthy k = true)
                  (keys (fold_left selStep events m))).
  { induction events as [|e events IH]; intros m H; simpl; auto.
    apply IH. now apply selStep_keeps_keys. }
  apply G. split; constructor.
Qed.

(** X13.  Removing what a click has just selected undoes the click:
    with a non-empty key that was absent, card click then remove click
    gives back the map as it was; and a remove click is idempotent. *)
Theorem select_then_remove (key : jsstring) (v : Summary) (m : SelMap) :
  truthy key = true -> has key m = false ->
  selStep (selStep m (Clicked key v)) (Removed key) = m
  /\ forall m', selStep (selStep m' (Removed key)) (Removed key)
                = selStep m' (Removed key).
Proof.
  intros K H. simpl. unfold toggle. rewrite K, H. simpl. split.
  - rewrite (set_absent key v m H), delete_snoc. now apply delete_absent.
  - intros m'. apply delete_absent, has_delete.
Qed.

Lemma select_then_remove_witness :
  let a := {| name := js "A"; brand := js "x"; image := js "a.png" |} in
  let b := {| name := js "B"; brand := js "y"; image := js "b.png" |} in
  selStep (selStep [(js "A", a)] (Clicked (js "B") b)) (Removed (js "B"))
  = [(js "A", a)].
Proof.
  intros a b.
  exact (proj1 (select_then_remove (js "B") b [(js "A", a)] eq_refl eq_refl)).
Defined.

End SelectionMore.

(** ** The product grid and the selected list *)

Module PageMore.

Import Filter Selection SelectionSpec SelectionMore Page.

Lemma setNth_length {A} i (x : A) l : length (setNth i x l) = length l.
Proof.
  revert i. induction l as [|y l IH]; intros [|i]; simpl; auto.
Qed.

Lemma setNth_map {A B} (f : A -> B) i x y l :
  nth_error l i = Some x -> f y = f x -> map f (setNth i y l) = map f l.
Proof.
  revert i. induction l as [|z l IH]; intros [|i]; simpl; try discriminate.
  - intros [= ->] E. now rewrite E.
  - intros N E. now rewrite (IH i N E).
Qed.

Lemma setNth_Forall {A} (Q : A -> Prop) i y l :
  Forall Q l -> Q y -> Forall Q (setNth i y l).
Proof.
  intros F. revert i. induction F as [|z l Z F IH]; intros [|i] Y; simpl;
    constructor; auto.
Qed.

(** With different keys, a change that suits the card at [i] and every
    card of another key suits the grid. *)
Lemma setNth_unique {A B} (f : A -> B) (Q : A -> Prop) l : forall i x y,
  NoDup (map f l) -> nth_error l i = Some x -> Q y ->
  (forall z, In z l -> f z <> f x -> Q z) ->
  Forall Q (setNth i y l).
Proof.
  induction l as [|z l IH]; intros [|i] x y D N Y H; simpl in *;
    try discriminate; inversion D as [|? ? M D']; subst.
  - injection N as ->. constructor; auto.
    apply Forall_forall. intros w I. apply H; auto.
    intros E. apply M. rewrite <- E. now apply in_map.
  - constructor.
    + apply H; auto. intros E. apply M. rewrite E.
      apply in_map. eapply nth_error_In; eauto.
    + apply (IH i x y); auto.
Qed.

Lemma querySelector_some key cs i :
  querySelector key cs = Some i ->
  exists c, nth_error cs i = Some c /\ dataKey c = key.
Proof.
  revert i. induction cs as [|c cs IH]; intros i; simpl; [discriminate|].
  destruct (strictEq (dataKey c) key) eqn:E.
  - intros [= <-]. apply strictEq_eq in E. exists c. auto.
  - destruct (querySelector key cs) as [j|]; [|discriminate].
    intros [= <-]. apply (IH j eq_refl).
Qed.

Lemma querySelector_none key cs :
  querySelector key cs = None -> Forall (fun c => dataKey c <> key) cs.
Proof.
  induction cs as [|c cs IH]; simpl; auto.
  destruct (strictEq (dataKey c) key) eqn:E; [discriminate|].
  destruct (querySelector key cs); [discriminate|].
  intros _. constructor; auto.
  intros K. apply strictEq_eq in K. congruence.
Qed.

Lemma delete_nth m : forall j k v,
  NoDup (keys m) -> nth_error m j = Some (k, v) ->
  delete k m = firstn j m ++ skipn (S j) m.
Proof.
  induction m as [|[k0 x] m IH]; intros [|j] k v D N; simpl in *;
    try discriminate; inversion D as [|? ? M D']; subst.
  - injection N as -> ->. unfold delete. simpl. rewrite strictEq_refl. simpl.
    fold (delete k m). apply delete_absent.
    destruct (has k m) eqn:H; auto. apply has_in in H. contradiction.
  - unfold delete. simpl. rewrite SelectionMore.strictEq_neq.
    + simpl. f_equal. now apply (IH j k v).
    + intros ->. apply M. change k with (fst (k, v)).
      apply in_map. eapply nth_error_In; eauto.
Qed.

Section WithEncode.

Variable encode : jsstring -> jsstring.

Lemma update_synced st : synced encode (updateSelectedProductsList encode st).
Proof.
  unfold synced, updateSelectedProductsList.
  destruct (selectedProductsListEl st) eqn:E; simpl.
  - now intros items [= <-].
  - rewrite E. discriminate.
Qed.

Lemma update_fields st :
  selectedProducts (updateSelectedProductsList encode st) = selectedProducts st
  /\ cards (updateSelectedProductsList encode st) = cards st.
Proof.
  unfold updateSelectedProductsList.
  now destruct (selectedProductsListEl st).
Qed.

(** The invariant after the map and one card have changed together. *)
Lemma pageInv_change st i card sel' b :
  pageInv encode st ->
  nth_error (cards st) i = Some card ->
  NoDup (keys sel') ->
  Forall (fun e => fst e = encode (name (snd e)) /\ truthy (fst e) = true) sel' ->
  b = has (dataKey card) sel' ->
  (forall k, k <> dataKey card -> has k sel' = has k (selectedProducts st)) ->
  pageInv encode
    (updateSelectedProductsList encode
       {| selectedProducts := sel';
          cards := setNth i (setSelected b card) (cards st);
          selectedProductsListEl := selectedProductsListEl st |}).
Proof.
  intros ((GD & GK) & _ & M & _) N D F B O.
  destruct (update_fields
              {| selectedProducts := sel';
                 cards := setNth i (setSelected b card) (cards st);
                 selectedProductsListEl := selectedProductsListEl st |})
    as [Es Ec].
  simpl in Es, Ec.
  split; [|split; [|split]]; [| | |apply update_synced].
  - unfold gridOk. rewrite Ec. split.
    + now rewrite (setNth_map dataKey i card (setSelected b card) _ N eq_refl).
    + apply setNth_Forall; auto. simpl.
      exact (proj1 (Forall_forall _ _) GK card (nth_error_In _ _ N)).
  - unfold entriesOk. rewrite Es. auto.
  - unfold marked. rewrite Es, Ec.
    apply (setNth_unique dataKey _ (cards st) i card); auto.
    intros z I K. rewrite (O _ K).
    exact (proj1 (Forall_forall _ _) M z I).
Qed.

(** X14.  The two click listeners keep the page consistent: as long as
    the cards have different keys, each the encoding of the card's
    name, after every click a card has the class [selected] exactly when
    its key is in the map, the selected list shows the values of the
    map in order, and every entry of the map sits under the non-empty
    encoding of its name. *)
Theorem clicks_keep_page (st : Page) (g : GridTarget) (l : ListTarget) :
  pageInv encode st ->
  pageInv encode (gridClick encode g st)
  /\ pageInv encode (listClick encode l st).
Proof.
  intros Inv. pose proof Inv as ((GD & GK) & (ED & EK) & M & S). split.
  - unfold gridClick. destruct (onInfoBtn g).
    + destruct (cardAt g) as [i|]; auto.
      destruct (nth_error (cards st) i) as [card|] eqn:N; auto.
      split; [|split; [|split]]; simpl; auto.
      * unfold gridOk. simpl. split.
        -- now rewrite (setNth_map dataKey i card (toggleExpanded card) _ N eq_refl).
        -- apply setNth_Forall; auto. simpl.
           exact (proj1 (Forall_forall _ _) GK card (nth_error_In _ _ N)).
      * unfold entriesOk. simpl. split; auto.
      * unfold marked. simpl. apply setNth_Forall; auto. simpl.
        exact (proj1 (Forall_forall _ _) M card (nth_error_In _ _ N)).
    + destruct (cardAt g) as [i|]; auto.
      destruct (nth_error (cards st) i) as [card|] eqn:N; auto.
      destruct (truthy (dataKey card)) eqn:K; simpl; auto.
      destruct (has (dataKey card) (selectedProducts st)) eqn:H.
      * apply pageInv_change; auto.
        -- now apply NoDup_delete.
        -- rewrite Forall_forall in *. intros e I.
           apply filter_In in I. now apply EK.
        -- symmetry. apply has_delete.
        -- intros k O. now apply has_delete_other.
      * apply pageInv_change; auto.
        -- now apply NoDup_set_absent.
        -- rewrite (set_absent _ _ _ H). apply Forall_app. split; auto.
           repeat constructor; simpl; auto.
           exact (proj1 (Forall_forall _ _) GK card (nth_error_In _ _ N)).
        -- symmetry. apply has_set.
        -- intros k O. now apply has_set_other.
  - unfold listClick. destruct (onRemoveBtn l); cbn [negb]; auto.
    destruct (itemAt l) as [j|]; auto.
    destruct (selectedProductsListEl st) as [items|] eqn:L; auto.
    destruct (nth_error items j) as [item|]; auto.
    destruct (truthy (itemKey item)) eqn:K; cbn [negb]; auto.
    cbv zeta. set (key := itemKey item) in *.
    assert (U : updateSelectedProductsList encode
                  {| selectedProducts := delete key (selectedProducts st);
                     cards := cards st;
                     selectedProductsListEl := Some items |}
                = {| selectedProducts := delete key (selectedProducts st);
                     cards := cards st;
                     selectedProductsListEl :=
                       Some (map (itemOf encode)
                               (values (delete key (selectedProducts st)))) |})
      by reflexivity.
    rewrite U. cbn [cards selectedProducts selectedProductsListEl].
    assert (E' : NoDup (keys (delete key (selectedProducts st)))
                 /\ Forall (fun e => fst e = encode (name (snd e))
                                     /\ truthy (fst e) = true)
                      (delete key (selectedProducts st))).
    { split; [now apply NoDup_delete|].
      rewrite Forall_forall in *. intros e I.
      apply filter_In in I. now apply EK. }
    destruct (querySelector key (cards st)) as [i|] eqn:Q.
    + destruct (querySelector_some _ _ _ Q) as (card & N & C). rewrite N.
      pose proof (pageInv_change st i card (delete key (selectedProducts st))
                    false Inv N (proj1 E') (proj2 E')) as P.
      rewrite C in P. specialize (P (eq_sym (has_delete key _))
                                    (fun k O => has_delete_other key k _ O)).
      unfold updateSelectedProductsList in P.
      cbn [cards selectedProducts selectedProductsListEl] in P.
      rewrite L in P. exact P.
    + apply querySelector_none in Q.
      split; [|split; [|split]].
      * split; auto.
      * exact E'.
      * unfold marked in *. cbn [cards selectedProducts].
        rewrite Forall_forall in *.
        intros c I. rewrite (M c I). symmetry.
        apply has_delete_other. now apply Q.
      * intros its [= <-]. reflexivity.
Qed.

Lemma setNth_same {A} i (x : A) l :
  i < length l -> nth_error (setNth i x l) i = Some x.
Proof.
  revert i. induction l as [|y l IH]; intros [|i] L; simpl in *; try lia; auto.
  apply IH. lia.
Qed.

Lemma setNth_other {A} i j (x : A) l :
  i <> j -> nth_error (setNth i x l) j = nth_error l j.
Proof.
  revert i j. induction l as [|y l IH]; intros [|i] [|j] N; simpl; auto;
    try congruence.
Qed.

(** On the map, a click on a card is the [toggle] of its key. *)
Lemma gridClick_toggle st i card :
  nth_error (cards st) i = Some card ->
  selectedProducts
    (gridClick encode {| onInfoBtn := false; cardAt := Some i |} st)
  = toggle (dataKey card)
      {| name := dataName card; brand := dataBrand card;
         image := dataImage card |}
      (selectedProducts st).
Proof.
  intros N. unfold gridClick, toggle. cbn [onInfoBtn cardAt]. rewrite N.
  cbv zeta. destruct (truthy (dataKey card)); cbn [negb]; auto.
  destruct (has (dataKey card) (selectedProducts st));
    rewrite (proj1 (update_fields _)); reflexivity.
Qed.

(** X15.  A click on the remove button of the [j]-th item of the
    selected list removes the [j]-th entry of the map and no other: the
    key the item carries, the encoding of the product's name, is the key
    of that entry. *)
Theorem remove_its_entry (st : Page) (j : nat) (items : list Item)
  (item : Item) :
  pageInv encode st ->
  selectedProductsListEl st = Some items ->
  nth_error items j = Some item ->
  selectedProducts
    (listClick encode {| onRemoveBtn := true; itemAt := Some j |} st)
  = firstn j (selectedProducts st) ++ skipn (S j) (selectedProducts st).
Proof.
  intros (_ & (ED & EK) & _ & S) L N.
  rewrite (S items L) in N. unfold values in N. rewrite map_map in N.
  destruct (nth_error (selectedProducts st) j) as [[k v]|] eqn:E;
    [|rewrite nth_error_map, E in N; discriminate].
  rewrite nth_error_map, E in N. injection N as <-.
  destruct (proj1 (Forall_forall _ _) EK (k, v) (nth_error_In _ _ E)) as [Ek Tk].
  simpl in Ek, Tk.
  assert (D : selectedProducts
                (listClick encode {| onRemoveBtn := true; itemAt := Some j |} st)
              = delete k (selectedProducts st)).
  { unfold listClick. cbn [onRemoveBtn itemAt negb]. rewrite L.
    rewrite (S items L) at 1. unfold values at 1.
    rewrite map_map, nth_error_map, E. cbn [option_map snd itemOf itemKey].
    rewrite <- Ek, Tk. cbn [negb]. cbv zeta.
    destruct (update_fields
                {| selectedProducts := delete k (selectedProducts st);
                   cards := cards st;
                   selectedProductsListEl := Some items |}) as [Es Ec].
    destruct (querySelector k _) as [i|]; [|exact Es].
    destruct (nth_error _ i); exact Es. }
  rewrite D. now apply (delete_nth _ j k v).
Qed.

(** X16.  A click on the info button of a card changes that card only:
    it flips the class [expanded] and, if the card has a description,
    sets its [aria-hidden] to the opposite of the new [expanded]; the
    selection map, the selected list, the [selected] class of every
    card and all the other cards stay as they are. *)
Theorem info_click (st : Page) (i : nat) (card : Card) :
  nth_error (cards st) i = Some card ->
  let st' := gridClick encode {| onInfoBtn := true; cardAt := Some i |} st in
  selectedProducts st' = selectedProducts st
  /\ selectedProductsListEl st' = selectedProductsListEl st
  /\ map isSelected (cards st') = map isSelected (cards st)
  /\ (forall j, j <> i -> nth_error (cards st') j = nth_error (cards st) j)
  /\ exists card',
      nth_error (cards st') i = Some card'
      /\ isExpanded card' = negb (isExpanded card)
      /\ (hasDesc card = true ->
          ariaHidden card' = stringOfBool (negb (isExpanded card'))).
Proof.
  intros N st'. subst st'. unfold gridClick. cbn [onInfoBtn cardAt].
  rewrite N. cbn [selectedProducts selectedProductsListEl cards].
  repeat split.
  - apply (setNth_map isSelected i card); auto.
  - intros j D. apply setNth_other. congruence.
  - exists (toggleExpanded card). split; [|split].
    + apply setNth_same. apply nth_error_Some. congruence.
    + reflexivity.
    + intros H. simpl. now rewrite H.
Qed.

End WithEncode.

Lemma clicks_keep_page_witness :
  let serum := {| name := js "Serum"; brand := js "Vichy"; image := js "s.png" |} in
  let st :=
    {| selectedProducts := [(js "Serum", serum)];
       cards := [ {| dataKey := js "Serum"; dataName := js "Serum";
                     dataBrand := js "Vichy"; dataImage := js "s.png";
                     hasDesc := true; ariaHidden := js "true";
                     isSelected := true; isExpanded := false |};
                  {| dataKey := js "Toner"; dataName := js "Toner";
                     dataBrand := js "Garnier"; dataImage := js "t.png";
                     hasDesc := true; ariaHidden := js "true";
                     isSelected := false; isExpanded := false |} ];
       selectedProductsListEl :=
         Some [ {| itemKey := js "Serum"; itemProduct := serum |} ] |} in
  pageInv encodeUnreserved
    (gridClick encodeUnreserved {| onInfoBtn := false; cardAt := Some 1 |} st)
  /\ pageInv encodeUnreserved
       (listClick encodeUnreserved {| onRemoveBtn := true; itemAt := Some 0 |} st).
Proof.
  intros serum st. apply clicks_keep_page.
  repeat split.
  - repeat constructor; simpl; intuition discriminate.
  - repeat constructor.
  - repeat constructor; simpl; intuition discriminate.
  - repeat constructor.
  - repeat constructor.
  - intros items [= <-]. reflexivity.
Defined.

Lemma remove_its_entry_witness :
  let serum := {| name := js "Serum"; brand := js "Vichy"; image := js "s.png" |} in
  let toner := {| name := js "Toner"; brand := js "Garnier"; image := js "t.png" |} in
  selectedProducts
    (listClick encodeUnreserved {| onRemoveBtn := true; itemAt := Some 0 |}
       {| selectedProducts := [(js "Serum", serum); (js "Toner", toner)];
          cards := [];
          selectedProductsListEl :=
            Some [ {| itemKey := js "Serum"; itemProduct := serum |};
                   {| itemKey := js "Toner"; itemProduct := toner |} ] |})
  = [(js "Toner", toner)].
Proof.
  intros serum toner.
  refine (remove_its_entry encodeUnreserved
            {| selectedProducts := [(js "Serum", serum); (js "Toner", toner)];
               cards := [];
               selectedProductsListEl :=
                 Some [ {| itemKey := js "Serum"; itemProduct := serum |};
                        {| itemKey := js "Toner"; itemProduct := toner |} ] |}
            0 [ {| itemKey := js "Serum"; itemProduct := serum |};
                {| itemKey := js "Toner"; itemProduct := toner |} ]
            {| itemKey := js "Serum"; itemProduct := serum |}
            _ eq_refl eq_refl).
  repeat split.
  - constructor.
  - constructor.
  - repeat constructor; simpl; intuition discriminate.
  - repeat constructor.
  - constructor.
  - intros items [= <-]. reflexivity.
Defined.

Lemma info_click_witness :
  let card := {| dataKey := js "Serum"; dataName := js "Serum";
                 dataBrand := js "Vichy"; dataImage := js "s.png";
                 hasDesc := true; ariaHidden := js "true";
                 isSelected := false; isExpanded := false |} in
  let st := {| selectedProducts := []; cards := [card];
               selectedProductsListEl := None |} in
  selectedProducts
    (gridClick encodeUnreserved {| onInfoBtn := true; cardAt := Some 0 |} st)
  = [].
Proof.
  intros card st.
  exact (proj1 (info_click encodeUnreserved st 0 card eq_refl)).
Defined.

Lemma replaceQuotes_none s : ~ In QUOT (replaceQuotes s).
Proof.
  induction s as [|c r IH]; simpl; auto.
  destruct (c =? QUOT)%N eqn:C.
  - intros I. repeat (destruct I as [I|I]; [discriminate|]). auto.
  - apply N.eqb_neq in C. simpl. intros [I|I]; auto.
Qed.

Lemma replaceQuotes_same s : ~ In QUOT s -> replaceQuotes s = s.
Proof.
  induction s as [|c r IH]; simpl; auto. intros N.
  destruct (c =? QUOT)%N eqn:C.
  - apply N.eqb_eq in C. tauto.
  - f_equal. tauto.
Qed.

(** X28.  The text [displayProducts] puts between the quotes of the
    [data-description] attribute never holds a double quote, so a
    description cannot end the attribute; and it is the description
    itself (the empty string for a missing one) exactly when the
    description holds no double quote. *)
Theorem description_attribute (product : Product) :
  ~ In QUOT (descriptionAttribute product)
  /\ (descriptionAttribute product = orEmpty (description product)
      <-> ~ In QUOT (orEmpty (description product))).
Proof.
  unfold descriptionAttribute. split; [apply replaceQuotes_none|]. split.
  - intros <-. apply replaceQuotes_none.
  - apply replaceQuotes_same.
Qed.

Example description_quoted :
  descriptionAttribute
    {| Filter.name := js "Serum"; Filter.brand := None;
       Filter.category := js "skincare"; Filter.image := js "s.png";
       Filter.description := Some (js "A " ++ QUOT :: js "light" ++ QUOT :: js " serum") |}
  = js "A &quot;light&quot; serum".
Proof. reflexivity. Qed.

End PageMore.

(** ** The chat handlers: sessions *)

Module ChatMore.

Import Filter Chat ChatSpec.

Lemma countRole_app r a b :
  countRole r (a ++ b) = countRole r a + countRole r b.
Proof. unfold countRole. now rewrite filter_app, length_app. Qed.

(** What the synchronous part of an action appends. *)
Lemma start_extends a apiKey st :
  exists ms ws,
    conversationMessages (fst (startOf a apiKey st))
    = conversationMessages st ++ ms
    /\ chatWindow (fst (startOf a apiKey st)) = chatWindow st ++ ws
    /\ (ms = [] /\ snd (startOf a apiKey st) = None
        \/ exists c, ms = [turn user c]).
Proof.
  destruct (userContent a) as [c|] eqn:U.
  - destruct (start_sends a apiKey st c U) as [shown E]. cbv zeta in E.
    rewrite E. exists [turn user c].
    destruct (truthy (orEmpty apiKey)); simpl; eexists;
      (split; [reflexivity|split; [rewrite <- app_assoc; reflexivity|eauto]]).
  - destruct a as [inputValue|selected]; simpl in *.
    + unfold submitStart. destruct (truthy (trim inputValue)); [discriminate|].
      exists [], []. simpl. rewrite !app_nil_r. auto.
    + unfold generateStart.
      destruct (Selection.values selected); [|discriminate].
      exists [], [ChatAssistant (assistantNodes noProductsNotice)].
      simpl. rewrite app_nil_r. auto.
Qed.

(** What a settled request appends. *)
Lemma afterFetch_extends outcome st :
  exists ms el,
    conversationMessages (afterFetch outcome st)
    = conversationMessages st ++ ms
    /\ chatWindow (afterFetch outcome st) = chatWindow st ++ [el]
    /\ (ms = [] \/ exists reply, ms = [turn assistant reply]).
Proof.
  destruct (replyOf outcome) as [reply|] eqn:R.
  - destruct (afterFetch_success outcome reply st R) as [-> _].
    exists [turn assistant reply]. simpl. eexists.
    split; [reflexivity|split; [reflexivity|eauto]].
  - destruct (afterFetch_failure outcome st R) as (notice & C & W & _).
    exists []. rewrite C, W, app_nil_r. eexists.
    split; [reflexivity|split; [reflexivity|auto]].
Qed.

Lemma chatStep_inv s e : sessionInv s -> sessionInv (chatStep s e).
Proof.
  intros (rest & C & Sy & Le). destruct e as [a apiKey|outcome]; simpl.
  - destruct (start_extends a apiKey (state s)) as (ms & ws & Cm & _ & M).
    destruct (startOf a apiKey (state s)) as [st req]. simpl in *.
    destruct M as [[-> N]|[c ->]].
    + subst req. exists rest. simpl. rewrite Cm, app_nil_r. auto.
    + assert (I : sessionInv {| state := st; inFlight := S (inFlight s) |}).
      { exists (rest ++ [turn user c]). simpl. rewrite Cm, C.
        rewrite !countRole_app. unfold countRole at 2 4 6. simpl.
        repeat split; lia. }
      destruct req; [exact I|].
      destruct I as (r & I1 & I2 & I3). exists r. simpl in *.
      repeat split; auto. lia.
  - destruct (inFlight s) as [|n] eqn:F.
    + exists rest. rewrite F. auto.
    + destruct (afterFetch_extends outcome (state s)) as (ms & el & Cm & _ & M).
      destruct M as [->|[reply ->]].
      * exists rest. simpl. rewrite Cm, app_nil_r. repeat split; auto. lia.
      * exists (rest ++ [turn assistant reply]). simpl. rewrite Cm, C.
        rewrite !countRole_app. unfold countRole at 2 4 6. simpl.
        repeat split; lia.
Qed.

Lemma session_invariant_aux events : sessionInv (chatRun events).
Proof.
  unfold chatRun.
  assert (G : forall s, sessionInv s -> sessionInv (fold_left chatStep events s)).
  { induction events as [|e events IH]; intros s I; simpl; auto.
    apply IH. now apply chatStep_inv. }
  apply G. exists []. simpl. repeat split; auto.
Qed.

(** X17.  In every session, however actions and settling requests
    interleave, the history starts with the system prompt and holds no
    other system message, and the assistant messages together with the
    requests still in flight never outnumber the user messages. *)
Theorem session_invariant (events : list ChatEvent) :
  sessionInv (chatRun events).
Proof. apply session_invariant_aux. Qed.

Lemma chatStep_extends s e :
  exists ms ws,
    conversationMessages (state (chatStep s e))
    = conversationMessages (state s) ++ ms
    /\ chatWindow (state (chatStep s e)) = chatWindow (state s) ++ ws.
Proof.
  destruct e as [a apiKey|outcome]; simpl.
  - destruct (start_extends a apiKey (state s)) as (ms & ws & Cm & Cw & _).
    exists ms, ws. destruct (startOf a apiKey (state s)) as [st [req|]]; auto.
  - destruct (inFlight s).
    + exists [], []. now rewrite !app_nil_r.
    + destruct (afterFetch_extends outcome (state s)) as (ms & el & Cm & Cw & _).
      exists ms, [el]. auto.
Qed.

(** X18.  The history and the chat window only grow: whatever happens
    later in a session, the messages and the chat elements there are
    stay where they are, unchanged, and new ones come after them. *)
Theorem session_append_only (events later : list ChatEvent) :
  exists ms ws,
    conversationMessages (state (chatRun (events ++ later)))
    = conversationMessages (state (chatRun events)) ++ ms
    /\ chatWindow (state (chatRun (events ++ later)))
       = chatWindow (state (chatRun events)) ++ ws.
Proof.
  unfold chatRun. rewrite fold_left_app.
  generalize (fold_left chatStep events {| state := initialState; inFlight := 0 |}).
  induction later as [|e later IH]; intros s; simpl.
  - exists [], []. now rewrite !app_nil_r.
  - destruct (IH (chatStep s e)) as (ms & ws & Cm & Cw).
    destruct (chatStep_extends s e) as (ms' & ws' & Cm' & Cw').
    exists (ms' ++ ms), (ws' ++ ws).
    rewrite Cm, Cw, Cm', Cw', !app_assoc. auto.
Qed.

(** X19.  Every request that is sent carries the whole history of the
    moment, the system prompt first and the new user message last. *)
Theorem request_carries_history (events : list ChatEvent) (a : Action)
  (apiKey : option jsstring) (req : Request) :
  snd (startOf a apiKey (state (chatRun events))) = Some req ->
  exists rest c,
    conversationMessages (state (chatRun events))
    = turn system systemPrompt :: rest
    /\ messages req = turn system systemPrompt :: rest ++ [turn user c]
    /\ messages req
       = conversationMessages (fst (startOf a apiKey (state (chatRun events)))).
Proof.
  intros Q. destruct (session_invariant_aux events) as (rest & C & _).
  destruct (userContent a) as [c|] eqn:U.
  - destruct (start_sends a apiKey (state (chatRun events)) c U) as [shown E].
    cbv zeta in E. rewrite E in *.
    destruct (truthy (orEmpty apiKey)); [|discriminate].
    simpl in Q. injection Q as <-. exists rest, c. simpl. rewrite C. auto.
  - destruct (start_silent a apiKey (state (chatRun events)) U) as [_ N].
    congruence.
Qed.

Lemma request_carries_history_witness :
  exists rest c,
    conversationMessages (state (chatRun [Acted (Submit (js "Hi")) None]))
    = turn system systemPrompt :: rest
    /\ messages (request
                   (appendAssistantMessage (js "Thinking" ++ [8230%N])
                      (pushMessage user (js "Why?")
                         (appendChild (ChatUser (js "Why?"))
                            (state (chatRun [Acted (Submit (js "Hi")) None])))))
                   500)
       = turn system systemPrompt :: rest ++ [turn user c]
    /\ messages (request
                   (appendAssistantMessage (js "Thinking" ++ [8230%N])
                      (pushMessage user (js "Why?")
                         (appendChild (ChatUser (js "Why?"))
                            (state (chatRun [Acted (Submit (js "Hi")) None])))))
                   500)
       = conversationMessages
           (fst (startOf (Submit (js " Why? ")) (Some (js "sk-test"))
                   (state (chatRun [Acted (Submit (js "Hi")) None])))).
Proof.
  exact (request_carries_history [Acted (Submit (js "Hi")) None]
           (Submit (js " Why? ")) (Some (js "sk-test")) _ eq_refl).
Defined.

(** *** Actions one after the other *)

Lemma answersUser_app msgs : forall previous more,
  answersUser previous (msgs ++ more)
  = answersUser previous msgs && answersUser (lastRole previous msgs) more.
Proof.
  induction msgs as [|m msgs IH]; intros previous more; simpl; auto.
  destruct (role m), previous; auto.
Qed.

Lemma run_extends a apiKey fetch st :
  exists ms,
    conversationMessages (run (startOf a apiKey) fetch st)
    = conversationMessages st ++ ms
    /\ (ms = [] \/ (exists c, ms = [turn user c])
        \/ exists c reply, ms = [turn user c; turn assistant reply]).
Proof.
  unfold run.
  destruct (start_extends a apiKey st) as (ms & ws & Cm & _ & M).
  destruct (startOf a apiKey st) as [st1 req]. simpl in *.
  destruct M as [[-> N]|[c ->]].
  - subst req. exists []. auto.
  - destruct req as [req|]; [|exists [turn user c]; eauto].
    destruct (afterFetch_extends (fetch req) st1) as (ms' & el & Cm' & _ & M').
    rewrite Cm', Cm, <- app_assoc. eexists. split; [reflexivity|].
    destruct M' as [->|[reply ->]]; simpl; eauto.
Qed.

(** X20.  When the actions run one after the other, each to its end
    before the next starts, every assistant message of the history
    comes directly after a user message: a reply is stored right behind
    the message it answers. *)
Theorem sequential_replies_follow_user
  (xs : list (Action * option jsstring * (Request -> Awaited Response))) :
  answersUser system (conversationMessages (seqRun xs)) = true.
Proof.
  unfold seqRun.
  assert (G : forall st,
             answersUser system (conversationMessages st) = true ->
             answersUser system (conversationMessages (fold_left seqStep xs st))
             = true).
  { induction xs as [|[[a apiKey] fetch] xs IH]; intros st A; simpl; auto.
    apply IH. destruct (run_extends a apiKey fetch st) as (ms & -> & M).
    rewrite answersUser_app, A. simpl.
    destruct M as [->|[[c ->]|(c & reply & ->)]]; simpl; auto;
      destruct (lastRole system (conversationMessages st)); reflexivity. }
  apply G. reflexivity.
Qed.

(** With two requests in flight the second reply lands behind the
    first. *)
Example interleaved_replies :
  let reply r := Fulfilled {| ok := true; status := 200; text := Fulfilled [];
                              json := Fulfilled (Some r) |} in
  map role
    (conversationMessages
       (state (chatRun [Acted (Submit (js "a")) (Some (js "sk-test"));
                        Acted (Submit (js "b")) (Some (js "sk-test"));
                        Settled (reply (js "to a"));
                        Settled (reply (js "to b"))])))
  = [system; user; user; assistant; assistant].
Proof. reflexivity. Qed.

(** X21.  [appendAssistantMessage] never adds an empty bubble: for a
    text of white space only it shows one paragraph holding the text as
    it is, and for every other text the blocks of the formatter, of
    which there is at least one. *)
Theorem assistant_message_shown (text : jsstring) (st : State) :
  exists nodes,
    chatWindow (appendAssistantMessage text st)
    = chatWindow st ++ [ChatAssistant nodes]
    /\ nodes <> []
    /\ nodes = (if forallb isSpace text then [Paragraph text] else format text)
    /\ parseAssistantTextToNodes text = Some (format text).
Proof.
  exists (assistantNodes text). split; [reflexivity|].
  split; [apply assistantNodes_not_nil|].
  split; [|apply FuelFacts.parse_total].
  unfold assistantNodes.
  pose proof (UnitFacts.format_nil text) as N.
  rewrite FuelFacts.parse_total in N.
  destruct (forallb isSpace text).
  - assert (E : format text = []) by (apply proj2 in N; specialize (N eq_refl); congruence).
    now rewrite E.
  - destruct (format text); auto.
    apply proj1 in N. specialize (N eq_refl). discriminate.
Qed.

End ChatMore.

(** ** The debounce helper *)

Module DebounceMore.

Import Debounce.

Section WithArgs.

Variable Args : Type.
Variable wait : option N.

Lemma step_keeps (w : World Args) (op : Op Args) :
  debounced (waitOf wait) (trace w) /\ oneTimer (waitOf wait) w ->
  debounced (waitOf wait) (trace (step wait w op))
  /\ oneTimer (waitOf wait) (step wait w op).
Proof.
  intros [D O]. destruct op as [args|id|d]; simpl.
  - split; [exact D|]. right.
    exists (nextId w), (now w), args, (trace w). unfold call. simpl.
    repeat split; try lia.
    destruct O as [->|(id & called & a & older & -> & -> & _)].
    + now destruct (t w).
    + simpl. now rewrite Nat.eqb_refl.
  - unfold fire.
    destruct O as [E|(i & called & a & older & E & T & Tr & L)]; rewrite E; simpl.
    + split; auto. now left.
    + destruct (i =? id) eqn:I; simpl.
      * destruct (N.leb_spec (called + waitOf wait) (now w)); simpl.
        -- split; [|now left]. rewrite Tr in *. simpl. auto.
        -- split; auto. right. exists i, called, a, older. auto.
      * split; auto. right. exists i, called, a, older. auto.
  - split; auto.
    destruct O as [E|(i & called & a & older & E & T & Tr & L)]; [now left|].
    right. exists i, called, a, older. simpl. repeat split; auto. lia.
Qed.

Lemma run_keeps (ops : list (Op Args)) (time : N) :
  debounced (waitOf wait) (trace (run wait ops time))
  /\ oneTimer (waitOf wait) (run wait ops time).
Proof.
  unfold run.
  assert (G : forall w,
             debounced (waitOf wait) (trace w) /\ oneTimer (waitOf wait) w ->
             debounced (waitOf wait) (trace (fold_left (step wait) ops w))
             /\ oneTimer (waitOf wait) (fold_left (step wait) ops w)).
  { induction ops as [|op ops IH]; intros w H; simpl; auto.
    apply IH. now apply step_keeps. }
  apply G. split; [exact I|now left].
Qed.

(** X22.  However calls, firing timers and the passing of time follow
    each other, at most one callback of the debounced function waits,
    and every invocation of [fn] comes right after a call, with the
    arguments of that call, at least [wait] after it: a call that is
    followed by another call before its timer fires is never passed on,
    and no call is passed on twice. *)
Theorem debounce_trace (ops : list (Op Args)) (time : N) :
  debounced (waitOf wait) (trace (run wait ops time))
  /\ length (waiting (run wait ops time)) <= 1.
Proof.
  destruct (run_keeps ops time) as [D O]. split; auto.
  destruct O as [->|(i & called & a & older & -> & _)]; simpl; lia.
Qed.

(** X23.  The last call of a burst gets through: once [wait] has passed
    after a call with no other call in between, the timer whose id [t]
    holds is due, and when it fires [fn] is invoked with the arguments
    of that call and nothing is left waiting. *)
Theorem last_call_fires (ops : list (Op Args)) (time : N) (args : Args)
  (d : N) :
  (waitOf wait <= d)%N ->
  let w := pass d (call wait args (run wait ops time)) in
  exists id,
    t w = Some id
    /\ trace (fire id w) = Invoked (now w) args :: trace w
    /\ waiting (fire id w) = [].
Proof.
  intros L w. destruct (run_keeps ops time) as [_ O].
  exists (nextId (run wait ops time)). split; [reflexivity|].
  assert (C : waiting w
              = [{| timerId := nextId (run wait ops time);
                    due := (now (run wait ops time) + waitOf wait)%N;
                    timerArgs := args |}]).
  { subst w. simpl.
    destruct O as [->|(id & called & a & older & -> & -> & _)].
    - now destruct (t (run wait ops time)).
    - simpl. now rewrite Nat.eqb_refl. }
  unfold fire. rewrite C. cbn [List.find timerId]. rewrite Nat.eqb_refl.
  cbn [due]. subst w. cbn [now pass call].
  rewrite (proj2 (N.leb_le _ _)) by lia.
  cbn [trace waiting filter timerId timerArgs pass call app].
  rewrite Nat.eqb_refl. auto.
Qed.

End WithArgs.

Lemma last_call_fires_witness :
  trace (fire 2 (pass 160 (call (Some 160%N) (js "ab")
                             (run (Some 160%N) [Call (js "a"); Pass jsstring 50] 0))))
  = [Invoked 210 (js "ab"); Called 50 (js "ab"); Called 0 (js "a")].
Proof.
  destruct (last_call_fires jsstring (Some 160%N)
              [Call (js "a"); Pass jsstring 50] 0
              (js "ab") 160 (N.le_refl _)) as (id & T & Tr & _).
  injection T as <-. exact Tr.
Defined.

End DebounceMore.
